(** * py-ts-lexer: a shallow embedding of [lexer.c] and its verified properties

    The development follows the sections of [lexer.c]: constants and keyword
    tables, data structures, utility functions (the Levenshtein table),
    comment extraction, tokenizers, the four error detectors and the pipeline
    of [main].

    Modelling conventions.
    - A C string is the list of its characters before the terminating NUL;
      [strlen] is the length of that list.  A read cursor
      [source_code + source_index] is the unread suffix of the list, so
      [source_index < source_length] reads "the suffix is not empty" and
      [source_code[source_index + k]] is the k-th character of the suffix.
    - [int] counters (indices, line numbers, distances) are natural numbers:
      every one of them is bounded by the length of the text being scanned.
    - The arrays [comments], [errors], [Comment.content], [Token.value] and
      [Symbol.name] are written by the C code without any bound check; they
      are lists here, so the model describes the runs whose writes stay
      inside their storage: [char value[256]], [char name[256]],
      [char content[MAX_LENGTH]], and the [MAX_COMMENTS] comments and
      [MAX_ERRORS] errors allocated by [main].  A run that writes past one
      of them overwrites the neighbouring fields and is not described.  The
      predicates [value_fits], [content_fits] and [analysis_fits] say that a
      result stays inside, and a property that depends on it carries them
      as a hypothesis.  The two capacities the code does test,
      [MAX_TOKENS] and [MAX_SYMBOLS], are modelled as written.
    - Loops whose trip count is fixed on entry are [for_range]/[for_while];
      the two scanners, whose inner loops move the cursor, run on fuel and
      return [None] when it is exhausted; the fuel given by the entry points
      is proved sufficient for every input. *)

From Stdlib Require Import Ascii String DecimalString.
From Stdlib Require Import List Arith Bool Lia PeanoNat Sorted.
Import ListNotations.

(** ** C strings and <ctype.h> *)

Definition cstring := list ascii.

Definition str (s : string) : cstring := list_ascii_of_string s.

Definition NUL : ascii := "000"%char.
Definition newline : ascii := "010"%char.
Definition dquote : ascii := "034"%char.
Definition squote : ascii := "039"%char.
Definition backslash : ascii := "092"%char.

Definition strlen (s : cstring) : nat := length s.

(** [s[i]]; every read of the source is in range, [NUL] is what sits at
    [s[strlen s]]. *)
Definition char_at (s : cstring) (i : nat) : ascii := nth i s NUL.

(** [strcmp(a, b) == 0] *)
Fixpoint streq (a b : cstring) : bool :=
  match a, b with
  | [], [] => true
  | x :: a', y :: b' => Ascii.eqb x y && streq a' b'
  | _, _ => false
  end.

Definition code (c : ascii) : nat := nat_of_ascii c.

Definition in_range (lo hi : nat) (c : ascii) : bool :=
  (lo <=? code c) && (code c <=? hi).

(** The "C" locale classes. *)
Definition isspace (c : ascii) : bool := (code c =? 32) || in_range 9 13 c.
Definition isdigit (c : ascii) : bool := in_range 48 57 c.
Definition isupper (c : ascii) : bool := in_range 65 90 c.
Definition islower (c : ascii) : bool := in_range 97 122 c.
Definition isalpha (c : ascii) : bool := isupper c || islower c.
Definition isalnum (c : ascii) : bool := isalpha c || isdigit c.
Definition tolower (c : ascii) : ascii :=
  if isupper c then ascii_of_nat (code c + 32) else c.

(** [strchr(set, c) != NULL]: the terminating NUL of [set] is matched too. *)
Definition strchr_found (set : cstring) (c : ascii) : bool :=
  Ascii.eqb c NUL || existsb (Ascii.eqb c) set.

(** ** Section 1 of lexer.c: constants *)

Definition MAX_TOKENS : nat := 1000.
Definition MAX_COMMENTS : nat := 100.
Definition MAX_ERRORS : nat := 100.
Definition MAX_SYMBOLS : nat := 500.
Definition MAX_LENGTH : nat := 1024.

Definition PYTHON_KEYWORDS : list cstring := map str
  [ "False"; "None"; "True"; "and"; "as"; "assert"; "async"; "await";
    "break"; "class"; "continue"; "def"; "del"; "elif"; "else"; "except";
    "finally"; "for"; "from"; "global"; "if"; "import"; "in"; "is";
    "lambda"; "nonlocal"; "not"; "or"; "pass"; "raise"; "return"; "try";
    "while"; "with"; "yield"; "int"; "float"; "str"; "bool"; "list"; "dict" ]%string.
Definition PYTHON_KEYWORD_COUNT : nat := 41.

Definition TYPESCRIPT_KEYWORDS : list cstring := map str
  [ "break"; "case"; "catch"; "class"; "const"; "continue"; "debugger";
    "default"; "delete"; "do"; "else"; "enum"; "export"; "extends"; "false";
    "finally"; "for"; "function"; "if"; "import"; "in"; "instanceof";
    "interface"; "let"; "new"; "null"; "return"; "super"; "switch"; "this";
    "throw"; "true"; "try"; "typeof"; "var"; "void"; "while"; "with";
    "number"; "string"; "boolean"; "any"; "never"; "unknown"; "async"; "await" ]%string.
Definition TYPESCRIPT_KEYWORD_COUNT : nat := 46.

Inductive Language := LANG_PYTHON | LANG_TYPESCRIPT.

(** ** Section 2: data structures *)

(** The seven strings ever stored in [Token.type]. *)
Inductive TokenType :=
  | KEYWORD | IDENTIFIER | INT_LITERAL | FLOAT_LITERAL | STRING_LITERAL
  | OPERATOR | DELIMITER.

Definition TokenType_eqb (a b : TokenType) : bool :=
  match a, b with
  | KEYWORD, KEYWORD | IDENTIFIER, IDENTIFIER | INT_LITERAL, INT_LITERAL
  | FLOAT_LITERAL, FLOAT_LITERAL | STRING_LITERAL, STRING_LITERAL
  | OPERATOR, OPERATOR | DELIMITER, DELIMITER => true
  | _, _ => false
  end.

Record Token := mkToken { value : cstring; type : TokenType; line : nat }.

Record Comment := mkComment {
  content : cstring; start_line : nat; end_line : nat; is_multiline : bool }.

Inductive ErrorType :=
  | ERROR_TYPE_MISSPELLED_KEYWORD
  | ERROR_TYPE_TYPE_MISMATCH
  | ERROR_TYPE_UNDECLARED_IDENTIFIER
  | ERROR_TYPE_INVALID_OPERATOR.

Record Error := mkError {
  message : cstring; line_number : nat; error_type : ErrorType }.

(** [snprintf(buf, MAX_LENGTH, ...)] keeps at most [MAX_LENGTH - 1] characters. *)
Definition snprintf (text : cstring) : cstring := firstn (MAX_LENGTH - 1) text.

(** ** Loop combinators *)

(** [for (k = lo; k < lo + n; k++) st = body k st;] *)
Definition for_range {St : Type} (lo n : nat) (body : nat -> St -> St) (st : St) : St :=
  fold_left (fun st k => body k st) (seq lo n) st.

(** [for (k = lo; k < lo + n && cont k; k++) st = body k st;] *)
Fixpoint for_while {St : Type} (lo n : nat) (cont : nat -> bool)
    (body : nat -> St -> St) (st : St) : St :=
  match n with
  | 0 => st
  | S n' => if cont lo then for_while (S lo) n' cont body (body lo st) else st
  end.

(** ** Section 3: utility functions *)

Definition min_of_three (a b c : nat) : nat :=
  let min := a in
  let min := if b <? min then b else min in
  let min := if c <? min then c else min in
  min.

(** The variable-length array [matrix[len1 + 1][len2 + 1]] as a store; a
    cell that was never assigned reads as whatever the store started with. *)
Definition Matrix := nat -> nat -> nat.

Definition mset (m : Matrix) (i j v : nat) : Matrix :=
  fun i' j' => if (i' =? i) && (j' =? j) then v else m i' j'.

Definition subst_cost (str1 str2 : cstring) (i j : nat) : nat :=
  if Ascii.eqb (tolower (char_at str1 (i - 1))) (tolower (char_at str2 (j - 1)))
  then 0 else 1.

Definition lev_cell (str1 str2 : cstring) (i j : nat) (matrix : Matrix) : Matrix :=
  let cost := subst_cost str1 str2 i j in
  mset matrix i j
    (min_of_three (matrix (i - 1) j + 1)
                  (matrix i (j - 1) + 1)
                  (matrix (i - 1) (j - 1) + cost)).

Definition lev_fill (str1 str2 : cstring) (matrix : Matrix) : Matrix :=
  let len1 := strlen str1 in
  let len2 := strlen str2 in
  let matrix := for_range 0 (len1 + 1) (fun i m => mset m i 0 i) matrix in
  let matrix := for_range 0 (len2 + 1) (fun j m => mset m 0 j j) matrix in
  for_range 1 len1
    (fun i m => for_range 1 len2 (fun j m => lev_cell str1 str2 i j m) m)
    matrix.

Definition levenshtein_from (stack : Matrix) (str1 str2 : cstring) : nat :=
  lev_fill str1 str2 stack (strlen str1) (strlen str2).

Definition levenshtein_distance (str1 str2 : cstring) : nat :=
  levenshtein_from (fun _ _ => 0) str1 str2.

Definition is_keyword_of (keywords : list cstring) (word : cstring) : bool :=
  existsb (fun kw => streq word kw) keywords.

Definition is_python_keyword (word : cstring) : bool :=
  is_keyword_of PYTHON_KEYWORDS word.

Definition is_typescript_keyword (word : cstring) : bool :=
  is_keyword_of TYPESCRIPT_KEYWORDS word.

Definition is_operator_char (c : ascii) : bool :=
  strchr_found (str "+-*/%=<>!&|^~") c.

Definition is_delimiter_char (c : ascii) : bool :=
  strchr_found (str "()[]{},:;.") c.

(** ** Section 4: comment extraction *)

(** [while (source_index < source_length && source_code[source_index] != '\n')
       content[content_index++] = source_code[source_index++];]
    returns the characters copied and the unread suffix. *)
Fixpoint copy_line (rest : cstring) : cstring * cstring :=
  match rest with
  | [] => ([], [])
  | c :: rest' =>
      if Ascii.eqb c newline then ([], rest)
      else let (copied, r) := copy_line rest' in (c :: copied, r)
  end.

(** [s[i] == q && s[i+1] == q && s[i+2] == q], guarded by [i + 2 < length]. *)
Definition three_of (q : ascii) (rest : cstring) : bool :=
  match rest with
  | c0 :: c1 :: c2 :: _ => Ascii.eqb c0 q && Ascii.eqb c1 q && Ascii.eqb c2 q
  | _ => false
  end.

(** The copy loop of a triple-quoted comment, entered after the opening
    quotes: [while (source_index + 2 < source_length) { ... }]. *)
Fixpoint copy_until_quotes (quote_char : ascii) (rest : cstring) (current_line : nat)
    : cstring * cstring * nat :=
  match rest with
  | c0 :: ((_ :: _ :: _) as rest') =>
      let current_line := if Ascii.eqb c0 newline then S current_line else current_line in
      if three_of quote_char rest then (firstn 3 rest, skipn 3 rest, current_line)
      else
        let '(copied, r, l) := copy_until_quotes quote_char rest' current_line in
        (c0 :: copied, r, l)
  | _ => ([], rest, current_line)
  end.

Fixpoint extract_python_loop (fuel : nat) (rest : cstring)
    (comments : list Comment) (clean : cstring) (current_line : nat)
    : option (list Comment * cstring) :=
  match fuel with
  | 0 => None
  | S fuel' =>
      match rest with
      | [] => Some (comments, clean)
      | c :: rest' =>
          if Ascii.eqb c "#" then
            let (copied, r) := copy_line rest in
            extract_python_loop fuel' r
              (comments ++ [mkComment copied current_line current_line false])
              clean current_line
          else if three_of squote rest || three_of dquote rest then
            let quote_char := c in
            let opening := firstn 3 rest in
            let '(copied, r, l) :=
              copy_until_quotes quote_char (skipn 3 rest) current_line in
            extract_python_loop fuel' r
              (comments ++ [mkComment (opening ++ copied) current_line l true])
              clean l
          else
            extract_python_loop fuel' rest' comments (clean ++ [c])
              (if Ascii.eqb c newline then S current_line else current_line)
      end
  end.

(** The result is [(comments, code_without_comments)]; [*comment_count] is
    the length of the first component. *)
Definition extract_comments_python (source_code : cstring)
    : option (list Comment * cstring) :=
  extract_python_loop (S (strlen source_code)) source_code [] [] 1.

(** [s[i] == a && s[i+1] == b], guarded by [i + 1 < length]. *)
Definition two_of (a b : ascii) (rest : cstring) : bool :=
  match rest with
  | c0 :: c1 :: _ => Ascii.eqb c0 a && Ascii.eqb c1 b
  | _ => false
  end.

(** The copy loop of a block comment, entered after its two opening
    characters: [while (source_index + 1 < source_length) { ... }]. *)
Fixpoint copy_until_star_slash (rest : cstring) (current_line : nat)
    : cstring * cstring * nat :=
  match rest with
  | c0 :: ((_ :: _) as rest') =>
      let current_line := if Ascii.eqb c0 newline then S current_line else current_line in
      if two_of "*" "/" rest then (firstn 2 rest, skipn 2 rest, current_line)
      else
        let '(copied, r, l) := copy_until_star_slash rest' current_line in
        (c0 :: copied, r, l)
  | _ => ([], rest, current_line)
  end.

Fixpoint extract_typescript_loop (fuel : nat) (rest : cstring)
    (comments : list Comment) (clean : cstring) (current_line : nat)
    : option (list Comment * cstring) :=
  match fuel with
  | 0 => None
  | S fuel' =>
      match rest with
      | [] => Some (comments, clean)
      | c :: rest' =>
          if two_of "/" "/" rest then
            let (copied, r) := copy_line rest in
            extract_typescript_loop fuel' r
              (comments ++ [mkComment copied current_line current_line false])
              clean current_line
          else if two_of "/" "*" rest then
            let opening := firstn 2 rest in
            let '(copied, r, l) :=
              copy_until_star_slash (skipn 2 rest) current_line in
            extract_typescript_loop fuel' r
              (comments ++ [mkComment (opening ++ copied) current_line l true])
              clean l
          else
            extract_typescript_loop fuel' rest' comments (clean ++ [c])
              (if Ascii.eqb c newline then S current_line else current_line)
      end
  end.

Definition extract_comments_typescript (source_code : cstring)
    : option (list Comment * cstring) :=
  extract_typescript_loop (S (strlen source_code)) source_code [] [] 1.

Definition extract_comments (lang : Language) (source_code : cstring)
    : option (list Comment * cstring) :=
  match lang with
  | LANG_PYTHON => extract_comments_python source_code
  | LANG_TYPESCRIPT => extract_comments_typescript source_code
  end.

(** ** Section 5: tokenizer

    [tokenize_python] and [tokenize_typescript] are the same text except for
    the keyword table, the [$] of identifiers, the backtick string and the
    line count inside a string; [lang] selects between them. *)

Section Tokenizer.

Variable lang : Language.

Definition is_typescript : bool :=
  match lang with LANG_TYPESCRIPT => true | LANG_PYTHON => false end.

Definition is_keyword (word : cstring) : bool :=
  match lang with
  | LANG_PYTHON => is_python_keyword word
  | LANG_TYPESCRIPT => is_typescript_keyword word
  end.

Definition ident_start (c : ascii) : bool :=
  isalpha c || Ascii.eqb c "_" || (is_typescript && Ascii.eqb c "$").

Definition ident_char (c : ascii) : bool :=
  isalnum c || Ascii.eqb c "_" || (is_typescript && Ascii.eqb c "$").

Definition string_start (c : ascii) : bool :=
  Ascii.eqb c dquote || Ascii.eqb c squote || (is_typescript && Ascii.eqb c "`").

(** [while (code_index < code_length && isspace(...)) { if '\n' line++; code_index++; }] *)
Fixpoint skip_whitespace (rest : cstring) (current_line : nat) : cstring * nat :=
  match rest with
  | c :: rest' =>
      if isspace c
      then skip_whitespace rest' (if Ascii.eqb c newline then S current_line else current_line)
      else (rest, current_line)
  | [] => ([], current_line)
  end.

(** [while (code_index < code_length && p(...)) value[value_index++] = source_code[code_index++];] *)
Fixpoint scan_while (p : ascii -> bool) (rest : cstring) : cstring * cstring :=
  match rest with
  | c :: rest' =>
      if p c then let (v, r) := scan_while p rest' in (c :: v, r) else ([], rest)
  | [] => ([], [])
  end.

Fixpoint scan_number (rest : cstring) (has_decimal_point : bool)
    : cstring * cstring * bool :=
  match rest with
  | c :: rest' =>
      if isdigit c || Ascii.eqb c "." then
        let has_decimal_point := if Ascii.eqb c "." then true else has_decimal_point in
        let '(v, r, d) := scan_number rest' has_decimal_point in (c :: v, r, d)
      else ([], rest, has_decimal_point)
  | [] => ([], [], has_decimal_point)
  end.

(** The body of a string literal, after its opening quote.  A backslash
    that is not the last character is copied together with the character
    after it; only the TypeScript tokenizer counts lines here. *)
Fixpoint scan_string (quote_char : ascii) (rest : cstring) (current_line : nat)
    : cstring * cstring * nat :=
  match rest with
  | [] => ([], [], current_line)
  | c :: rest1 =>
      if Ascii.eqb c quote_char then ([], rest, current_line)
      else
        match Ascii.eqb c backslash, rest1 with
        | true, c2 :: rest2 =>
            let current_line :=
              if is_typescript && Ascii.eqb c2 newline then S current_line else current_line in
            let '(v, r, l) := scan_string quote_char rest2 current_line in
            (c :: c2 :: v, r, l)
        | _, _ =>
            let current_line :=
              if is_typescript && Ascii.eqb c newline then S current_line else current_line in
            let '(v, r, l) := scan_string quote_char rest1 current_line in
            (c :: v, r, l)
        end
  end.

(** [while (code_index < code_length && is_operator_char(...) && value_index < 3)] *)
Fixpoint scan_operator (rest : cstring) (value_index : nat) : cstring * cstring :=
  match rest with
  | c :: rest' =>
      if is_operator_char c && (value_index <? 3)
      then let (v, r) := scan_operator rest' (S value_index) in (c :: v, r)
      else ([], rest)
  | [] => ([], [])
  end.

Fixpoint tokenize_loop (fuel : nat) (rest : cstring) (current_line : nat)
    (tokens : list Token) (token_count : nat) : option (list Token) :=
  match fuel with
  | 0 => None
  | S fuel' =>
      match rest with
      | [] => Some tokens
      | _ :: _ =>
          if token_count <? MAX_TOKENS then
            let (rest, current_line) := skip_whitespace rest current_line in
            match rest with
            | [] => Some tokens
            | c :: rest' =>
                if ident_start c then
                  let (v, r) := scan_while ident_char rest in
                  tokenize_loop fuel' r current_line
                    (tokens ++ [mkToken v (if is_keyword v then KEYWORD else IDENTIFIER)
                                        current_line])
                    (S token_count)
                else if isdigit c then
                  let '(v, r, has_decimal_point) := scan_number rest false in
                  tokenize_loop fuel' r current_line
                    (tokens ++ [mkToken v (if has_decimal_point then FLOAT_LITERAL
                                           else INT_LITERAL) current_line])
                    (S token_count)
                else if string_start c then
                  let quote_char := c in
                  let '(v, r, l) := scan_string quote_char rest' current_line in
                  let (closing, r) :=
                    match r with q :: r' => ([q], r') | [] => ([], []) end in
                  tokenize_loop fuel' r l
                    (tokens ++ [mkToken (c :: v ++ closing) STRING_LITERAL l])
                    (S token_count)
                else if is_operator_char c then
                  let (v, r) := scan_operator rest 0 in
                  tokenize_loop fuel' r current_line
                    (tokens ++ [mkToken v OPERATOR current_line]) (S token_count)
                else if is_delimiter_char c then
                  tokenize_loop fuel' rest' current_line
                    (tokens ++ [mkToken [c] DELIMITER current_line]) (S token_count)
                else
                  tokenize_loop fuel' rest' current_line tokens token_count
            end
          else Some tokens
      end
  end.

Definition tokenize (source_code : cstring) : option (list Token) :=
  tokenize_loop (S (strlen source_code)) source_code 1 [] 0.

End Tokenizer.

Definition tokenize_python : cstring -> option (list Token) := tokenize LANG_PYTHON.
Definition tokenize_typescript : cstring -> option (list Token) := tokenize LANG_TYPESCRIPT.

(** ** Section 6: error detection

    A detector receives the token array, its [count], and the error list
    built so far, and returns the extended error list.  [tokens[i]] is
    [token_at tokens i]; every read made by the code is below [count]. *)

Definition token_at (tokens : list Token) (i : nat) : Token :=
  nth i tokens (mkToken [] DELIMITER 0).

Definition is_type (t : Token) (ty : TokenType) : bool := TokenType_eqb (type t) ty.
Definition has_value (t : Token) (text : string) : bool := streq (value t) (str text).

(** *** Error 1: misspelled keywords *)

Definition misspelled_message (word keyword : cstring) : cstring :=
  snprintf (str "Misspelled keyword - '" ++ word ++ str "' (did you mean '"
            ++ keyword ++ str "'?)").

Section Misspelled.

Variable keywords : list cstring.

(** The inner [for (j ...)] over the keyword table, left at the first hit. *)
Fixpoint suggest_keyword (word : cstring) (table : list cstring) : option cstring :=
  match table with
  | [] => None
  | keyword :: table' =>
      let edit_distance := levenshtein_distance word keyword in
      if (0 <? edit_distance) && (edit_distance <=? 2) then Some keyword
      else suggest_keyword word table'
  end.

Definition misspelled_step (tokens : list Token) (i : nat) (errors : list Error)
    : list Error :=
  let t := token_at tokens i in
  if negb (is_type t IDENTIFIER) || (strlen (value t) <=? 2) then errors
  else
    match suggest_keyword (value t) keywords with
    | Some keyword =>
        errors ++ [mkError (misspelled_message (value t) keyword) (line t)
                           ERROR_TYPE_MISSPELLED_KEYWORD]
    | None => errors
    end.

Definition check_misspelled_keyword (tokens : list Token) (count : nat)
    (errors : list Error) : list Error :=
  for_range 0 count (misspelled_step tokens) errors.

End Misspelled.

Definition check_misspelled_keyword_python :=
  check_misspelled_keyword PYTHON_KEYWORDS.
Definition check_misspelled_keyword_typescript :=
  check_misspelled_keyword TYPESCRIPT_KEYWORDS.

(** *** Error 2: type mismatch *)

Definition mismatch (text : cstring) (t : Token) : Error :=
  mkError (snprintf text) (line t) ERROR_TYPE_TYPE_MISMATCH.

Definition type_mismatch_python_step (tokens : list Token) (i : nat)
    (errors : list Error) : list Error :=
  let t := token_at tokens in
  if negb (is_type (t i) IDENTIFIER) then errors
  else if negb (has_value (t (i + 1)) ":") then errors
  else if negb (is_type (t (i + 2)) KEYWORD) then errors
  else if negb (has_value (t (i + 3)) "=") then errors
  else
    let declared_type := t (i + 2) in
    let value_type := t (i + 4) in
    if has_value declared_type "int" && is_type value_type FLOAT_LITERAL then
      errors ++ [mismatch (str "Type mismatch - '" ++ value (t i)
                   ++ str "' declared as int but assigned float value "
                   ++ value (t (i + 4))) (t i)]
    else if (has_value declared_type "int" || has_value declared_type "float")
            && is_type value_type STRING_LITERAL then
      errors ++ [mismatch (str "Type mismatch - '" ++ value (t i)
                   ++ str "' declared as " ++ value declared_type
                   ++ str " but assigned string value") (t i)]
    else if has_value declared_type "str"
            && (is_type value_type INT_LITERAL || is_type value_type FLOAT_LITERAL) then
      errors ++ [mismatch (str "Type mismatch - '" ++ value (t i)
                   ++ str "' declared as str but assigned numeric value "
                   ++ value (t (i + 4))) (t i)]
    else errors.

Definition check_type_mismatch_python (tokens : list Token) (count : nat)
    (errors : list Error) : list Error :=
  for_range 0 (count - 4) (type_mismatch_python_step tokens) errors.

Definition is_declaration (t : Token) : bool :=
  has_value t "let" || has_value t "const" || has_value t "var".

Definition boolean_mismatch_message (name : cstring) : cstring :=
  str "Type mismatch - '" ++ name
  ++ str "' declared as boolean but assigned non-boolean value".

Definition type_mismatch_typescript_step (tokens : list Token) (i : nat)
    (errors : list Error) : list Error :=
  let t := token_at tokens in
  if negb (is_declaration (t i)) then errors
  else if negb (is_type (t (i + 1)) IDENTIFIER) then errors
  else if negb (has_value (t (i + 2)) ":") then errors
  else if negb (has_value (t (i + 4)) "=") then errors
  else
    let declared_type := t (i + 3) in
    let value_type := t (i + 5) in
    if has_value declared_type "number" && is_type value_type STRING_LITERAL then
      errors ++ [mismatch (str "Type mismatch - '" ++ value (t (i + 1))
                   ++ str "' declared as number but assigned string value") (t i)]
    else if has_value declared_type "string"
            && (is_type value_type INT_LITERAL || is_type value_type FLOAT_LITERAL) then
      errors ++ [mismatch (str "Type mismatch - '" ++ value (t (i + 1))
                   ++ str "' declared as string but assigned numeric value "
                   ++ value (t (i + 5))) (t i)]
    else if has_value declared_type "boolean"
            && negb (has_value (t (i + 5)) "true")
            && negb (has_value (t (i + 5)) "false") then
      errors ++ [mismatch (boolean_mismatch_message (value (t (i + 1)))) (t i)]
    else errors.

Definition check_type_mismatch_typescript (tokens : list Token) (count : nat)
    (errors : list Error) : list Error :=
  for_range 0 (count - 5) (type_mismatch_typescript_step tokens) errors.

(** *** Error 3: undeclared identifiers *)

(** [symbol_table[0 .. symbol_count)] as the list of the names stored. *)
Definition SymbolTable := list cstring.

(** [for (j = 0; j < symbol_count; j++) if (strcmp(symbol_table[j].name, name) == 0) ...] *)
Definition symbol_exists (symbol_table : SymbolTable) (name : cstring) : bool :=
  existsb (fun entry => streq entry name) symbol_table.

(** [if (!already_exists && symbol_count < MAX_SYMBOLS) strcpy(symbol_table[symbol_count++].name, name);] *)
Definition add_symbol (name : cstring) (symbol_table : SymbolTable) : SymbolTable :=
  let already_exists := symbol_exists symbol_table name in
  if negb already_exists && (length symbol_table <? MAX_SYMBOLS)
  then symbol_table ++ [name]
  else symbol_table.

Definition undeclared_message (name : cstring) : cstring :=
  snprintf (str "Undeclared identifier - '" ++ name ++ str "' used but never declared").

Definition undeclared (t : Token) : Error :=
  mkError (undeclared_message (value t)) (line t) ERROR_TYPE_UNDECLARED_IDENTIFIER.

Definition python_declare_step (tokens : list Token) (count : nat) (i : nat)
    (symbol_table : SymbolTable) : SymbolTable :=
  let t := token_at tokens in
  let symbol_table :=
    if is_type (t i) IDENTIFIER && has_value (t (i + 1)) "="
       && negb (has_value (t (i + 1)) "==")
    then add_symbol (value (t i)) symbol_table
    else symbol_table in
  if has_value (t i) "def" || has_value (t i) "for" then
    for_while (i + 1) (count - (i + 1))
      (fun j => negb (has_value (t j) ":"))
      (fun j table =>
         if is_type (t j) IDENTIFIER then add_symbol (value (t j)) table else table)
      symbol_table
  else symbol_table.

Definition python_symbols (tokens : list Token) (count : nat) : SymbolTable :=
  for_range 0 (count - 1) (python_declare_step tokens count) [].

Definition is_python_builtin (t : Token) : bool :=
  has_value t "print" || has_value t "len" || has_value t "range"
  || has_value t "input" || has_value t "open" || has_value t "type".

Definition python_usage_step (tokens : list Token) (count : nat)
    (symbol_table : SymbolTable) (i : nat) (errors : list Error) : list Error :=
  let t := token_at tokens in
  if negb (is_type (t i) IDENTIFIER) || is_python_keyword (value (t i)) then errors
  else if (i + 1 <? count) && has_value (t (i + 1)) "=" then errors
  else if is_python_builtin (t i) then errors
  else
    let is_declared := symbol_exists symbol_table (value (t i)) in
    if negb is_declared then errors ++ [undeclared (t i)] else errors.

Definition check_undeclared_identifier_python (tokens : list Token) (count : nat)
    (errors : list Error) : list Error :=
  let symbol_table := python_symbols tokens count in
  for_range 0 count (python_usage_step tokens count symbol_table) errors.

Definition typescript_declare_step (tokens : list Token) (count : nat) (i : nat)
    (symbol_table : SymbolTable) : SymbolTable :=
  let t := token_at tokens in
  let symbol_table :=
    if is_declaration (t i) && is_type (t (i + 1)) IDENTIFIER
    then add_symbol (value (t (i + 1))) symbol_table
    else symbol_table in
  if has_value (t i) "function" then
    for_while (i + 1) (count - (i + 1))
      (fun j => negb (has_value (t j) ")"))
      (fun j table =>
         if is_type (t j) IDENTIFIER
            && ((j =? i + 1) || has_value (t (j - 1)) "(" || has_value (t (j - 1)) ",")
         then add_symbol (value (t j)) table else table)
      symbol_table
  else symbol_table.

Definition typescript_symbols (tokens : list Token) (count : nat) : SymbolTable :=
  for_range 0 (count - 1) (typescript_declare_step tokens count) [].

Definition is_typescript_global (t : Token) : bool :=
  has_value t "console" || has_value t "log" || has_value t "document"
  || has_value t "window" || has_value t "Math" || has_value t "Array".

Definition typescript_usage_step (tokens : list Token)
    (symbol_table : SymbolTable) (i : nat) (errors : list Error) : list Error :=
  let t := token_at tokens in
  if negb (is_type (t i) IDENTIFIER) || is_typescript_keyword (value (t i)) then errors
  else if (0 <? i)
          && (is_declaration (t (i - 1)) || has_value (t (i - 1)) "function") then errors
  else if is_typescript_global (t i) then errors
  else
    let is_declared := symbol_exists symbol_table (value (t i)) in
    if negb is_declared then errors ++ [undeclared (t i)] else errors.

Definition check_undeclared_identifier_typescript (tokens : list Token) (count : nat)
    (errors : list Error) : list Error :=
  let symbol_table := typescript_symbols tokens count in
  for_range 0 count (typescript_usage_step tokens symbol_table) errors.

(** *** Error 4: invalid operators *)

Definition invalid_operator (text : string) (t : Token) : Error :=
  mkError (snprintf (str text)) (line t) ERROR_TYPE_INVALID_OPERATOR.

Definition invalid_operator_python_step (tokens : list Token) (i : nat)
    (errors : list Error) : list Error :=
  let t := token_at tokens i in
  if negb (is_type t OPERATOR) then errors
  else if has_value t "===" then
    errors ++ [invalid_operator
      "Invalid operator - '===' is not valid in Python, use '==' instead" t]
  else if has_value t "!==" then
    errors ++ [invalid_operator
      "Invalid operator - '!==' is not valid in Python, use '!=' instead" t]
  else if has_value t "=<" then
    errors ++ [invalid_operator "Invalid operator - '=<' should be '<='" t]
  else if has_value t "=>" then
    errors ++ [invalid_operator
      "Invalid operator - '=>' is not valid in Python, use '>=' for comparison" t]
  else errors.

Definition check_invalid_operator_python (tokens : list Token) (count : nat)
    (errors : list Error) : list Error :=
  for_range 0 count (invalid_operator_python_step tokens) errors.

Definition invalid_operator_typescript_step (tokens : list Token) (i : nat)
    (errors : list Error) : list Error :=
  let t := token_at tokens i in
  if negb (is_type t OPERATOR) then errors
  else if has_value t "=<" then
    errors ++ [invalid_operator "Invalid operator - '=<' should be '<='" t]
  else errors.

Definition check_invalid_operator_typescript (tokens : list Token) (count : nat)
    (errors : list Error) : list Error :=
  for_range 0 count (invalid_operator_typescript_step tokens) errors.

(** ** Section 8: the analysis performed by [main]

    Comment extraction, tokenization of the comment-free text, then the four
    detectors in their fixed order, all appending to one error list. *)

Definition detect_errors (lang : Language) (tokens : list Token) : list Error :=
  let total_tokens := length tokens in
  match lang with
  | LANG_PYTHON =>
      let errors := check_misspelled_keyword_python tokens total_tokens [] in
      let errors := check_type_mismatch_python tokens total_tokens errors in
      let errors := check_undeclared_identifier_python tokens total_tokens errors in
      check_invalid_operator_python tokens total_tokens errors
  | LANG_TYPESCRIPT =>
      let errors := check_misspelled_keyword_typescript tokens total_tokens [] in
      let errors := check_type_mismatch_typescript tokens total_tokens errors in
      let errors := check_undeclared_identifier_typescript tokens total_tokens errors in
      check_invalid_operator_typescript tokens total_tokens errors
  end.

Record Analysis := mkAnalysis {
  token_array : list Token;
  comment_array : list Comment;
  error_array : list Error }.

Definition main_analysis (lang : Language) (source_code : cstring) : option Analysis :=
  match extract_comments lang source_code with
  | None => None
  | Some (comments, code_without_comments) =>
      match tokenize lang code_without_comments with
      | None => None
      | Some tokens => Some (mkAnalysis tokens comments (detect_errors lang tokens))
      end
  end.

(** [strrchr(s, c)] for a character [c] other than NUL: the offset of the
    last occurrence of [c] in [s], [None] for a NULL result. *)
Fixpoint strrchr (s : cstring) (c : ascii) : option nat :=
  match s with
  | [] => None
  | x :: s' =>
      match strrchr s' c with
      | Some offset => Some (S offset)
      | None => if Ascii.eqb x c then Some 0 else None
      end
  end.

(** [validate_and_detect_language]: the return value 0 is [None], the
    return value 1 with [*lang] set is [Some lang]; the messages printed on
    rejection are left out.  [ext == filename] is offset 0. *)
Definition validate_and_detect_language (filename : cstring) : option Language :=
  match strrchr filename "." with
  | None => None
  | Some 0 => None
  | Some offset =>
      let ext := skipn offset filename in
      if streq ext (str ".py") then Some LANG_PYTHON
      else if streq ext (str ".ts") || streq ext (str ".js") then Some LANG_TYPESCRIPT
      else None
  end.

(** * Specification vocabulary

    Predicates and reference functions used to state the properties below. *)

(** What the three phases of [levenshtein_distance] leave in the matrix. *)
Definition lev_table (a b : cstring) (M : Matrix) : Prop :=
  (forall i, i <= strlen a -> M i 0 = i) /\
  (forall j, j <= strlen b -> M 0 j = j) /\
  (forall i j, 1 <= i <= strlen a -> 1 <= j <= strlen b ->
     M i j = min_of_three (M (i - 1) j + 1) (M i (j - 1) + 1)
                          (M (i - 1) (j - 1) + subst_cost a b i j)).

(** The inner and the outer loop of the fill phase, named. *)
Definition fill_row (a b : cstring) (i n : nat) (m : Matrix) : Matrix :=
  for_range 1 n (fun j m => lev_cell a b i j m) m.

Definition fill_rows (a b : cstring) (n1 n2 : nat) (m : Matrix) : Matrix :=
  for_range 1 n1 (fun i m => fill_row a b i n2 m) m.

(** The keyword table of a language. *)
Definition keywords_of (lang : Language) : list cstring :=
  match lang with
  | LANG_PYTHON => PYTHON_KEYWORDS
  | LANG_TYPESCRIPT => TYPESCRIPT_KEYWORDS
  end.

(** The edit distance in the words of the specification, independent of the
    matrix of [levenshtein_distance].  An edit script turns [a] into [b],
    reading both from the left: a character is kept when the two agree up to
    case (no cost), or it is substituted, deleted or inserted (cost 1
    each). *)
Inductive edit_script : cstring -> cstring -> nat -> Prop :=
  | edit_done : edit_script [] [] 0
  | edit_keep (c d : ascii) (a b : cstring) (n : nat) :
      tolower c = tolower d -> edit_script a b n ->
      edit_script (c :: a) (d :: b) n
  | edit_substitute (c d : ascii) (a b : cstring) (n : nat) :
      edit_script a b n -> edit_script (c :: a) (d :: b) (S n)
  | edit_delete (c : ascii) (a b : cstring) (n : nat) :
      edit_script a b n -> edit_script (c :: a) b (S n)
  | edit_insert (d : ascii) (a b : cstring) (n : nat) :
      edit_script a b n -> edit_script a (d :: b) (S n).

(** [d] is the case-insensitive Levenshtein distance of [a] and [b]: the
    cost of some edit script, and no edit script is cheaper. *)
Definition edit_distance (a b : cstring) (d : nat) : Prop :=
  edit_script a b d /\ forall n, edit_script a b n -> d <= n.

(** The cost of aligning two characters. *)
Definition char_cost (c d : ascii) : nat :=
  if Ascii.eqb (tolower c) (tolower d) then 0 else 1.

(** A keyword whose case-insensitive Levenshtein distance [d] from [word]
    satisfies [0 < d <= 2]. *)
Definition near_miss (word keyword : cstring) : Prop :=
  exists d, edit_distance word keyword d /\ 0 < d <= 2.

(** [keyword] sits at index [j] of the table, is a near miss of [word], and
    no entry before it is. *)
Definition first_near_miss (keywords : list cstring) (word : cstring)
    (j : nat) (keyword : cstring) : Prop :=
  nth_error keywords j = Some keyword /\
  near_miss word keyword /\
  forall j' keyword', j' < j -> nth_error keywords j' = Some keyword' ->
    ~ near_miss word keyword'.

(** What the misspelling detector owes for one token, in the words of the
    specification. *)
Inductive misspelled_emission (keywords : list cstring) (t : Token)
    : list Error -> Prop :=
  | emit_suggestion (j : nat) (keyword : cstring) :
      type t = IDENTIFIER -> 2 < strlen (value t) ->
      first_near_miss keywords (value t) j keyword ->
      misspelled_emission keywords t
        [mkError (misspelled_message (value t) keyword) (line t)
                 ERROR_TYPE_MISSPELLED_KEYWORD]
  | emit_no_candidate :
      type t = IDENTIFIER -> 2 < strlen (value t) ->
      (forall keyword, In keyword keywords -> ~ near_miss (value t) keyword) ->
      misspelled_emission keywords t []
  | emit_not_checked :
      type t <> IDENTIFIER \/ strlen (value t) <= 2 ->
      misspelled_emission keywords t [].

(** The three literal kinds of the tokenizer. *)
Definition is_literal (t : Token) : bool :=
  is_type t INT_LITERAL || is_type t FLOAT_LITERAL || is_type t STRING_LITERAL.

(** The window of six tokens starting at [i] is a declaration of a
    [boolean]: [("let"|"const"|"var") IDENTIFIER ":" "boolean" "=" value]. *)
Definition boolean_window (tokens : list Token) (i : nat) : Prop :=
  i + 5 < length tokens /\
  is_declaration (token_at tokens i) = true /\
  type (token_at tokens (i + 1)) = IDENTIFIER /\
  value (token_at tokens (i + 2)) = str ":" /\
  value (token_at tokens (i + 3)) = str "boolean" /\
  value (token_at tokens (i + 4)) = str "=".

(** The text of a token is one of the two boolean words. *)
Definition boolean_word (t : Token) : Prop :=
  value t = str "true" \/ value t = str "false".

(** The errors appended by the windows [lo .. lo + n - 1] of the TypeScript
    type-mismatch scan. *)
Definition typescript_windows (tokens : list Token) (lo n : nat) : list Error :=
  for_range lo n (type_mismatch_typescript_step tokens) [].

(** The token stream of [let x: boolean = y]. *)
Definition let_x_boolean_y : list Token :=
  [ mkToken (str "let") KEYWORD 1; mkToken (str "x") IDENTIFIER 1;
    mkToken (str ":") DELIMITER 1; mkToken (str "boolean") KEYWORD 1;
    mkToken (str "=") OPERATOR 1; mkToken (str "y") IDENTIFIER 1 ].

(** Putting the comments back: [cuts] lists, for each comment in order, the
    number of code characters between the previous comment and this one,
    and the text of the comment.  Whatever the gaps are, the result uses
    every character of [clean] and of every text exactly once and in
    order. *)
Fixpoint reassemble (clean : cstring) (cuts : list (nat * cstring)) : cstring :=
  match cuts with
  | [] => clean
  | (gap, text) :: cuts' =>
      firstn gap clean ++ text ++ reassemble (skipn gap clean) cuts'
  end.

(** One more code character in front of the first comment. *)
Definition push_gap (gaps : list nat) : list nat :=
  match gaps with
  | [] => []
  | gap :: gaps' => S gap :: gaps'
  end.

(** The number of line breaks in a text. *)
Fixpoint newlines (s : cstring) : nat :=
  match s with
  | [] => 0
  | c :: s' => (if Ascii.eqb c newline then 1 else 0) + newlines s'
  end.

(** No position of [s] starts three consecutive [q]. *)
Fixpoint never_three (q : ascii) (s : cstring) : bool :=
  match s with
  | [] => true
  | _ :: s' => negb (three_of q s) && never_three q s'
  end.

(** Plain Python code as the extractor sees it: no [#] and no triple quote. *)
Definition plain_code (s : cstring) : Prop :=
  ~ In "#"%char s /\ never_three squote s = true /\ never_three dquote s = true.

(** The inputs of the scenarios. *)
Definition scenario_E : cstring :=
  str "x = 1" ++ [newline] ++ str "y = 2" ++ [newline] ++ str "print(x + y)".

Definition scenario_F : cstring :=
  str "'''" ++ [newline] ++ str "line two" ++ [newline] ++ str "'''"
  ++ [newline] ++ str "z = 1".

(** [x = "a#b"] *)
Definition hash_in_string : cstring :=
  str "x = " ++ [dquote] ++ str "a#b" ++ [dquote].

(** The state the tokenizer keeps: every token produced so far has some
    text and a line number from 1 up to the running line counter, and the
    line numbers do not decrease along the array. *)
Definition tokens_up_to (current_line : nat) (tokens : list Token) : Prop :=
  Forall (fun t => value t <> [] /\ 1 <= line t <= current_line) tokens /\
  StronglySorted le (map line tokens).

(** ** Inputs that fill the symbol table *)

(** The identifier [v<k>], [k] in decimal. *)
Definition numbered (k : nat) : cstring :=
  str "v" ++ str (NilEmpty.string_of_uint (Nat.to_uint k)).

(** The Python text [def v1 v2 ... v501:] followed, on the next line, by a
    use of [v501]: 504 tokens. *)
Definition python_many_names : cstring :=
  str "def" ++ flat_map (fun k => " "%char :: numbered k) (seq 1 501)
  ++ str ":" ++ [newline] ++ numbered 501.

(** The token array of [let v1 let v2 ... let v501 ; v501], all on line 1:
    1004 tokens, more than [tokenize_typescript] ever returns. *)
Definition typescript_many_names : list Token :=
  flat_map (fun k => [mkToken (str "let") KEYWORD 1; mkToken (numbered k) IDENTIFIER 1])
           (seq 1 501)
  ++ [mkToken (str ";") DELIMITER 1; mkToken (numbered 501) IDENTIFIER 1].

(** Position [j] of a Python token array is one where pass 1 records a
    declaration: an IDENTIFIER followed by [=], or an IDENTIFIER between a
    [def] or [for] and the next [:]. *)
Definition python_declared_at (tokens : list Token) (j : nat) : Prop :=
  type (token_at tokens j) = IDENTIFIER /\
  ((j + 1 < length tokens /\ value (token_at tokens (j + 1)) = str "=") \/
   exists i, i < j < length tokens /\
     (value (token_at tokens i) = str "def" \/ value (token_at tokens i) = str "for") /\
     forall k, i < k <= j -> value (token_at tokens k) <> str ":").

(** Position [j] of a TypeScript token array is an IDENTIFIER right after
    [let], [const] or [var]. *)
Definition typescript_declared_at (tokens : list Token) (j : nat) : Prop :=
  type (token_at tokens j) = IDENTIFIER /\
  0 < j < length tokens /\ is_declaration (token_at tokens (j - 1)) = true.

(** The tokens of [python_many_names]: [def], [v1] ... [v501], [:] on line 1
    and [v501] on line 2. *)
Definition python_many_names_tokens : list Token :=
  mkToken (str "def") KEYWORD 1
  :: map (fun k => mkToken (numbered k) IDENTIFIER 1) (seq 1 501)
  ++ [mkToken (str ":") DELIMITER 1; mkToken (numbered 501) IDENTIFIER 2].

(** ** Vocabulary of the further properties *)

(** A character the tokenizer passes over without making a token of it:
    white space, or a character that starts no token. *)
Definition skippable (lang : Language) (c : ascii) : bool :=
  isspace c
  || negb (ident_start lang c || isdigit c || string_start lang c
           || is_operator_char c || is_delimiter_char c).

(** The text made of each gap followed by the token value after it. *)
Fixpoint weave (gaps values : list cstring) : cstring :=
  match gaps, values with
  | gap :: gaps', v :: values' => gap ++ v ++ weave gaps' values'
  | _, _ => []
  end.

(** One more passed-over stretch in front of the first token. *)
Definition widen_gap (skipped : cstring) (gaps : list cstring) : list cstring :=
  match gaps with
  | [] => []
  | gap :: gaps' => (skipped ++ gap) :: gaps'
  end.

(** The value of a token fits the kind it is given. *)
Definition kind_fits (lang : Language) (t : Token) : bool :=
  let v := value t in
  match type t with
  | KEYWORD => is_keyword lang v && forallb (ident_char lang) v
  | IDENTIFIER =>
      negb (is_keyword lang v) && forallb (ident_char lang) v
      && match v with c :: _ => ident_start lang c | [] => false end
  | INT_LITERAL =>
      forallb isdigit v && match v with [] => false | _ :: _ => true end
  | FLOAT_LITERAL =>
      forallb (fun c => isdigit c || Ascii.eqb c ".") v
      && existsb (fun c => Ascii.eqb c ".") v
      && match v with c :: _ => isdigit c | [] => false end
  | STRING_LITERAL => match v with q :: _ => string_start lang q | [] => false end
  | OPERATOR =>
      forallb is_operator_char v && (length v <=? 3)
      && match v with [] => false | _ :: _ => true end
  | DELIMITER => match v with [c] => is_delimiter_char c | _ => false end
  end.

(** The line fields of a comment found while the line counter runs from
    [lo] to [hi]: it starts at or after [lo], ends [newlines content] lines
    further and not after [hi], is on one line when it is a single-line
    comment, and has some text. *)
Definition comment_within (lo hi : nat) (c : Comment) : Prop :=
  lo <= start_line c /\
  end_line c = start_line c + newlines (content c) /\
  end_line c <= hi /\
  (is_multiline c = false -> end_line c = start_line c) /\
  content c <> [].

(** The line breaks held by the comments. *)
Definition comment_newlines (comments : list Comment) : nat :=
  list_sum (map (fun c => newlines (content c)) comments).

(** [name] is the text of an IDENTIFIER among the first [count] tokens. *)
Definition names_identifier (tokens : list Token) (count : nat) (name : cstring) : Prop :=
  exists j, j < count /\ type (token_at tokens j) = IDENTIFIER
            /\ value (token_at tokens j) = name.

(** The second table holds every name of the first and is not shorter. *)
Definition grows (before after : SymbolTable) : Prop :=
  (forall name, In name before -> In name after) /\ length before <= length after.

(** What pass 2 of the undeclared-identifier detectors reports for the
    token at position [j]. *)
Definition python_findings_at (tokens : list Token) (j : nat) : list Error :=
  python_usage_step tokens (length tokens)
    (python_symbols tokens (length tokens)) j [].

Definition typescript_findings_at (tokens : list Token) (j : nat) : list Error :=
  typescript_usage_step tokens
    (typescript_symbols tokens (length tokens)) j [].

(** The token stream of [x + 1] followed by [x = 2]: [x] is used before it
    is assigned. *)
Definition use_before_assignment : list Token :=
  [ mkToken (str "x") IDENTIFIER 1; mkToken (str "+") OPERATOR 1;
    mkToken (str "1") INT_LITERAL 1; mkToken (str "x") IDENTIFIER 2;
    mkToken (str "=") OPERATOR 2; mkToken (str "2") INT_LITERAL 2 ].

(** The token stream of [y ; let y]. *)
Definition use_before_let : list Token :=
  [ mkToken (str "y") IDENTIFIER 1; mkToken (str ";") DELIMITER 1;
    mkToken (str "let") KEYWORD 1; mkToken (str "y") IDENTIFIER 1 ].

(** The tokens after which the TypeScript pass 1 records an identifier:
    [let], [const], [var], [function], an opening parenthesis or a comma. *)
Definition is_marker (t : Token) : bool :=
  is_declaration t || has_value t "function" || has_value t "(" || has_value t ",".

(** Position [j] holds an IDENTIFIER and position [j - 1] a marker. *)
Definition declaring_position (tokens : list Token) (j : nat) : bool :=
  is_type (token_at tokens j) IDENTIFIER && is_marker (token_at tokens (j - 1)).

(** The names at the declaring positions among the first [count] tokens. *)
Definition declared_names (tokens : list Token) (count : nat) : list cstring :=
  map (fun j => value (token_at tokens j))
      (filter (declaring_position tokens) (seq 1 (count - 1))).

(** No position of [s] starts a star followed by a slash. *)
Fixpoint never_star_slash (s : cstring) : bool :=
  match s with
  | [] => true
  | _ :: s' => negb (two_of "*" "/" s) && never_star_slash s'
  end.

(** What the Python type-mismatch scan reports for the window at [i]. *)
Definition python_mismatch_at (tokens : list Token) (i : nat) : list Error :=
  type_mismatch_python_step tokens i [].

(** [n] lines, each made of [marker] alone. *)
Fixpoint comment_lines (marker : cstring) (n : nat) : cstring :=
  match n with
  | 0 => []
  | S n' => marker ++ newline :: comment_lines marker n'
  end.

(** The token stream of [x: float = 1]. *)
Definition float_from_int : list Token :=
  [ mkToken (str "x") IDENTIFIER 1; mkToken (str ":") DELIMITER 1;
    mkToken (str "float") KEYWORD 1; mkToken (str "=") OPERATOR 1;
    mkToken (str "1") INT_LITERAL 1 ].

(** ** Storage limits

    [Token.value] and [Symbol.name] are [char[256]] and [Comment.content] is
    [char[MAX_LENGTH]], each written up to and including the terminating
    NUL; [main] allocates [MAX_COMMENTS] comments and [MAX_ERRORS] errors.
    A symbol name is copied from a token value, so it fits when the value
    does. *)
Definition TOKEN_VALUE_SIZE : nat := 256.

Definition value_fits (t : Token) : Prop :=
  strlen (value t) < TOKEN_VALUE_SIZE.

Definition content_fits (c : Comment) : Prop :=
  strlen (content c) < MAX_LENGTH.

Definition analysis_fits (a : Analysis) : Prop :=
  Forall value_fits (token_array a) /\
  Forall content_fits (comment_array a) /\
  length (comment_array a) <= MAX_COMMENTS /\
  length (error_array a) <= MAX_ERRORS.

(** ** The turns of the Python extractor

    The state of the outer loop of [extract_comments_python]: the unread
    text, the comments found, the clean buffer and the line counter. *)
Record PythonScan : Type := mkPythonScan
  { unread : cstring;
    found : list Comment;
    kept : cstring;
    at_line : nat }.

(** One turn of the outer loop (the body of [extract_python_loop]) on a text
    that is not exhausted. *)
Definition python_scan_turn (st : PythonScan) : option PythonScan :=
  match unread st with
  | [] => None
  | c :: rest' =>
      if Ascii.eqb c "#" then
        let (copied, r) := copy_line (unread st) in
        Some (mkPythonScan r
                (found st ++ [mkComment copied (at_line st) (at_line st) false])
                (kept st) (at_line st))
      else if three_of squote (unread st) || three_of dquote (unread st) then
        let '(copied, r, l) :=
          copy_until_quotes c (skipn 3 (unread st)) (at_line st) in
        Some (mkPythonScan r
                (found st ++ [mkComment (firstn 3 (unread st) ++ copied)
                                (at_line st) l true])
                (kept st) l)
      else
        Some (mkPythonScan rest' (found st) (kept st ++ [c])
                (if Ascii.eqb c newline then S (at_line st) else at_line st))
  end.

Fixpoint python_scan_turns (n : nat) (st : PythonScan) : option PythonScan :=
  match n with
  | 0 => Some st
  | S n' =>
      match python_scan_turn st with
      | Some st' => python_scan_turns n' st'
      | None => None
      end
  end.

(** The states in which the outer loop stands at the head of a turn when it
    scans [source_code]. *)
Inductive python_scan_reaches (source_code : cstring) : PythonScan -> Prop :=
  | scan_start : python_scan_reaches source_code (mkPythonScan source_code [] [] 1)
  | scan_turn (st st' : PythonScan) :
      python_scan_reaches source_code st ->
      python_scan_turn st = Some st' ->
      python_scan_reaches source_code st'.

(** Two texts with a second [#]: after a first one on the same line, and
    inside a triple-quoted comment. *)
Definition hash_after_hash : cstring := str "# a # b".

Definition hash_in_triple_quotes : cstring :=
  str "x = " ++ [squote; squote; squote] ++ str "a#b" ++ [squote; squote; squote].

(** The occurrences of a character. *)
Definition count_char (c : ascii) (s : cstring) : nat :=
  length (filter (Ascii.eqb c) s).

(** A text with a comment after its first line. *)
Definition comment_on_second_line : cstring :=
  str "# a" ++ [newline] ++ str "y = " ++ [dquote] ++ str "c#d" ++ [dquote].

(** ** The symbol table without its cap

    [add_symbol] with the test [symbol_count < MAX_SYMBOLS] removed, and
    pass 1 of the TypeScript detector over an [add] of choice. *)
Definition add_symbol_uncapped (name : cstring) (symbol_table : SymbolTable)
    : SymbolTable :=
  if symbol_exists symbol_table name then symbol_table
  else symbol_table ++ [name].

Definition typescript_declare_step_with
    (add : cstring -> SymbolTable -> SymbolTable)
    (tokens : list Token) (count : nat) (i : nat)
    (symbol_table : SymbolTable) : SymbolTable :=
  let t := token_at tokens in
  let symbol_table :=
    if is_declaration (t i) && is_type (t (i + 1)) IDENTIFIER
    then add (value (t (i + 1))) symbol_table
    else symbol_table in
  if has_value (t i) "function" then
    for_while (i + 1) (count - (i + 1))
      (fun j => negb (has_value (t j) ")"))
      (fun j table =>
         if is_type (t j) IDENTIFIER
            && ((j =? i + 1) || has_value (t (j - 1)) "(" || has_value (t (j - 1)) ",")
         then add (value (t j)) table else table)
      symbol_table
  else symbol_table.

Definition typescript_symbols_with (add : cstring -> SymbolTable -> SymbolTable)
    (tokens : list Token) (count : nat) : SymbolTable :=
  for_range 0 (count - 1) (typescript_declare_step_with add tokens count) [].

(** * Properties *)

(** ** Loops and strings *)

Lemma for_range_succ (St : Type) (lo n : nat) (body : nat -> St -> St) (st : St) :
  for_range lo (S n) body st = body (lo + n) (for_range lo n body st).
Proof.
  unfold for_range. rewrite seq_S, fold_left_app. reflexivity.
Qed.

Lemma for_range_zero (St : Type) (lo : nat) (body : nat -> St -> St) (st : St) :
  for_range lo 0 body st = st.
Proof. reflexivity. Qed.

Lemma streq_refl (a : cstring) : streq a a = true.
Proof.
  induction a as [|x a IH]; simpl; [reflexivity|].
  rewrite Ascii.eqb_refl, IH. reflexivity.
Qed.

Lemma streq_eq (a b : cstring) : streq a b = true <-> a = b.
Proof.
  split; [|intros ->; apply streq_refl].
  revert b. induction a as [|x a IH]; intros [|y b]; simpl; try discriminate; auto.
  intros H. apply andb_true_iff in H. destruct H as [Hx Hab].
  apply Ascii.eqb_eq in Hx. f_equal; auto.
Qed.

(** ** The Levenshtein table *)

Lemma min_of_three_min (a b c : nat) :
  min_of_three a b c = Nat.min a (Nat.min b c).
Proof.
  unfold min_of_three.
  destruct (b <? a) eqn:Hba.
  - apply Nat.ltb_lt in Hba. destruct (c <? b) eqn:Hcb.
    + apply Nat.ltb_lt in Hcb. lia.
    + apply Nat.ltb_ge in Hcb. lia.
  - apply Nat.ltb_ge in Hba. destruct (c <? a) eqn:Hca.
    + apply Nat.ltb_lt in Hca. lia.
    + apply Nat.ltb_ge in Hca. lia.
Qed.

Lemma min_of_three_swap (a b c : nat) : min_of_three a b c = min_of_three b a c.
Proof. rewrite !min_of_three_min. lia. Qed.

Lemma min_of_three_zero (a b : nat) : min_of_three a b 0 = 0.
Proof. rewrite min_of_three_min. lia. Qed.

Lemma mset_hit (m : Matrix) (i j v : nat) : mset m i j v i j = v.
Proof. unfold mset. rewrite !Nat.eqb_refl. reflexivity. Qed.

Lemma mset_miss (m : Matrix) (i j v i' j' : nat) :
  i' <> i \/ j' <> j -> mset m i j v i' j' = m i' j'.
Proof.
  intros H. unfold mset.
  destruct (Nat.eqb_spec i' i), (Nat.eqb_spec j' j); simpl; try reflexivity.
  lia.
Qed.

Lemma subst_cost_swap (a b : cstring) (i j : nat) :
  subst_cost a b i j = subst_cost b a j i.
Proof. unfold subst_cost. rewrite Ascii.eqb_sym. reflexivity. Qed.

Lemma subst_cost_diag (a : cstring) (i : nat) : subst_cost a a i i = 0.
Proof. unfold subst_cost. rewrite Ascii.eqb_refl. reflexivity. Qed.

Lemma first_column_loop (n : nat) (m : Matrix) :
  let M := for_range 0 n (fun i m => mset m i 0 i) m in
  (forall i, i < n -> M i 0 = i) /\
  (forall i j, j <> 0 \/ n <= i -> M i j = m i j).
Proof.
  induction n as [|n [IHset IHkeep]]; cbn zeta.
  - split; [lia | reflexivity].
  - rewrite for_range_succ. cbn [Nat.add]. split.
    + intros i Hi. destruct (Nat.eq_dec i n) as [->|Hne].
      * apply mset_hit.
      * rewrite mset_miss by lia. apply IHset. lia.
    + intros i j Hij. rewrite mset_miss by lia. apply IHkeep. lia.
Qed.

Lemma first_row_loop (n : nat) (m : Matrix) :
  let M := for_range 0 n (fun j m => mset m 0 j j) m in
  (forall j, j < n -> M 0 j = j) /\
  (forall i j, i <> 0 \/ n <= j -> M i j = m i j).
Proof.
  induction n as [|n [IHset IHkeep]]; cbn zeta.
  - split; [lia | reflexivity].
  - rewrite for_range_succ. cbn [Nat.add]. split.
    + intros j Hj. destruct (Nat.eq_dec j n) as [->|Hne].
      * apply mset_hit.
      * rewrite mset_miss by lia. apply IHset. lia.
    + intros i j Hij. rewrite mset_miss by lia. apply IHkeep. lia.
Qed.

Section Fill.

Variables a b : cstring.

Lemma fill_row_spec (i n : nat) (m : Matrix) :
  1 <= i ->
  (forall i' j', i' <> i \/ j' = 0 \/ n < j' -> fill_row a b i n m i' j' = m i' j') /\
  (forall j, 1 <= j <= n ->
     fill_row a b i n m i j =
       min_of_three (m (i - 1) j + 1) (fill_row a b i n m i (j - 1) + 1)
                    (m (i - 1) (j - 1) + subst_cost a b i j)).
Proof.
  intros Hi. unfold fill_row.
  induction n as [|n [IHkeep IHrec]].
  - split; [reflexivity | lia].
  - rewrite for_range_succ. cbn [Nat.add].
    set (M := for_range 1 n (fun j m => lev_cell a b i j m) m) in *.
    split.
    + intros i' j' H. unfold lev_cell. rewrite mset_miss by lia. apply IHkeep. lia.
    + intros j Hj. unfold lev_cell.
      destruct (Nat.eq_dec j (S n)) as [->|Hne].
      * rewrite mset_hit. rewrite mset_miss by lia.
        rewrite !(IHkeep (i - 1)) by lia. reflexivity.
      * rewrite !mset_miss by lia. apply IHrec. lia.
Qed.

Lemma fill_rows_spec (n1 n2 : nat) (m : Matrix) :
  (forall i j, i = 0 \/ j = 0 \/ n1 < i \/ n2 < j -> fill_rows a b n1 n2 m i j = m i j) /\
  (forall i j, 1 <= i <= n1 -> 1 <= j <= n2 ->
     fill_rows a b n1 n2 m i j =
       min_of_three (fill_rows a b n1 n2 m (i - 1) j + 1)
                    (fill_rows a b n1 n2 m i (j - 1) + 1)
                    (fill_rows a b n1 n2 m (i - 1) (j - 1) + subst_cost a b i j)).
Proof.
  unfold fill_rows.
  induction n1 as [|n1 [IHkeep IHrec]].
  - split; [reflexivity | lia].
  - rewrite for_range_succ. cbn [Nat.add].
    set (M := for_range 1 n1 (fun i m => fill_row a b i n2 m) m) in *.
    destruct (fill_row_spec (S n1) n2 M) as [Rkeep Rrec]; [lia|].
    split.
    + intros i j H. destruct (Nat.eq_dec i (S n1)) as [->|Hne].
      * rewrite Rkeep by lia. apply IHkeep. lia.
      * rewrite Rkeep by lia. apply IHkeep. lia.
    + intros i j Hi Hj. destruct (Nat.eq_dec i (S n1)) as [->|Hne].
      * rewrite Rrec by lia. rewrite !(Rkeep (S n1 - 1)) by lia. reflexivity.
      * rewrite !Rkeep by lia. apply IHrec; lia.
Qed.

Lemma lev_fill_table (stack : Matrix) : lev_table a b (lev_fill a b stack).
Proof.
  unfold lev_fill.
  set (m1 := for_range 0 (strlen a + 1) (fun i m => mset m i 0 i) stack).
  set (m2 := for_range 0 (strlen b + 1) (fun j m => mset m 0 j j) m1).
  destruct (first_column_loop (strlen a + 1) stack) as [C1 _]. fold m1 in C1.
  destruct (first_row_loop (strlen b + 1) m1) as [R1 R2]. fold m2 in R1, R2.
  destruct (fill_rows_spec (strlen a) (strlen b) m2) as [Fkeep Frec].
  unfold fill_rows, fill_row in Fkeep, Frec.
  repeat split.
  - intros i Hi. rewrite Fkeep by lia.
    destruct (Nat.eq_dec i 0) as [->|Hne].
    + apply R1. lia.
    + rewrite R2 by lia. apply C1. lia.
  - intros j Hj. rewrite Fkeep by lia. apply R1. lia.
  - intros i j Hi Hj. apply Frec; assumption.
Qed.

End Fill.

(** The table is determined by the two strings, and transposing the strings
    transposes it. *)
Lemma lev_table_transpose (a b : cstring) (M M' : Matrix) :
  lev_table a b M -> lev_table b a M' ->
  forall i j, i <= strlen a -> j <= strlen b -> M i j = M' j i.
Proof.
  intros (Hc & Hr & Hrec) (Hc' & Hr' & Hrec').
  induction i as [|i IHi]; intros j Hi Hj.
  - rewrite Hr, Hc' by assumption. reflexivity.
  - induction j as [|j IHj].
    + rewrite Hc, Hr' by assumption. reflexivity.
    + rewrite Hrec, Hrec' by lia.
      replace (S i - 1) with i by lia. replace (S j - 1) with j by lia.
      rewrite (IHi (S j)), (IHi j), IHj by lia.
      rewrite subst_cost_swap. apply min_of_three_swap.
Qed.

Lemma lev_table_diag (a : cstring) (M : Matrix) :
  lev_table a a M -> forall i, i <= strlen a -> M i i = 0.
Proof.
  intros (Hc & Hr & Hrec). induction i as [|i IHi]; intros Hi.
  - apply Hc. lia.
  - rewrite Hrec by lia. replace (S i - 1) with i by lia.
    rewrite IHi by lia. rewrite subst_cost_diag. apply min_of_three_zero.
Qed.

Lemma levenshtein_from_sym (s s' : Matrix) (a b : cstring) :
  levenshtein_from s a b = levenshtein_from s' b a.
Proof.
  unfold levenshtein_from.
  apply (lev_table_transpose a b _ _ (lev_fill_table a b s) (lev_fill_table b a s')); lia.
Qed.

(** C8. [levenshtein_distance] is symmetric in its two arguments and is 0 on
    equal arguments. *)
Theorem levenshtein_distance_symmetric_and_zero (a b : cstring) :
  levenshtein_distance a b = levenshtein_distance b a /\
  levenshtein_distance a a = 0.
Proof.
  split.
  - apply levenshtein_from_sym.
  - unfold levenshtein_distance, levenshtein_from.
    apply (lev_table_diag a _ (lev_fill_table a a _)). lia.
Qed.

(** ** The distance ignores case *)

Lemma tolower_idempotent (c : ascii) : tolower (tolower c) = tolower c.
Proof. destruct c as [[] [] [] [] [] [] [] []]; reflexivity. Qed.

Lemma char_at_tolower (s : cstring) (i : nat) :
  char_at (map tolower s) i = tolower (char_at s i).
Proof.
  unfold char_at. change NUL with (tolower NUL) at 1. apply map_nth.
Qed.

Lemma subst_cost_tolower (a b : cstring) (i j : nat) :
  subst_cost (map tolower a) (map tolower b) i j = subst_cost a b i j.
Proof.
  unfold subst_cost. rewrite !char_at_tolower, !tolower_idempotent. reflexivity.
Qed.

Lemma lev_table_agree (a b a' b' : cstring) (M M' : Matrix) :
  strlen a = strlen a' -> strlen b = strlen b' ->
  (forall i j, subst_cost a b i j = subst_cost a' b' i j) ->
  lev_table a b M -> lev_table a' b' M' ->
  forall i j, i <= strlen a -> j <= strlen b -> M i j = M' i j.
Proof.
  intros Ha Hb Hcost (Hc & Hr & Hrec) (Hc' & Hr' & Hrec').
  induction i as [|i IHi]; intros j Hi Hj.
  - rewrite Hr, Hr' by lia. reflexivity.
  - induction j as [|j IHj].
    + rewrite Hc, Hc' by lia. reflexivity.
    + rewrite Hrec, Hrec' by lia.
      replace (S i - 1) with i by lia. replace (S j - 1) with j by lia.
      rewrite (IHi (S j)), (IHi j), IHj, Hcost by lia. reflexivity.
Qed.

(** The comparison made by [levenshtein_distance] is case-insensitive: the
    distance of two strings is the distance of their lower-case forms, and
    it does not depend on what the matrix held before it was filled. *)
Lemma levenshtein_distance_ignores_case (stack : Matrix) (a b : cstring) :
  levenshtein_from stack a b
  = levenshtein_distance (map tolower a) (map tolower b).
Proof.
  unfold levenshtein_distance, levenshtein_from, strlen. rewrite !length_map.
  apply (lev_table_agree a b (map tolower a) (map tolower b)).
  - unfold strlen. rewrite length_map. reflexivity.
  - unfold strlen. rewrite length_map. reflexivity.
  - intros i j. symmetry. apply subst_cost_tolower.
  - apply lev_fill_table.
  - apply lev_fill_table.
  - unfold strlen. lia.
  - unfold strlen. lia.
Qed.

(** ** Loops over the token array *)

Lemma for_range_ext (St : Type) (lo n : nat) (f g : nat -> St -> St) (st : St) :
  (forall k s, lo <= k < lo + n -> f k s = g k s) ->
  for_range lo n f st = for_range lo n g st.
Proof.
  induction n as [|n IH]; intros H; [reflexivity|].
  rewrite !for_range_succ. rewrite IH.
  - apply H. lia.
  - intros k s Hk. apply H. lia.
Qed.

Lemma for_range_split (St : Type) (lo n m : nat) (body : nat -> St -> St) (st : St) :
  for_range lo (n + m) body st = for_range (lo + n) m body (for_range lo n body st).
Proof.
  unfold for_range. rewrite seq_app, fold_left_app. reflexivity.
Qed.

(** A loop whose body only appends. *)
Lemma for_range_appends (A : Type) (lo n : nat)
    (step : nat -> list A -> list A) (acc : list A) :
  (forall k l, step k l = l ++ step k []) ->
  for_range lo n step acc = acc ++ flat_map (fun k => step k []) (seq lo n).
Proof.
  intros Happ. induction n as [|n IH].
  - cbn. rewrite app_nil_r. reflexivity.
  - rewrite for_range_succ, IH, Happ.
    rewrite seq_S, flat_map_app. cbn [flat_map]. rewrite app_nil_r, app_assoc.
    reflexivity.
Qed.

Lemma token_at_seq (pre tokens : list Token) :
  map (token_at (pre ++ tokens)) (seq (length pre) (length tokens)) = tokens.
Proof.
  revert pre. induction tokens as [|t tokens IH]; intros pre; [reflexivity|].
  cbn [length seq map]. f_equal.
  - unfold token_at. rewrite app_nth2 by lia. rewrite Nat.sub_diag. reflexivity.
  - specialize (IH (pre ++ [t])). rewrite <- app_assoc in IH. cbn in IH.
    rewrite length_app in IH. cbn in IH. rewrite Nat.add_1_r in IH. exact IH.
Qed.

Lemma flat_map_token_at (A : Type) (f : Token -> list A) (tokens : list Token) :
  flat_map (fun i => f (token_at tokens i)) (seq 0 (length tokens))
  = flat_map f tokens.
Proof.
  rewrite !flat_map_concat_map.
  rewrite <- (map_map (token_at tokens) f).
  pose proof (token_at_seq [] tokens) as H. cbn [app length] in H.
  rewrite H. reflexivity.
Qed.

(** ** The table computes the edit distance *)

Lemma lev_tables_agree_upto (a b a' b' : cstring) (M M' : Matrix) (n1 n2 : nat) :
  n1 <= strlen a -> n2 <= strlen b -> n1 <= strlen a' -> n2 <= strlen b' ->
  (forall i j, 1 <= i <= n1 -> 1 <= j <= n2 ->
     subst_cost a b i j = subst_cost a' b' i j) ->
  lev_table a b M -> lev_table a' b' M' ->
  forall i j, i <= n1 -> j <= n2 -> M i j = M' i j.
Proof.
  intros Ha Hb Ha' Hb' Hcost (Hc & Hr & Hrec) (Hc' & Hr' & Hrec').
  induction i as [|i IHi]; intros j Hi Hj.
  - rewrite Hr, Hr' by lia. reflexivity.
  - induction j as [|j IHj].
    + rewrite Hc, Hc' by lia. reflexivity.
    + rewrite Hrec, Hrec' by lia.
      replace (S i - 1) with i by lia. replace (S j - 1) with j by lia.
      rewrite (IHi (S j)), (IHi j), IHj, Hcost by lia. reflexivity.
Qed.

Lemma char_at_firstn (s : cstring) (n k : nat) :
  k < n -> char_at (firstn n s) k = char_at s k.
Proof.
  intros Hk. unfold char_at. rewrite nth_firstn.
  replace (k <? n) with true by (symmetry; apply Nat.ltb_lt; exact Hk). reflexivity.
Qed.

Lemma lev_table_prefix (a b : cstring) (M : Matrix) (i j : nat) :
  lev_table a b M -> i <= strlen a -> j <= strlen b ->
  M i j = levenshtein_distance (firstn i a) (firstn j b).
Proof.
  intros Htable Hi Hj. unfold strlen in Hi, Hj.
  assert (Hli : strlen (firstn i a) = i) by (unfold strlen; rewrite length_firstn; lia).
  assert (Hlj : strlen (firstn j b) = j) by (unfold strlen; rewrite length_firstn; lia).
  unfold levenshtein_distance, levenshtein_from. rewrite Hli, Hlj.
  apply (lev_tables_agree_upto a b (firstn i a) (firstn j b) M _ i j);
    try (unfold strlen; lia); try exact Htable; try apply lev_fill_table; try lia.
  intros i' j' Hi' Hj'. unfold subst_cost.
  rewrite !char_at_firstn by lia. reflexivity.
Qed.

Lemma levenshtein_nil_l (b : cstring) : levenshtein_distance [] b = strlen b.
Proof.
  unfold levenshtein_distance, levenshtein_from.
  destruct (lev_fill_table [] b (fun _ _ => 0)) as (_ & Hr & _).
  apply Hr. lia.
Qed.

Lemma levenshtein_nil_r (a : cstring) : levenshtein_distance a [] = strlen a.
Proof.
  unfold levenshtein_distance, levenshtein_from.
  destruct (lev_fill_table a [] (fun _ _ => 0)) as (Hc & _ & _).
  apply Hc. lia.
Qed.

Lemma firstn_snoc_all (s : cstring) (c : ascii) : firstn (length s) (s ++ [c]) = s.
Proof. rewrite firstn_app, firstn_all, Nat.sub_diag. cbn. apply app_nil_r. Qed.

Lemma firstn_snoc_more (s : cstring) (c : ascii) :
  firstn (S (length s)) (s ++ [c]) = s ++ [c].
Proof.
  rewrite firstn_all2; [reflexivity|]. rewrite length_app. cbn. lia.
Qed.

Lemma levenshtein_snoc (a b : cstring) (c d : ascii) :
  levenshtein_distance (a ++ [c]) (b ++ [d])
  = min_of_three (levenshtein_distance a (b ++ [d]) + 1)
                 (levenshtein_distance (a ++ [c]) b + 1)
                 (levenshtein_distance a b + char_cost c d).
Proof.
  pose proof (lev_fill_table (a ++ [c]) (b ++ [d]) (fun _ _ => 0)) as Htable.
  assert (Hla : strlen (a ++ [c]) = S (length a))
    by (unfold strlen; rewrite length_app; cbn; lia).
  assert (Hlb : strlen (b ++ [d]) = S (length b))
    by (unfold strlen; rewrite length_app; cbn; lia).
  unfold levenshtein_distance at 1. unfold levenshtein_from. rewrite Hla, Hlb.
  destruct Htable as (Hc & Hr & Hrec).
  rewrite Hrec by lia.
  replace (S (length a) - 1) with (length a) by lia.
  replace (S (length b) - 1) with (length b) by lia.
  assert (Htable : lev_table (a ++ [c]) (b ++ [d])
                     (lev_fill (a ++ [c]) (b ++ [d]) (fun _ _ => 0)))
    by (repeat split; assumption).
  rewrite (lev_table_prefix _ _ _ (length a) (S (length b)) Htable) by lia.
  rewrite (lev_table_prefix _ _ _ (S (length a)) (length b) Htable) by lia.
  rewrite (lev_table_prefix _ _ _ (length a) (length b) Htable) by lia.
  rewrite !firstn_snoc_all, !firstn_snoc_more.
  f_equal. f_equal. unfold subst_cost, char_cost, char_at.
  replace (S (length a) - 1) with (length a) by lia.
  replace (S (length b) - 1) with (length b) by lia.
  rewrite !nth_middle. reflexivity.
Qed.

Lemma min_of_three_le (x y z : nat) :
  min_of_three x y z <= x /\ min_of_three x y z <= y /\ min_of_three x y z <= z.
Proof. rewrite min_of_three_min. lia. Qed.

Lemma min_of_three_is (x y z : nat) :
  min_of_three x y z = x \/ min_of_three x y z = y \/ min_of_three x y z = z.
Proof. rewrite min_of_three_min. lia. Qed.

Lemma edit_script_inserts (b : cstring) : edit_script [] b (strlen b).
Proof.
  induction b as [|d b IH]; [constructor|]. cbn. apply edit_insert. exact IH.
Qed.

Lemma edit_script_deletes (a : cstring) : edit_script a [] (strlen a).
Proof.
  induction a as [|c a IH]; [constructor|]. cbn. apply edit_delete. exact IH.
Qed.

Lemma edit_script_keep_last (a b : cstring) (n : nat) (c d : ascii) :
  tolower c = tolower d -> edit_script a b n -> edit_script (a ++ [c]) (b ++ [d]) n.
Proof.
  intros Hcd. induction 1; cbn [app];
    [apply edit_keep; [exact Hcd | constructor]
    | apply edit_keep | apply edit_substitute | apply edit_delete | apply edit_insert];
    assumption.
Qed.

Lemma edit_script_substitute_last (a b : cstring) (n : nat) (c d : ascii) :
  edit_script a b n -> edit_script (a ++ [c]) (b ++ [d]) (S n).
Proof.
  induction 1; cbn [app];
    [apply edit_substitute; constructor
    | apply edit_keep | apply edit_substitute | apply edit_delete | apply edit_insert];
    assumption.
Qed.

Lemma edit_script_delete_last (a b : cstring) (n : nat) (c : ascii) :
  edit_script a b n -> edit_script (a ++ [c]) b (S n).
Proof.
  induction 1; cbn [app];
    [apply edit_delete; constructor
    | apply edit_keep | apply edit_substitute | apply edit_delete | apply edit_insert];
    assumption.
Qed.

Lemma edit_script_insert_last (a b : cstring) (n : nat) (d : ascii) :
  edit_script a b n -> edit_script a (b ++ [d]) (S n).
Proof.
  induction 1; cbn [app];
    [apply edit_insert; constructor
    | apply edit_keep | apply edit_substitute | apply edit_delete | apply edit_insert];
    assumption.
Qed.

Lemma edit_script_rev (a b : cstring) (n : nat) :
  edit_script a b n -> edit_script (rev a) (rev b) n.
Proof.
  induction 1; cbn [rev].
  - constructor.
  - apply edit_script_keep_last; assumption.
  - apply edit_script_substitute_last; assumption.
  - apply edit_script_delete_last; assumption.
  - apply edit_script_insert_last; assumption.
Qed.

Lemma levenshtein_has_script (a : cstring) :
  forall b, edit_script a b (levenshtein_distance a b).
Proof.
  induction a as [|c a IHa] using rev_ind; intros b.
  - rewrite levenshtein_nil_l. apply edit_script_inserts.
  - induction b as [|d b IHb] using rev_ind.
    + rewrite levenshtein_nil_r. apply edit_script_deletes.
    + rewrite levenshtein_snoc.
      destruct (min_of_three_is (levenshtein_distance a (b ++ [d]) + 1)
                  (levenshtein_distance (a ++ [c]) b + 1)
                  (levenshtein_distance a b + char_cost c d)) as [->|[->| ->]].
      * rewrite Nat.add_1_r. apply edit_script_delete_last. apply IHa.
      * rewrite Nat.add_1_r. apply edit_script_insert_last. exact IHb.
      * unfold char_cost. destruct (Ascii.eqb (tolower c) (tolower d)) eqn:Hcd.
        -- rewrite Nat.add_0_r. apply edit_script_keep_last; [|apply IHa].
           apply Ascii.eqb_eq. exact Hcd.
        -- rewrite Nat.add_1_r. apply edit_script_substitute_last. apply IHa.
Qed.

Lemma levenshtein_delete_last (a b : cstring) (c : ascii) :
  levenshtein_distance (a ++ [c]) b <= levenshtein_distance a b + 1.
Proof.
  destruct b as [|d b] using rev_ind.
  - rewrite !levenshtein_nil_r. unfold strlen. rewrite length_app. cbn. lia.
  - rewrite levenshtein_snoc. apply min_of_three_le.
Qed.

Lemma levenshtein_insert_last (a b : cstring) (d : ascii) :
  levenshtein_distance a (b ++ [d]) <= levenshtein_distance a b + 1.
Proof.
  destruct a as [|c a] using rev_ind.
  - rewrite !levenshtein_nil_l. unfold strlen. rewrite length_app. cbn. lia.
  - rewrite levenshtein_snoc. apply min_of_three_le.
Qed.

Lemma levenshtein_below_reversed_script (x y : cstring) (n : nat) :
  edit_script x y n -> levenshtein_distance (rev x) (rev y) <= n.
Proof.
  induction 1; cbn [rev].
  - rewrite levenshtein_nil_l. cbn. lia.
  - rewrite levenshtein_snoc.
    pose proof (min_of_three_le (levenshtein_distance (rev a) (rev b ++ [d]) + 1)
                  (levenshtein_distance (rev a ++ [c]) (rev b) + 1)
                  (levenshtein_distance (rev a) (rev b) + char_cost c d)) as (_ & _ & Hle).
    unfold char_cost in *. rewrite H, Ascii.eqb_refl in *. lia.
  - rewrite levenshtein_snoc.
    pose proof (min_of_three_le (levenshtein_distance (rev a) (rev b ++ [d]) + 1)
                  (levenshtein_distance (rev a ++ [c]) (rev b) + 1)
                  (levenshtein_distance (rev a) (rev b) + char_cost c d)) as (_ & _ & Hle).
    unfold char_cost in *. destruct (Ascii.eqb (tolower c) (tolower d)); lia.
  - pose proof (levenshtein_delete_last (rev a) (rev b) c). lia.
  - pose proof (levenshtein_insert_last (rev a) (rev b) d). lia.
Qed.

(** [levenshtein_distance] is the least cost of an edit script. *)
Lemma levenshtein_is_edit_distance (a b : cstring) :
  edit_distance a b (levenshtein_distance a b).
Proof.
  split; [apply levenshtein_has_script|].
  intros n Hscript. apply edit_script_rev in Hscript.
  apply levenshtein_below_reversed_script in Hscript.
  rewrite !rev_involutive in Hscript. exact Hscript.
Qed.

Lemma edit_distance_unique (a b : cstring) (d d' : nat) :
  edit_distance a b d -> edit_distance a b d' -> d = d'.
Proof.
  intros [Hs Hmin] [Hs' Hmin']. apply Nat.le_antisymm; auto.
Qed.

Lemma near_miss_computed (word keyword : cstring) :
  near_miss word keyword <-> 0 < levenshtein_distance word keyword <= 2.
Proof.
  split.
  - intros (d & Hd & Hrange).
    rewrite <- (edit_distance_unique _ _ _ _ Hd (levenshtein_is_edit_distance _ _)).
    exact Hrange.
  - intros Hrange. exists (levenshtein_distance word keyword).
    split; [apply levenshtein_is_edit_distance | exact Hrange].
Qed.

(** ** The misspelling detector *)

Lemma suggest_keyword_some (word : cstring) (table : list cstring) (keyword : cstring) :
  suggest_keyword word table = Some keyword ->
  exists j, first_near_miss table word j keyword.
Proof.
  induction table as [|kw table IH]; cbn [suggest_keyword]; cbv zeta; [discriminate|].
  destruct ((0 <? levenshtein_distance word kw)
            && (levenshtein_distance word kw <=? 2)) eqn:Hd.
  - intros [= <-]. exists 0. apply andb_true_iff in Hd. destruct Hd as [H0 H2].
    apply Nat.ltb_lt in H0. apply Nat.leb_le in H2.
    split; [reflexivity | split; [apply near_miss_computed; split; assumption|]].
    intros j' kw' Hj. lia.
  - intros Hs. destruct (IH Hs) as (j & Hnth & Hnear & Hfirst).
    exists (S j). split; [exact Hnth | split; [exact Hnear|]].
    intros [|j'] kw' Hj; cbn.
    + intros [= <-] Hnear'. apply near_miss_computed in Hnear'.
      destruct Hnear' as [H0 H2]. apply Nat.ltb_lt in H0. apply Nat.leb_le in H2.
      rewrite H0, H2 in Hd. discriminate.
    + apply Hfirst. lia.
Qed.

Lemma suggest_keyword_none (word : cstring) (table : list cstring) :
  suggest_keyword word table = None ->
  forall keyword, In keyword table -> ~ near_miss word keyword.
Proof.
  induction table as [|kw table IH]; cbn [suggest_keyword]; cbv zeta; [intros _ k []|].
  destruct ((0 <? levenshtein_distance word kw)
            && (levenshtein_distance word kw <=? 2)) eqn:Hd; [discriminate|].
  intros Hs keyword [<-|Hin].
  - intros Hnear. apply near_miss_computed in Hnear.
    destruct Hnear as [H0 H2]. apply Nat.ltb_lt in H0. apply Nat.leb_le in H2.
    rewrite H0, H2 in Hd. discriminate.
  - apply IH; assumption.
Qed.

Lemma TokenType_eqb_eq (a b : TokenType) : TokenType_eqb a b = true <-> a = b.
Proof. destruct a, b; cbn; split; congruence. Qed.

Lemma misspelled_step_appends (keywords : list cstring) (tokens : list Token)
    (i : nat) (errors : list Error) :
  misspelled_step keywords tokens i errors
  = errors ++ misspelled_step keywords tokens i [].
Proof.
  unfold misspelled_step.
  destruct (negb _ || _); [now rewrite app_nil_r|].
  destruct (suggest_keyword _ _); [reflexivity | now rewrite app_nil_r].
Qed.

Lemma misspelled_step_emission (keywords : list cstring) (t : Token) :
  misspelled_emission keywords t (misspelled_step keywords [t] 0 []).
Proof.
  unfold misspelled_step. cbn [token_at nth].
  destruct (is_type t IDENTIFIER) eqn:Hty; cbn [negb orb].
  - apply TokenType_eqb_eq in Hty.
    destruct (strlen (value t) <=? 2) eqn:Hlen.
    + apply emit_not_checked. right. apply Nat.leb_le. exact Hlen.
    + apply Nat.leb_gt in Hlen.
      destruct (suggest_keyword (value t) keywords) as [kw|] eqn:Hs.
      * destruct (suggest_keyword_some _ _ _ Hs) as [j Hj].
        exact (emit_suggestion keywords t j kw Hty Hlen Hj).
      * apply emit_no_candidate; try assumption.
        apply suggest_keyword_none. exact Hs.
  - apply emit_not_checked. left. intros Heq.
    apply TokenType_eqb_eq in Heq. unfold is_type in Hty. congruence.
Qed.

Lemma check_misspelled_keyword_emissions (keywords : list cstring)
    (tokens : list Token) (errors : list Error) :
  exists emitted : list (list Error),
    check_misspelled_keyword keywords tokens (length tokens) errors
    = errors ++ concat emitted /\
    Forall2 (misspelled_emission keywords) tokens emitted.
Proof.
  exists (map (fun t => misspelled_step keywords [t] 0 []) tokens). split.
  - unfold check_misspelled_keyword.
    rewrite for_range_appends by (intros; apply misspelled_step_appends).
    f_equal. rewrite <- flat_map_concat_map.
    rewrite <- (flat_map_token_at _ (fun t => misspelled_step keywords [t] 0 [])).
    reflexivity.
  - induction tokens as [|t tokens IH]; constructor.
    + apply misspelled_step_emission.
    + exact IH.
Qed.

(** C6. In either language the misspelling detector appends, token by token
    and in token order, at most one MISSPELLED_KEYWORD error per token: for
    an IDENTIFIER longer than 2 characters the error names the first keyword
    of the language's table whose case-insensitive Levenshtein distance [d]
    from the token (the least cost of an edit script, [edit_distance])
    satisfies [0 < d <= 2], and nothing is appended when no keyword does;
    any other token (not an IDENTIFIER, or of length 2 or less) appends
    nothing. *)
Theorem misspelling_detector_first_match (tokens : list Token) (errors : list Error) :
  (exists emitted : list (list Error),
     check_misspelled_keyword_python tokens (length tokens) errors
     = errors ++ concat emitted /\
     Forall2 (misspelled_emission PYTHON_KEYWORDS) tokens emitted) /\
  (exists emitted : list (list Error),
     check_misspelled_keyword_typescript tokens (length tokens) errors
     = errors ++ concat emitted /\
     Forall2 (misspelled_emission TYPESCRIPT_KEYWORDS) tokens emitted).
Proof.
  split; apply check_misspelled_keyword_emissions.
Qed.

Lemma keyword_counts :
  PYTHON_KEYWORD_COUNT = length PYTHON_KEYWORDS /\
  TYPESCRIPT_KEYWORD_COUNT = length TYPESCRIPT_KEYWORDS.
Proof. split; reflexivity. Qed.

(** ** The TypeScript type-mismatch detector *)

Lemma type_mismatch_typescript_step_appends (tokens : list Token) (i : nat)
    (errors : list Error) :
  type_mismatch_typescript_step tokens i errors
  = errors ++ type_mismatch_typescript_step tokens i [].
Proof.
  unfold type_mismatch_typescript_step.
  repeat match goal with
         | |- context [if ?b then _ else _] => destruct b
         end; rewrite ?app_nil_r; reflexivity.
Qed.

Lemma typescript_windows_run (tokens : list Token) (lo n : nat) (errors : list Error) :
  for_range lo n (type_mismatch_typescript_step tokens) errors
  = errors ++ typescript_windows tokens lo n.
Proof.
  unfold typescript_windows.
  rewrite !(for_range_appends _ lo n (type_mismatch_typescript_step tokens))
    by (intros; apply type_mismatch_typescript_step_appends).
  reflexivity.
Qed.

Lemma typescript_windows_split (tokens : list Token) (i count : nat) :
  i + 5 < count ->
  check_type_mismatch_typescript tokens count []
  = typescript_windows tokens 0 i
    ++ typescript_windows tokens i 1
    ++ typescript_windows tokens (i + 1) (count - 5 - (i + 1)).
Proof.
  intros Hi. unfold check_type_mismatch_typescript.
  remember (count - 5 - (i + 1)) as later eqn:Hlater.
  replace (count - 5) with (i + (1 + later)) by lia.
  rewrite !for_range_split, !typescript_windows_run. cbn [app Nat.add].
  rewrite app_assoc. reflexivity.
Qed.

Lemma has_value_eq (t : Token) (text : string) :
  has_value t text = true <-> value t = str text.
Proof. apply streq_eq. Qed.

Lemma boolean_window_emission (tokens : list Token) (i : nat) :
  boolean_window tokens i ->
  typescript_windows tokens i 1 =
    if has_value (token_at tokens (i + 5)) "true"
       || has_value (token_at tokens (i + 5)) "false"
    then []
    else [mismatch (boolean_mismatch_message (value (token_at tokens (i + 1))))
                   (token_at tokens i)].
Proof.
  intros (_ & Hdecl & Hid & Hcolon & Hbool & Heq).
  unfold typescript_windows, for_range. cbn [seq fold_left].
  unfold type_mismatch_typescript_step.
  rewrite Hdecl. unfold is_type. rewrite Hid. cbn [TokenType_eqb negb].
  apply has_value_eq in Hcolon, Heq. rewrite Hcolon, Heq. cbn [negb].
  unfold has_value at 1 2. rewrite Hbool.
  replace (streq (str "boolean") (str "number")) with false by reflexivity.
  replace (streq (str "boolean") (str "string")) with false by reflexivity.
  cbn [andb]. apply has_value_eq in Hbool. rewrite Hbool. cbn [andb].
  destruct (has_value (token_at tokens (i + 5)) "true"); [reflexivity|].
  destruct (has_value (token_at tokens (i + 5)) "false"); reflexivity.
Qed.

(** C3, what the code does. In the TypeScript type-mismatch scan, a window of six
    tokens [("let"|"const"|"var") IDENTIFIER ":" "boolean" "=" value]
    contributes its own slice to the error list, between the errors of the
    earlier and of the later windows; that slice is exactly one
    TYPE_MISMATCH error, stamped with the line of the first token, when the
    text of the sixth token is neither "true" nor "false", and is empty
    when it is one of them.  The kind of the sixth token plays no part:
    the boolean branch never reads it, unlike the number and string
    branches of the same function, which report literals only. *)
Theorem boolean_mismatch_by_text (tokens : list Token) (i : nat) :
  boolean_window tokens i ->
  let assigned := token_at tokens (i + 5) in
  let slice := typescript_windows tokens i 1 in
  let report := mismatch (boolean_mismatch_message (value (token_at tokens (i + 1))))
                         (token_at tokens i) in
  check_type_mismatch_typescript tokens (length tokens) []
  = typescript_windows tokens 0 i ++ slice
    ++ typescript_windows tokens (i + 1) (length tokens - 5 - (i + 1)) /\
  (slice = [report] \/ slice = []) /\
  (slice = [report] <-> ~ boolean_word assigned) /\
  (slice = [] <-> boolean_word assigned) /\
  error_type report = ERROR_TYPE_TYPE_MISMATCH /\
  line_number report = line (token_at tokens i).
Proof.
  intros Hw. cbv zeta.
  split; [apply typescript_windows_split; apply Hw|].
  rewrite (boolean_window_emission tokens i Hw).
  unfold boolean_word.
  destruct (has_value (token_at tokens (i + 5)) "true") eqn:Ht;
  destruct (has_value (token_at tokens (i + 5)) "false") eqn:Hf; cbn [orb];
    try apply has_value_eq in Ht; try apply has_value_eq in Hf.
  1-3: (split; [right; reflexivity|]); split;
       [split; [discriminate | intros H; exfalso; apply H; auto]
       | split; [split; [auto | reflexivity] | split; reflexivity]].
  split; [left; reflexivity|]. split; [|split; [|split; reflexivity]].
  - split; [|reflexivity]. intros _ [H|H]; apply has_value_eq in H; congruence.
  - split; [discriminate|]. intros [H|H]; apply has_value_eq in H; congruence.
Qed.

Lemma boolean_mismatch_by_text_witness :
  boolean_window let_x_boolean_y 0 /\
  check_type_mismatch_typescript let_x_boolean_y 6 []
  = [mismatch (boolean_mismatch_message (str "x")) (mkToken (str "let") KEYWORD 1)].
Proof.
  assert (Hw : boolean_window let_x_boolean_y 0).
  { unfold boolean_window. cbn. repeat split; try reflexivity. lia. }
  split; [exact Hw|].
  destruct (boolean_mismatch_by_text let_x_boolean_y 0 Hw) as (Hrun & _).
  exact Hrun.
Defined.

(** C3 fails in the code: in the stream the tokenizer produces for
    [let x: boolean = y] the sixth token is an IDENTIFIER, not a literal,
    and the detector emits a TYPE_MISMATCH error for the window. *)
Lemma boolean_mismatch_on_identifier :
  tokenize_typescript (str "let x: boolean = y") = Some let_x_boolean_y /\
  boolean_window let_x_boolean_y 0 /\
  is_literal (token_at let_x_boolean_y 5) = false /\
  check_type_mismatch_typescript let_x_boolean_y (length let_x_boolean_y) []
  = [mkError (str "Type mismatch - 'x' declared as boolean but assigned non-boolean value")
             1 ERROR_TYPE_TYPE_MISMATCH].
Proof.
  split; [reflexivity|]. split.
  - unfold boolean_window. cbn. repeat split; try reflexivity. lia.
  - split; reflexivity.
Qed.

(** ** Comment extraction *)

Lemma copy_line_spec (rest copied r : cstring) :
  copy_line rest = (copied, r) ->
  rest = copied ++ r /\ ~ In newline copied /\
  (r = [] \/ exists r', r = newline :: r').
Proof.
  revert copied r. induction rest as [|c rest IH]; intros copied r; cbn.
  - intros [= <- <-]. repeat split; auto.
  - destruct (Ascii.eqb c newline) eqn:Hc.
    + intros [= <- <-]. apply Ascii.eqb_eq in Hc. subst c.
      repeat split; eauto.
    + destruct (copy_line rest) as [k r0]. intros [= <- <-].
      destruct (IH k r0 eq_refl) as (-> & Hk & Hr).
      repeat split; auto.
      intros [Heq|Hin]; [|auto]. subst c. rewrite Ascii.eqb_refl in Hc. discriminate.
Qed.

Lemma copy_line_progress (c : ascii) (rest copied r : cstring) :
  Ascii.eqb c newline = false ->
  copy_line (c :: rest) = (copied, r) -> length r < length (c :: rest).
Proof.
  intros Hc. cbn [copy_line]. rewrite Hc.
  destruct (copy_line rest) as [k r0] eqn:Hk. intros [= <- <-].
  apply copy_line_spec in Hk. destruct Hk as (-> & _).
  cbn. rewrite length_app. lia.
Qed.

Lemma copy_until_quotes_spec (q : ascii) (rest : cstring) (l : nat)
    (copied r : cstring) (l' : nat) :
  copy_until_quotes q rest l = (copied, r, l') ->
  rest = copied ++ r /\ l <= l'.
Proof.
  revert l copied r l'. induction rest as [|c0 rest IH]; intros l copied r l'.
  - cbn. intros [= <- <- <-]. auto.
  - cbn [copy_until_quotes]. destruct rest as [|c1 [|c2 rest]].
    + intros [= <- <- <-]. auto.
    + intros [= <- <- <-]. auto.
    + destruct (three_of q (c0 :: c1 :: c2 :: rest)).
      * intros [= <- <- <-]. cbn. split; [reflexivity|].
        destruct (Ascii.eqb c0 newline); lia.
      * destruct (copy_until_quotes q (c1 :: c2 :: rest) _) as [[k r0] l0] eqn:Hk.
        intros [= <- <- <-]. apply IH in Hk. destruct Hk as [Hk Hl].
        rewrite Hk. split; [reflexivity|].
        destruct (Ascii.eqb c0 newline); lia.
Qed.

Lemma copy_until_star_slash_spec (rest : cstring) (l : nat)
    (copied r : cstring) (l' : nat) :
  copy_until_star_slash rest l = (copied, r, l') ->
  rest = copied ++ r /\ l <= l'.
Proof.
  revert l copied r l'. induction rest as [|c0 rest IH]; intros l copied r l'.
  - cbn. intros [= <- <- <-]. auto.
  - cbn [copy_until_star_slash]. destruct rest as [|c1 rest].
    + intros [= <- <- <-]. auto.
    + destruct (two_of "*" "/" (c0 :: c1 :: rest)).
      * intros [= <- <- <-]. cbn. split; [reflexivity|].
        destruct (Ascii.eqb c0 newline); lia.
      * destruct (copy_until_star_slash (c1 :: rest) _) as [[k r0] l0] eqn:Hk.
        intros [= <- <- <-]. apply IH in Hk. destruct Hk as [Hk Hl].
        rewrite Hk. split; [reflexivity|].
        destruct (Ascii.eqb c0 newline); lia.
Qed.

Lemma reassemble_push (c : ascii) (clean : cstring) (gaps : list nat)
    (texts : list cstring) :
  reassemble (c :: clean) (combine (push_gap gaps) texts)
  = c :: reassemble clean (combine gaps texts).
Proof.
  destruct gaps as [|g gaps]; [reflexivity|].
  destruct texts as [|t texts]; reflexivity.
Qed.

Lemma push_gap_length (gaps : list nat) : length (push_gap gaps) = length gaps.
Proof. destruct gaps; reflexivity. Qed.

Lemma reassemble_length (clean : cstring) (cuts : list (nat * cstring)) :
  length (reassemble clean cuts) = length clean + length (concat (map snd cuts)).
Proof.
  revert clean. induction cuts as [|[g t] cuts IH]; intros clean; cbn.
  - lia.
  - rewrite !length_app, IH.
    rewrite <- (firstn_skipn g clean) at 3. rewrite length_app. lia.
Qed.

Lemma three_of_length (q : ascii) (rest : cstring) :
  three_of q rest = true -> rest = firstn 3 rest ++ skipn 3 rest /\ 3 <= length rest.
Proof.
  destruct rest as [|c0 [|c1 [|c2 rest]]]; cbn; try discriminate.
  intros _. split; [reflexivity | lia].
Qed.

Lemma two_of_length (a b : ascii) (rest : cstring) :
  two_of a b rest = true -> rest = firstn 2 rest ++ skipn 2 rest /\ 2 <= length rest.
Proof.
  destruct rest as [|c0 [|c1 rest]]; cbn; try discriminate.
  intros _. split; [reflexivity | lia].
Qed.

(** The Python loop, from any state: it ends, it only appends, and what it
    appends reassembles into the text it was given. *)
Lemma extract_python_loop_spec (fuel : nat) :
  forall (rest : cstring) (comments : list Comment) (clean : cstring) (l : nat),
  length rest < fuel ->
  exists (comments' : list Comment) (clean' : cstring) (gaps : list nat),
    extract_python_loop fuel rest comments clean l
    = Some (comments ++ comments', clean ++ clean') /\
    length gaps = length comments' /\
    reassemble clean' (combine gaps (map content comments')) = rest /\
    ~ In "#"%char clean'.
Proof.
  induction fuel as [|fuel IH]; intros rest comments clean l Hfuel; [lia|].
  destruct rest as [|c rest'].
  - exists [], [], []. cbn. rewrite !app_nil_r. auto.
  - cbn [extract_python_loop].
    destruct (Ascii.eqb c "#") eqn:Hhash.
    + destruct (copy_line (c :: rest')) as [k r] eqn:Hk.
      assert (Hnl : Ascii.eqb c newline = false).
      { apply Ascii.eqb_eq in Hhash. subst c. reflexivity. }
      pose proof (copy_line_progress _ _ _ _ Hnl Hk) as Hlen.
      apply copy_line_spec in Hk. destruct Hk as (Hk & _).
      destruct (IH r (comments ++ [mkComment k l l false]) clean l)
        as (cs & cl & gaps & Hrun & Hg & Hre & Hno); [lia|].
      exists (mkComment k l l false :: cs), cl, (0 :: gaps).
      rewrite Hrun, <- app_assoc. cbn. rewrite Hre, Hg. auto.
    + destruct (three_of squote (c :: rest') || three_of dquote (c :: rest')) eqn:H3.
      * assert (Hsplit : c :: rest' = firstn 3 (c :: rest') ++ skipn 3 (c :: rest')
                         /\ 3 <= length (c :: rest')).
        { apply orb_true_iff in H3. destruct H3 as [H3|H3];
            apply three_of_length in H3; exact H3. }
        destruct Hsplit as [Hsplit Hlen3].
        destruct (copy_until_quotes c (skipn 3 (c :: rest')) l) as [[k r] l'] eqn:Hk.
        apply copy_until_quotes_spec in Hk. destruct Hk as [Hk _].
        assert (Hlen : length r < length (c :: rest')).
        { pose proof (length_skipn 3 (c :: rest')) as Hs.
          rewrite Hk, length_app in Hs. lia. }
        set (cm := mkComment (firstn 3 (c :: rest') ++ k) l l' true).
        destruct (IH r (comments ++ [cm]) clean l')
          as (cs & cl & gaps & Hrun & Hg & Hre & Hno); [lia|].
        exists (cm :: cs), cl, (0 :: gaps).
        rewrite Hrun, <- app_assoc. cbn [app length map combine reassemble content cm firstn skipn].
        rewrite Hre, Hg. repeat split; auto.
        rewrite <- app_assoc, <- Hk. symmetry. exact Hsplit.
      * destruct (IH rest' comments (clean ++ [c])
                    (if Ascii.eqb c newline then S l else l))
          as (cs & cl & gaps & Hrun & Hg & Hre & Hno); [cbn in Hfuel; lia|].
        exists cs, (c :: cl), (push_gap gaps).
        rewrite Hrun, <- app_assoc. cbn [app].
        rewrite push_gap_length, reassemble_push, Hre. repeat split; auto.
        intros [Heq|Hin]; [|auto]. subst c. discriminate.
Qed.

Lemma extract_typescript_loop_spec (fuel : nat) :
  forall (rest : cstring) (comments : list Comment) (clean : cstring) (l : nat),
  length rest < fuel ->
  exists (comments' : list Comment) (clean' : cstring) (gaps : list nat),
    extract_typescript_loop fuel rest comments clean l
    = Some (comments ++ comments', clean ++ clean') /\
    length gaps = length comments' /\
    reassemble clean' (combine gaps (map content comments')) = rest.
Proof.
  induction fuel as [|fuel IH]; intros rest comments clean l Hfuel; [lia|].
  destruct rest as [|c rest'].
  - exists [], [], []. cbn. rewrite !app_nil_r. auto.
  - cbn [extract_typescript_loop].
    destruct (two_of "/" "/" (c :: rest')) eqn:Hline.
    + destruct (copy_line (c :: rest')) as [k r] eqn:Hk.
      assert (Hnl : Ascii.eqb c newline = false).
      { destruct rest'; cbn in Hline; [discriminate|].
        apply andb_true_iff in Hline. destruct Hline as [Hc _].
        apply Ascii.eqb_eq in Hc. subst c. reflexivity. }
      pose proof (copy_line_progress _ _ _ _ Hnl Hk) as Hlen.
      apply copy_line_spec in Hk. destruct Hk as (Hk & _).
      destruct (IH r (comments ++ [mkComment k l l false]) clean l)
        as (cs & cl & gaps & Hrun & Hg & Hre); [lia|].
      exists (mkComment k l l false :: cs), cl, (0 :: gaps).
      rewrite Hrun, <- app_assoc. cbn. rewrite Hre, Hg. auto.
    + destruct (two_of "/" "*" (c :: rest')) eqn:Hblock.
      * apply two_of_length in Hblock. destruct Hblock as [Hsplit Hlen2].
        destruct (copy_until_star_slash (skipn 2 (c :: rest')) l) as [[k r] l'] eqn:Hk.
        apply copy_until_star_slash_spec in Hk. destruct Hk as [Hk _].
        assert (Hlen : length r < length (c :: rest')).
        { pose proof (length_skipn 2 (c :: rest')) as Hs.
          rewrite Hk, length_app in Hs. lia. }
        set (cm := mkComment (firstn 2 (c :: rest') ++ k) l l' true).
        destruct (IH r (comments ++ [cm]) clean l')
          as (cs & cl & gaps & Hrun & Hg & Hre); [lia|].
        exists (cm :: cs), cl, (0 :: gaps).
        rewrite Hrun, <- app_assoc. cbn [app length map combine reassemble content cm firstn skipn].
        rewrite Hre, Hg. repeat split; auto.
        rewrite <- app_assoc, <- Hk. symmetry. exact Hsplit.
      * destruct (IH rest' comments (clean ++ [c])
                    (if Ascii.eqb c newline then S l else l))
          as (cs & cl & gaps & Hrun & Hg & Hre); [cbn in Hfuel; lia|].
        exists cs, (c :: cl), (push_gap gaps).
        rewrite Hrun, <- app_assoc. cbn [app].
        rewrite push_gap_length, reassemble_push, Hre. auto.
Qed.

(** C5. For every input text and either language the extractor returns;
    when every comment fits [Comment.content] (fewer than [MAX_LENGTH]
    characters), the text is recovered by putting the comment contents back,
    in order, into the clean buffer: there are insertion points (one per
    comment) at which [reassemble] rebuilds the input exactly, so every
    input character is in exactly one of the clean buffer and the comment
    contents, in the original order.  A longer comment is written past its
    array, and the property is lost. *)
Theorem comment_round_trip (lang : Language) (source_code : cstring) :
  exists (comments : list Comment) (clean : cstring),
    extract_comments lang source_code = Some (comments, clean) /\
    (Forall content_fits comments ->
     exists gaps : list nat,
       length gaps = length comments /\
       reassemble clean (combine gaps (map content comments)) = source_code /\
       length source_code
       = length clean + length (concat (map content comments))).
Proof.
  assert (Hcount : forall (comments : list Comment) (clean : cstring) (gaps : list nat),
             length gaps = length comments ->
             reassemble clean (combine gaps (map content comments)) = source_code ->
             length source_code = length clean + length (concat (map content comments))).
  { intros comments clean gaps Hg Hre. rewrite <- Hre at 1.
    rewrite reassemble_length. f_equal. f_equal.
    clear Hre. revert comments Hg.
    induction gaps as [|g gaps IH]; intros [|c cs]; cbn; try discriminate; auto.
    intros [= Hg]. f_equal. auto. }
  destruct lang; cbn [extract_comments].
  - destruct (extract_python_loop_spec (S (strlen source_code)) source_code [] [] 1)
      as (cs & cl & gaps & Hrun & Hg & Hre & _); [unfold strlen; lia|].
    exists cs, cl. cbn [app] in Hrun. split; [exact Hrun|].
    intros _. exists gaps. eauto.
  - destruct (extract_typescript_loop_spec (S (strlen source_code)) source_code [] [] 1)
      as (cs & cl & gaps & Hrun & Hg & Hre); [unfold strlen; lia|].
    exists cs, cl. cbn [app] in Hrun. split; [exact Hrun|].
    intros _. exists gaps. eauto.
Qed.

Lemma comment_round_trip_witness :
  exists (comments : list Comment) (clean : cstring),
    extract_comments LANG_PYTHON hash_in_string = Some (comments, clean) /\
    Forall content_fits comments /\
    exists gaps : list nat,
      length gaps = length comments /\
      reassemble clean (combine gaps (map content comments)) = hash_in_string /\
      length hash_in_string
      = length clean + length (concat (map content comments)).
Proof.
  destruct (comment_round_trip LANG_PYTHON hash_in_string)
    as (comments & clean & Hrun & Hround).
  exists comments, clean.
  assert (Hfits : Forall content_fits comments).
  { vm_compute in Hrun. injection Hrun as <- <-.
    constructor; [unfold content_fits, MAX_LENGTH; cbn; lia | constructor]. }
  split; [exact Hrun | split; [exact Hfits | exact (Hround Hfits)]].
Defined.

(** *** A [#] after plain code *)

Lemma three_of_before_hash (q : ascii) (s tail : cstring) :
  Ascii.eqb "#" q = false -> s <> [] ->
  three_of q (s ++ "#"%char :: tail) = three_of q s.
Proof.
  intros Hq Hs.
  destruct s as [|c0 [|c1 [|c2 s]]]; [congruence| | |reflexivity];
    cbn [three_of app].
  - destruct tail; [reflexivity|]. rewrite Hq, andb_false_r. reflexivity.
  - rewrite Hq, andb_false_r. reflexivity.
Qed.

Lemma plain_code_cons (c : ascii) (s : cstring) :
  plain_code (c :: s) ->
  Ascii.eqb c "#" = false /\
  three_of squote (c :: s) = false /\ three_of dquote (c :: s) = false /\
  plain_code s.
Proof.
  intros (Hhash & Hs & Hd). cbn [never_three] in Hs, Hd.
  apply andb_true_iff in Hs, Hd. destruct Hs as [Hs Hs'], Hd as [Hd Hd'].
  apply negb_true_iff in Hs, Hd.
  repeat split; auto.
  - apply Ascii.eqb_neq. intros ->. apply Hhash. left. reflexivity.
  - intros Hin. apply Hhash. right. exact Hin.
Qed.

Lemma plain_prefix_run (pre : cstring) :
  forall (fuel : nat) (tail : cstring) (comments : list Comment)
         (clean : cstring) (l : nat),
  plain_code pre ->
  extract_python_loop (length pre + fuel) (pre ++ "#"%char :: tail) comments clean l
  = extract_python_loop fuel ("#"%char :: tail) comments (clean ++ pre)
      (l + newlines pre).
Proof.
  induction pre as [|c pre IH]; intros fuel tail comments clean l Hplain.
  - cbn. rewrite app_nil_r, Nat.add_0_r. reflexivity.
  - apply plain_code_cons in Hplain. destruct Hplain as (Hc & Hs & Hd & Hplain).
    cbn [length Nat.add app extract_python_loop]. rewrite Hc.
    change (c :: pre ++ "#"%char :: tail) with ((c :: pre) ++ "#"%char :: tail).
    rewrite !three_of_before_hash by (reflexivity || discriminate).
    rewrite Hs, Hd. cbn [orb].
    rewrite IH by exact Hplain. rewrite <- app_assoc. cbn [app newlines].
    f_equal. destruct (Ascii.eqb c newline); lia.
Qed.

Lemma copy_line_stops (body after : cstring) :
  ~ In newline body -> (after = [] \/ exists a, after = newline :: a) ->
  copy_line (body ++ after) = (body, after).
Proof.
  intros Hbody Hafter. induction body as [|c body IH]; cbn [app].
  - destruct Hafter as [->|[a ->]]; reflexivity.
  - cbn [copy_line]. destruct (Ascii.eqb c newline) eqn:Hc.
    + apply Ascii.eqb_eq in Hc. subst c. exfalso. apply Hbody. left. reflexivity.
    + rewrite IH; [reflexivity|]. intros Hin. apply Hbody. right. exact Hin.
Qed.

Lemma clean_code_has_no_hash (source_code : cstring)
    (comments : list Comment) (clean : cstring) :
  extract_comments_python source_code = Some (comments, clean) ->
  ~ In "#"%char clean.
Proof.
  unfold extract_comments_python.
  destruct (extract_python_loop_spec (S (strlen source_code)) source_code [] [] 1)
    as (cs & cl & gaps & Hrun & _ & _ & Hno); [unfold strlen; lia|].
  rewrite Hrun. cbn [app]. intros [= _ <-]. exact Hno.
Qed.

(** *** The turns of the outer loop *)

Lemma extract_python_loop_turn (fuel : nat) (st : PythonScan) :
  extract_python_loop (S fuel) (unread st) (found st) (kept st) (at_line st)
  = match python_scan_turn st with
    | None => Some (found st, kept st)
    | Some st' =>
        extract_python_loop fuel (unread st') (found st') (kept st') (at_line st')
    end.
Proof.
  destruct st as [rest comments clean l]. unfold python_scan_turn.
  cbn [unread found kept at_line extract_python_loop].
  destruct rest as [|c rest']; [reflexivity|].
  destruct (Ascii.eqb c "#").
  - destruct (copy_line (c :: rest')) as [copied r]. reflexivity.
  - destruct (three_of squote (c :: rest') || three_of dquote (c :: rest')).
    + destruct (copy_until_quotes c (skipn 3 (c :: rest')) l) as [[copied r] l'].
      reflexivity.
    + reflexivity.
Qed.

Lemma python_scan_turn_progress (st st' : PythonScan) :
  python_scan_turn st = Some st' -> length (unread st') < length (unread st).
Proof.
  destruct st as [rest comments clean l]. unfold python_scan_turn.
  cbn [unread found kept at_line].
  destruct rest as [|c rest']; [discriminate|].
  destruct (Ascii.eqb c "#") eqn:Hhash.
  - destruct (copy_line (c :: rest')) as [copied r] eqn:Hcopy.
    intros [= <-]. cbn [unread].
    apply (copy_line_progress c rest' copied r); [|exact Hcopy].
    apply Ascii.eqb_eq in Hhash. subst c. reflexivity.
  - destruct (three_of squote (c :: rest') || three_of dquote (c :: rest')) eqn:H3.
    + destruct (copy_until_quotes c (skipn 3 (c :: rest')) l) as [[copied r] l'] eqn:Hcopy.
      intros [= <-]. cbn [unread].
      apply copy_until_quotes_spec in Hcopy. destruct Hcopy as [Hcopy _].
      assert (Hlen : 3 <= length (c :: rest')).
      { destruct rest' as [|c1 [|c2 rest'']]; cbn in H3; try discriminate. cbn. lia. }
      assert (Hskip : length (skipn 3 (c :: rest')) = length (c :: rest') - 3)
        by apply length_skipn.
      rewrite Hcopy, length_app in Hskip. lia.
    + intros [= <-]. cbn. lia.
Qed.

Lemma extract_python_loop_fuel (fuel : nat) :
  forall (fuel' : nat) (st : PythonScan),
  length (unread st) < fuel -> length (unread st) < fuel' ->
  extract_python_loop fuel (unread st) (found st) (kept st) (at_line st)
  = extract_python_loop fuel' (unread st) (found st) (kept st) (at_line st).
Proof.
  induction fuel as [|fuel IH]; intros fuel' st Hfuel Hfuel'; [lia|].
  destruct fuel' as [|fuel']; [lia|].
  rewrite !extract_python_loop_turn.
  destruct (python_scan_turn st) as [st'|] eqn:Hturn; [|reflexivity].
  apply python_scan_turn_progress in Hturn. apply IH; lia.
Qed.

Lemma python_scan_reaches_run (source_code : cstring) (st : PythonScan) :
  python_scan_reaches source_code st ->
  length (unread st) <= length source_code /\
  extract_comments_python source_code
  = extract_python_loop (S (length (unread st)))
      (unread st) (found st) (kept st) (at_line st).
Proof.
  induction 1 as [|st st' Hreach [Hlen IH] Hturn].
  - split; [cbn; lia | reflexivity].
  - pose proof (python_scan_turn_progress _ _ Hturn) as Hless.
    split; [lia|]. rewrite IH, extract_python_loop_turn, Hturn.
    apply extract_python_loop_fuel; lia.
Qed.

Lemma python_scan_turns_reach (source_code : cstring) (n : nat) :
  forall st st' : PythonScan,
  python_scan_reaches source_code st ->
  python_scan_turns n st = Some st' ->
  python_scan_reaches source_code st'.
Proof.
  induction n as [|n IH]; intros st st' Hreach; cbn [python_scan_turns].
  - intros [= <-]. exact Hreach.
  - destruct (python_scan_turn st) as [st1|] eqn:Hturn; [|discriminate].
    apply IH. exact (scan_turn source_code st st1 Hreach Hturn).
Qed.

(** C9 (as amended).  The Python extractor has no notion of a string
    literal: whenever its outer loop stands on a [#], whatever it has read
    before (so also inside an open string literal, or after earlier
    comments), it records a single-line comment that runs from the [#] to
    the end of the line, on the current line, and goes on after it with the
    clean buffer unchanged.  In particular the first [#] of a text, after
    plain code [pre] (no [#] and no triple quote, so possibly an open
    string), starts the first comment, on the line of [pre]'s end, and the
    clean buffer starts with [pre].  Both are stated for comments that fit
    [Comment.content].  On [x = "a#b"] the comment is [#b"] and the clean
    buffer is [x = "a].  When every comment fits, no [#] reaches the clean
    buffer. *)
Theorem hash_starts_comment_even_in_string :
  (forall (source_code : cstring) (st : PythonScan) (body after : cstring),
     python_scan_reaches source_code st ->
     unread st = "#"%char :: body ++ after ->
     ~ In newline body -> (after = [] \/ exists a, after = newline :: a) ->
     Forall content_fits (found st) ->
     content_fits (mkComment ("#"%char :: body) (at_line st) (at_line st) false) ->
     exists (comments' : list Comment) (clean' : cstring),
       extract_comments_python source_code
       = Some (found st
                 ++ mkComment ("#"%char :: body) (at_line st) (at_line st) false
                 :: comments',
               kept st ++ clean')) /\
  (forall pre body after : cstring,
     plain_code pre -> ~ In newline body ->
     (after = [] \/ exists a, after = newline :: a) ->
     content_fits
       (mkComment ("#"%char :: body) (1 + newlines pre) (1 + newlines pre) false) ->
     exists (comments' : list Comment) (clean' : cstring),
       extract_comments_python (pre ++ "#"%char :: body ++ after)
       = Some (mkComment ("#"%char :: body) (1 + newlines pre) (1 + newlines pre) false
                 :: comments',
               pre ++ clean')) /\
  extract_comments_python hash_in_string
  = Some ([mkComment (str "#b" ++ [dquote]) 1 1 false], str "x = " ++ [dquote] ++ str "a") /\
  (forall (source_code : cstring) (comments : list Comment) (clean : cstring),
     extract_comments_python source_code = Some (comments, clean) ->
     Forall content_fits comments ->
     ~ In "#"%char clean).
Proof.
  split; [|split; [|split; [reflexivity|]]].
  - intros source_code st body after Hreach Hunread Hbody Hafter _ _.
    destruct (python_scan_reaches_run _ _ Hreach) as [_ ->].
    rewrite extract_python_loop_turn. unfold python_scan_turn. rewrite Hunread.
    cbn [Ascii.eqb Bool.eqb]. cbn [copy_line].
    replace (Ascii.eqb "#" newline) with false by reflexivity.
    rewrite (copy_line_stops body after Hbody Hafter). cbn [unread found kept at_line].
    set (cm := mkComment ("#"%char :: body) (at_line st) (at_line st) false).
    destruct (extract_python_loop_spec (length ("#"%char :: body ++ after)) after
                (found st ++ [cm]) (kept st) (at_line st))
      as (cs & cl & gaps & Hrun & _); [cbn; rewrite length_app; lia|].
    exists cs, cl. rewrite Hrun, <- app_assoc. reflexivity.
  - intros pre body after Hplain Hbody Hafter _.
    unfold extract_comments_python, strlen.
    replace (S (length (pre ++ "#"%char :: body ++ after)))
      with (length pre + S (S (length (body ++ after))))
      by (rewrite (length_app pre); cbn [length]; lia).
    rewrite plain_prefix_run by exact Hplain.
    remember (S (length (body ++ after))) as fuel eqn:Hfuel.
    cbn [extract_python_loop Ascii.eqb Bool.eqb]. cbn [copy_line]. subst fuel.
    replace (Ascii.eqb "#" newline) with false by reflexivity.
    rewrite (copy_line_stops body after Hbody Hafter).
    set (cm := mkComment ("#"%char :: body) (1 + newlines pre) (1 + newlines pre) false).
    destruct (extract_python_loop_spec (S (length (body ++ after))) after
                ([] ++ [cm]) ([] ++ pre) (1 + newlines pre))
      as (cs & cl & gaps & Hrun & _); [rewrite length_app; lia|].
    exists cs, cl. rewrite Hrun. reflexivity.
  - intros source_code comments clean Hrun _. revert Hrun.
    apply clean_code_has_no_hash.
Qed.

Lemma hash_starts_comment_even_in_string_witness :
  let st := mkPythonScan (str "#d" ++ [dquote])
              [mkComment (str "# a") 1 1 false]
              ([newline] ++ str "y = " ++ [dquote] ++ str "c") 2 in
  python_scan_reaches comment_on_second_line st /\
  Forall content_fits (found st) /\
  exists (comments' : list Comment) (clean' : cstring),
    extract_comments_python comment_on_second_line
    = Some ([mkComment (str "# a") 1 1 false]
              ++ mkComment ("#"%char :: str "d" ++ [dquote]) 2 2 false :: comments',
            ([newline] ++ str "y = " ++ [dquote] ++ str "c") ++ clean').
Proof.
  intros st.
  assert (Hreach : python_scan_reaches comment_on_second_line st).
  { apply (python_scan_turns_reach comment_on_second_line 8
             (mkPythonScan comment_on_second_line [] [] 1));
      [apply scan_start | reflexivity]. }
  assert (Hfits : Forall content_fits (found st)).
  { constructor; [unfold content_fits, MAX_LENGTH; cbn; lia | constructor]. }
  split; [exact Hreach | split; [exact Hfits|]].
  apply (proj1 hash_starts_comment_even_in_string comment_on_second_line st
           (str "d" ++ [dquote]) []).
  - exact Hreach.
  - reflexivity.
  - cbn. intros H. repeat (destruct H as [H|H]; [discriminate|]). exact H.
  - left. reflexivity.
  - exact Hfits.
  - unfold content_fits, MAX_LENGTH. cbn. lia.
Defined.

(** C9 (as stated) fails: not every [#] starts a comment.  A [#] after an
    earlier [#] of the same line, or inside a triple-quoted comment, is
    copied into the comment under way: each of these texts has two or one
    [#] more than it has single-line comments. *)
Lemma second_hash_starts_no_comment :
  count_char "#" hash_after_hash = 2 /\
  extract_comments_python hash_after_hash
  = Some ([mkComment (str "# a # b") 1 1 false], []) /\
  count_char "#" hash_in_triple_quotes = 1 /\
  extract_comments_python hash_in_triple_quotes
  = Some ([mkComment ([squote; squote; squote] ++ str "a#b" ++ [squote; squote; squote])
             1 1 true],
          str "x = ").
Proof. repeat split; reflexivity. Qed.

(** *** An unterminated triple-quoted comment *)

Lemma copy_until_quotes_step (q c0 c1 c2 : ascii) (rest : cstring) (l : nat) :
  copy_until_quotes q (c0 :: c1 :: c2 :: rest) l
  = let l' := if Ascii.eqb c0 newline then S l else l in
    if three_of q (c0 :: c1 :: c2 :: rest)
    then ([c0; c1; c2], rest, l')
    else let '(copied, r, l'') := copy_until_quotes q (c1 :: c2 :: rest) l' in
         (c0 :: copied, r, l'').
Proof. reflexivity. Qed.

Lemma copy_until_quotes_unterminated (q : ascii) (rest : cstring) :
  forall l : nat,
  never_three q rest = true ->
  copy_until_quotes q rest l
  = (firstn (length rest - 2) rest, skipn (length rest - 2) rest,
     l + newlines (firstn (length rest - 2) rest)).
Proof.
  induction rest as [|c0 rest IH]; intros l Hnever.
  - cbn. rewrite Nat.add_0_r. reflexivity.
  - destruct rest as [|c1 [|c2 rest]].
    + cbn. rewrite Nat.add_0_r. reflexivity.
    + cbn. rewrite Nat.add_0_r. reflexivity.
    + cbn [never_three] in Hnever. apply andb_true_iff in Hnever.
      destruct Hnever as [Hhere Hlater]. apply negb_true_iff in Hhere.
      rewrite copy_until_quotes_step. cbv zeta. rewrite Hhere.
      rewrite IH by exact Hlater.
      replace (length (c0 :: c1 :: c2 :: rest) - 2)
        with (S (length (c1 :: c2 :: rest) - 2)) by (cbn [length]; lia).
      cbn [firstn skipn newlines].
      destruct (Ascii.eqb c0 newline); f_equal; lia.
Qed.

(** C4 (what the code does instead).  When a triple-quoted comment opened
    at the start of the input is never closed, the copy loop stops two
    characters before the end of the buffer: the comment's content lacks
    the last two characters of the input and, when they are plain code,
    they are the clean buffer. *)
Theorem unterminated_comment_stops_two_short (q : ascii) (body : cstring) :
  q = squote \/ q = dquote ->
  never_three q body = true ->
  2 <= length body ->
  ~ In "#"%char (skipn (length body - 2) body) ->
  let kept := firstn (length body - 2) body in
  extract_comments_python ([q; q; q] ++ body)
  = Some ([mkComment ([q; q; q] ++ kept) 1 (1 + newlines kept) true],
          skipn (length body - 2) body).
Proof.
  intros Hq Hnever Hlen Hhash kept.
  assert (Hqh : Ascii.eqb q "#" = false) by (destruct Hq; subst q; reflexivity).
  assert (H3 : three_of squote ([q; q; q] ++ body)
               || three_of dquote ([q; q; q] ++ body) = true)
    by (destruct Hq; subst q; reflexivity).
  unfold extract_comments_python, strlen.
  rewrite length_app. cbn [length Nat.add].
  remember (S (S (S (length body)))) as fuel eqn:Hfuel.
  cbn [extract_python_loop app]. cbn [app] in H3. rewrite Hqh, H3.
  cbn [firstn skipn]. rewrite copy_until_quotes_unterminated by exact Hnever.
  fold kept. subst fuel.
  assert (Htail : length (skipn (length body - 2) body) = 2)
    by (rewrite length_skipn; lia).
  destruct (skipn (length body - 2) body) as [|c [|d [|e tail]]];
    try discriminate Htail.
  assert (Hc : Ascii.eqb c "#" = false).
  { apply Ascii.eqb_neq. intros ->. apply Hhash. left. reflexivity. }
  assert (Hd : Ascii.eqb d "#" = false).
  { apply Ascii.eqb_neq. intros ->. apply Hhash. right. left. reflexivity. }
  destruct body as [|b0 [|b1 body]]; [cbn in Hlen; lia | cbn in Hlen; lia |].
  cbn [length extract_python_loop three_of orb app]. rewrite Hc, Hd.
  reflexivity.
Qed.

Lemma unterminated_comment_stops_two_short_witness :
  extract_comments_python (str "'''abc")
  = Some ([mkComment (str "'''a") 1 1 true], str "bc").
Proof.
  apply (unterminated_comment_stops_two_short squote (str "abc")).
  - left. reflexivity.
  - reflexivity.
  - cbn. lia.
  - cbn. intros H. repeat (destruct H as [H|H]; [discriminate|]). exact H.
Defined.

(** ** The scenarios *)

(** C1 (what the code does).  On scenario F the extractor does emit the one
    comment of lines 1 to 3, but the tokenizer, which counts the lines of
    the clean text, stamps the tokens of [z = 1] with line 2. *)
Theorem scenario_F_tokens_on_line_2 :
  extract_comments_python scenario_F
  = Some ([mkComment (str "'''" ++ [newline] ++ str "line two" ++ [newline] ++ str "'''")
                     1 3 true],
          [newline] ++ str "z = 1") /\
  main_analysis LANG_PYTHON scenario_F
  = Some (mkAnalysis
            [ mkToken (str "z") IDENTIFIER 2; mkToken (str "=") OPERATOR 2;
              mkToken (str "1") INT_LITERAL 2 ]
            [mkComment (str "'''" ++ [newline] ++ str "line two" ++ [newline] ++ str "'''")
                       1 3 true]
            []).
Proof. split; vm_compute; reflexivity. Qed.

(** C2 (as stated) fails: the analysis of scenario E does not end with an
    empty error list. *)
Lemma scenario_E_has_an_error :
  ~ exists a : Analysis,
      main_analysis LANG_PYTHON scenario_E = Some a /\ error_array a = [].
Proof.
  intros (a & Hrun & Hnone).
  vm_compute in Hrun. injection Hrun as <-. discriminate Hnone.
Qed.

(** C2 (as amended).  On scenario E the analysis produces exactly one error,
    from the misspelling detector: [print] on line 3 is at distance 2 from
    the keyword [int].  The other three detectors produce nothing. *)
Theorem scenario_E_one_misspelling :
  exists tokens : list Token,
    tokenize_python scenario_E = Some tokens /\
    levenshtein_distance (str "print") (str "int") = 2 /\
    check_misspelled_keyword_python tokens (length tokens) []
    = [mkError (str "Misspelled keyword - 'print' (did you mean 'int'?)") 3
               ERROR_TYPE_MISSPELLED_KEYWORD] /\
    check_type_mismatch_python tokens (length tokens) [] = [] /\
    check_undeclared_identifier_python tokens (length tokens) [] = [] /\
    check_invalid_operator_python tokens (length tokens) [] = [] /\
    option_map error_array (main_analysis LANG_PYTHON scenario_E)
    = Some [mkError (str "Misspelled keyword - 'print' (did you mean 'int'?)") 3
                    ERROR_TYPE_MISSPELLED_KEYWORD].
Proof.
  eexists. split; [vm_compute; reflexivity|].
  repeat split; vm_compute; reflexivity.
Qed.

(** ** The tokenizers *)

Section TokenizerFacts.

Variable lang : Language.

Lemma skip_whitespace_spec (rest : cstring) :
  forall (l : nat) (r : cstring) (l' : nat),
  skip_whitespace rest l = (r, l') -> length r <= length rest /\ l <= l'.
Proof.
  induction rest as [|c rest IH]; intros l r l'; cbn [skip_whitespace].
  - intros [= <- <-]. auto.
  - destruct (isspace c).
    + intros H. apply IH in H. cbn [length].
      destruct (Ascii.eqb c newline); lia.
    + intros [= <- <-]. auto.
Qed.

Lemma scan_while_spec (p : ascii -> bool) (rest : cstring) :
  forall v r : cstring, scan_while p rest = (v, r) -> rest = v ++ r.
Proof.
  induction rest as [|c rest IH]; intros v r; cbn [scan_while].
  - intros [= <- <-]. reflexivity.
  - destruct (p c).
    + destruct (scan_while p rest) as [v0 r0]. intros [= <- <-].
      rewrite (IH v0 r0 eq_refl). reflexivity.
    + intros [= <- <-]. reflexivity.
Qed.

Lemma scan_while_first (p : ascii -> bool) (c : ascii) (rest v r : cstring) :
  p c = true -> scan_while p (c :: rest) = (v, r) -> v <> [].
Proof.
  intros Hp. cbn [scan_while]. rewrite Hp.
  destruct (scan_while p rest). intros [= <- <-]. discriminate.
Qed.

Lemma scan_number_spec (rest : cstring) :
  forall (d : bool) (v r : cstring) (d' : bool),
  scan_number rest d = (v, r, d') -> rest = v ++ r.
Proof.
  induction rest as [|c rest IH]; intros d v r d'; cbn [scan_number].
  - intros [= <- <- <-]. reflexivity.
  - destruct (isdigit c || Ascii.eqb c ".").
    + destruct (scan_number rest _) as [[v0 r0] d0] eqn:H0. intros [= <- <- <-].
      rewrite (IH _ _ _ _ H0). reflexivity.
    + intros [= <- <- <-]. reflexivity.
Qed.

Lemma scan_number_first (c : ascii) (rest : cstring) (d : bool)
    (v r : cstring) (d' : bool) :
  isdigit c = true -> scan_number (c :: rest) d = (v, r, d') -> v <> [].
Proof.
  intros Hc. cbn [scan_number]. rewrite Hc. cbn [orb].
  destruct (scan_number rest _) as [[v0 r0] d0]. intros [= <- <- <-]. discriminate.
Qed.

Lemma scan_string_spec (quote_char : ascii) (n : nat) :
  forall (rest : cstring) (l : nat) (v r : cstring) (l' : nat),
  length rest <= n ->
  scan_string lang quote_char rest l = (v, r, l') -> rest = v ++ r /\ l <= l'.
Proof.
  induction n as [|n IH]; intros rest l v r l' Hn.
  - destruct rest; [|cbn in Hn; lia]. cbn. intros [= <- <- <-]. auto.
  - destruct rest as [|c rest1]; [cbn; intros [= <- <- <-]; auto|].
    cbn [scan_string]. destruct (Ascii.eqb c quote_char).
    + intros [= <- <- <-]. auto.
    + assert (Hplain :
        (let '(v0, r0, l0) :=
           scan_string lang quote_char rest1
             (if is_typescript lang && Ascii.eqb c newline then S l else l) in
         (c :: v0, r0, l0)) = (v, r, l') -> c :: rest1 = v ++ r /\ l <= l').
      { destruct (scan_string lang quote_char rest1 _) as [[v0 r0] l0] eqn:H0.
        intros [= <- <- <-]. apply IH in H0; [|cbn in Hn; lia].
        destruct H0 as [-> Hl]. split; [reflexivity|].
        destruct (is_typescript lang && Ascii.eqb c newline); lia. }
      destruct (Ascii.eqb c backslash); [|exact Hplain].
      destruct rest1 as [|c2 rest2]; [exact Hplain|].
      destruct (scan_string lang quote_char rest2 _) as [[v0 r0] l0] eqn:H0.
      intros [= <- <- <-]. apply IH in H0; [|cbn in Hn; lia].
      destruct H0 as [-> Hl]. split; [reflexivity|].
      destruct (is_typescript lang && Ascii.eqb c2 newline); lia.
Qed.

Lemma scan_operator_spec (rest : cstring) :
  forall (k : nat) (v r : cstring), scan_operator rest k = (v, r) -> rest = v ++ r.
Proof.
  induction rest as [|c rest IH]; intros k v r; cbn [scan_operator].
  - intros [= <- <-]. reflexivity.
  - destruct (is_operator_char c && (k <? 3)).
    + destruct (scan_operator rest (S k)) as [v0 r0] eqn:H0. intros [= <- <-].
      rewrite (IH _ _ _ H0). reflexivity.
    + intros [= <- <-]. reflexivity.
Qed.

Lemma scan_operator_first (c : ascii) (rest v r : cstring) :
  is_operator_char c = true -> scan_operator (c :: rest) 0 = (v, r) -> v <> [].
Proof.
  intros Hc. cbn [scan_operator]. rewrite Hc. cbn [Nat.ltb Nat.leb andb].
  destruct (scan_operator rest 1). intros [= <- <-]. discriminate.
Qed.

Lemma ident_start_char (c : ascii) : ident_start lang c = true -> ident_char lang c = true.
Proof.
  unfold ident_start, ident_char, isalnum.
  destruct (isalpha c), (isdigit c), (Ascii.eqb c "_"),
    (is_typescript lang && Ascii.eqb c "$"); cbn; congruence.
Qed.

Lemma sorted_snoc (lines : list nat) (l : nat) :
  StronglySorted le lines -> Forall (fun x => x <= l) lines ->
  StronglySorted le (lines ++ [l]).
Proof.
  induction 1 as [|x lines Hs IH Hx]; intros Hall; cbn.
  - constructor; constructor.
  - inversion Hall as [|? ? Hxl Hrest]; subst. constructor.
    + apply IH. exact Hrest.
    + apply Forall_app. split; [exact Hx|]. constructor; [exact Hxl | constructor].
Qed.

Lemma tokens_up_to_snoc (l l' : nat) (tokens : list Token)
    (v : cstring) (ty : TokenType) :
  tokens_up_to l tokens -> 1 <= l -> l <= l' -> v <> [] ->
  tokens_up_to l' (tokens ++ [mkToken v ty l']).
Proof.
  intros [Hall Hsorted] H1 Hl Hv. split.
  - apply Forall_app. split.
    + eapply Forall_impl; [|exact Hall]. cbn. intros t (Ht & Hlo & Hhi).
      repeat split; auto; lia.
    + constructor; [|constructor]. cbn. repeat split; auto; lia.
  - rewrite map_app. cbn [map line]. apply sorted_snoc; [exact Hsorted|].
    apply Forall_map. eapply Forall_impl; [|exact Hall]. cbn. intros t (_ & _ & Hhi). lia.
Qed.

Lemma tokens_up_to_later (l l' : nat) (tokens : list Token) :
  tokens_up_to l tokens -> l <= l' -> tokens_up_to l' tokens.
Proof.
  intros [Hall Hsorted] Hl. split; [|exact Hsorted].
  eapply Forall_impl; [|exact Hall]. cbn. intros t (Ht & Hlo & Hhi).
  repeat split; auto; lia.
Qed.

(** The loop, from any state that satisfies the invariant: it ends and
    the invariant holds of the array it returns. *)
Lemma tokenize_loop_spec (fuel : nat) :
  forall (rest : cstring) (l : nat) (tokens : list Token) (token_count : nat),
  length rest < fuel -> 1 <= l -> tokens_up_to l tokens ->
  exists (out : list Token) (l' : nat),
    tokenize_loop lang fuel rest l tokens token_count = Some out /\
    tokens_up_to l' out.
Proof.
  induction fuel as [|fuel IH]; intros rest l tokens token_count Hfuel Hl Hinv; [lia|].
  cbn [tokenize_loop].
  destruct rest as [|c0 rest0]; [eauto|].
  destruct (token_count <? MAX_TOKENS); [|eauto].
  destruct (skip_whitespace (c0 :: rest0) l) as [rest1 l1] eqn:Hskip.
  apply skip_whitespace_spec in Hskip. destruct Hskip as [Hlen1 Hl1].
  destruct rest1 as [|c rest']; [eauto|].
  cbn [length] in Hfuel, Hlen1.
  destruct (ident_start lang c) eqn:Hid.
  { destruct (scan_while (ident_char lang) (c :: rest')) as [v r] eqn:Hscan.
    pose proof (scan_while_first _ _ _ _ _ (ident_start_char c Hid) Hscan) as Hv.
    apply scan_while_spec in Hscan.
    assert (Hr : length r < length (c :: rest')).
    { rewrite Hscan, length_app. destruct v; [congruence | cbn; lia]. }
    cbn [length] in Hr.
    apply IH; [lia | lia |]. apply (tokens_up_to_snoc l); auto; lia. }
  destruct (isdigit c) eqn:Hdigit.
  { destruct (scan_number (c :: rest') false) as [[v r] d] eqn:Hscan.
    pose proof (scan_number_first _ _ _ _ _ _ Hdigit Hscan) as Hv.
    apply scan_number_spec in Hscan.
    assert (Hr : length r < length (c :: rest')).
    { rewrite Hscan, length_app. destruct v; [congruence | cbn; lia]. }
    cbn [length] in Hr.
    apply IH; [lia | lia |]. apply (tokens_up_to_snoc l); auto; lia. }
  destruct (string_start lang c).
  { destruct (scan_string lang c rest' l1) as [[v r] l2] eqn:Hscan.
    apply (scan_string_spec c (length rest')) in Hscan; [|lia].
    destruct Hscan as [Hscan Hl2].
    assert (Hr : length r <= length rest') by (rewrite Hscan, length_app; lia).
    destruct r as [|q r'].
    - apply IH; [cbn; lia | lia |].
      apply (tokens_up_to_snoc l); auto; try lia; discriminate.
    - cbn [length] in Hr. apply IH; [lia | lia |].
      apply (tokens_up_to_snoc l); auto; try lia; discriminate. }
  destruct (is_operator_char c) eqn:Hop.
  { destruct (scan_operator (c :: rest') 0) as [v r] eqn:Hscan.
    pose proof (scan_operator_first _ _ _ _ Hop Hscan) as Hv.
    apply scan_operator_spec in Hscan.
    assert (Hr : length r < length (c :: rest')).
    { rewrite Hscan, length_app. destruct v; [congruence | cbn; lia]. }
    cbn [length] in Hr.
    apply IH; [lia | lia |]. apply (tokens_up_to_snoc l); auto; lia. }
  destruct (is_delimiter_char c).
  { apply IH; [lia | lia |].
    apply (tokens_up_to_snoc l); auto; try lia; discriminate. }
  apply IH; [lia | lia |]. apply (tokens_up_to_later l); auto.
Qed.

End TokenizerFacts.

(** C7. For every input text and either language the tokenizer returns an
    array in which every token has a non-empty value and a line number of
    at least 1, and whose line numbers never decrease from one token to a
    later one. *)
Theorem tokens_nonempty_and_lines_monotone (lang : Language) (source_code : cstring) :
  exists tokens : list Token,
    tokenize lang source_code = Some tokens /\
    Forall (fun t => value t <> [] /\ 1 <= line t) tokens /\
    StronglySorted le (map line tokens).
Proof.
  destruct (tokenize_loop_spec lang (S (strlen source_code)) source_code 1 [] 0)
    as (out & l' & Hrun & Hall & Hsorted).
  - unfold strlen. lia.
  - lia.
  - split; constructor.
  - exists out. split; [exact Hrun|]. split; [|exact Hsorted].
    eapply Forall_impl; [|exact Hall]. cbn. intros t (Hv & Hlo & _). auto.
Qed.

(** ** The symbol table of the undeclared-identifier detectors *)

Lemma for_range_invariant (St : Type) (P : St -> Prop) (lo n : nat)
    (body : nat -> St -> St) (st : St) :
  P st -> (forall k s, P s -> P (body k s)) -> P (for_range lo n body st).
Proof.
  intros Hst Hbody. induction n as [|n IH]; [exact Hst|].
  rewrite for_range_succ. apply Hbody. exact IH.
Qed.

Lemma for_while_invariant (St : Type) (P : St -> Prop) (n : nat) :
  forall (lo : nat) (cont : nat -> bool) (body : nat -> St -> St) (st : St),
  P st -> (forall k s, P s -> P (body k s)) -> P (for_while lo n cont body st).
Proof.
  induction n as [|n IH]; intros lo cont body st Hst Hbody; cbn; [exact Hst|].
  destruct (cont lo); [|exact Hst]. apply IH; auto.
Qed.

Lemma add_symbol_bound (name : cstring) (symbol_table : SymbolTable) :
  length symbol_table <= MAX_SYMBOLS ->
  length (add_symbol name symbol_table) <= MAX_SYMBOLS.
Proof.
  intros Hlen. unfold add_symbol.
  destruct (negb (symbol_exists symbol_table name)); cbn [andb]; [|exact Hlen].
  destruct (length symbol_table <? MAX_SYMBOLS) eqn:Hroom; [|exact Hlen].
  apply Nat.ltb_lt in Hroom. rewrite length_app. cbn [length]. lia.
Qed.

Lemma add_symbol_full (name : cstring) (symbol_table : SymbolTable) :
  MAX_SYMBOLS <= length symbol_table -> add_symbol name symbol_table = symbol_table.
Proof.
  intros Hfull. unfold add_symbol.
  replace (length symbol_table <? MAX_SYMBOLS) with false
    by (symmetry; apply Nat.ltb_ge; exact Hfull).
  rewrite andb_false_r. reflexivity.
Qed.

Lemma python_declare_step_bound (tokens : list Token) (count i : nat)
    (symbol_table : SymbolTable) :
  length symbol_table <= MAX_SYMBOLS ->
  length (python_declare_step tokens count i symbol_table) <= MAX_SYMBOLS.
Proof.
  intros Hlen. unfold python_declare_step.
  assert (Hfirst : length
            (if is_type (token_at tokens i) IDENTIFIER
                && has_value (token_at tokens (i + 1)) "="
                && negb (has_value (token_at tokens (i + 1)) "==")
             then add_symbol (value (token_at tokens i)) symbol_table
             else symbol_table) <= MAX_SYMBOLS).
  { destruct (_ && _ && _); [apply add_symbol_bound|]; exact Hlen. }
  destruct (has_value (token_at tokens i) "def" || has_value (token_at tokens i) "for");
    [|exact Hfirst].
  apply for_while_invariant with (P := fun t => length t <= MAX_SYMBOLS);
    [exact Hfirst|].
  intros k s Hs.
  match goal with |- context [if ?b then add_symbol _ s else s] => destruct b end;
    [apply add_symbol_bound|]; exact Hs.
Qed.

Lemma typescript_declare_step_bound (tokens : list Token) (count i : nat)
    (symbol_table : SymbolTable) :
  length symbol_table <= MAX_SYMBOLS ->
  length (typescript_declare_step tokens count i symbol_table) <= MAX_SYMBOLS.
Proof.
  intros Hlen. unfold typescript_declare_step.
  assert (Hfirst : length
            (if is_declaration (token_at tokens i)
                && is_type (token_at tokens (i + 1)) IDENTIFIER
             then add_symbol (value (token_at tokens (i + 1))) symbol_table
             else symbol_table) <= MAX_SYMBOLS).
  { destruct (_ && _); [apply add_symbol_bound|]; exact Hlen. }
  destruct (has_value (token_at tokens i) "function"); [|exact Hfirst].
  apply for_while_invariant with (P := fun t => length t <= MAX_SYMBOLS);
    [exact Hfirst|].
  intros k s Hs.
  match goal with |- context [if ?b then add_symbol _ s else s] => destruct b end;
    [apply add_symbol_bound|]; exact Hs.
Qed.

Lemma all_before (P : nat -> bool) (lo n : nat) :
  forallb P (seq lo n) = true -> forall k, lo <= k < lo + n -> P k = true.
Proof.
  intros Hall k Hk. rewrite forallb_forall in Hall. apply Hall. apply in_seq. exact Hk.
Qed.

Lemma python_many_names_run :
  main_analysis LANG_PYTHON python_many_names
  = Some (mkAnalysis python_many_names_tokens []
            [ undeclared (mkToken (numbered 501) IDENTIFIER 1);
              undeclared (mkToken (numbered 501) IDENTIFIER 2) ]).
Proof. vm_compute. reflexivity. Qed.

Lemma python_many_names_declared :
  length python_many_names_tokens = 504 /\
  python_declared_at python_many_names_tokens 501 /\
  value (token_at python_many_names_tokens 501) = numbered 501 /\
  token_at python_many_names_tokens 503 = mkToken (numbered 501) IDENTIFIER 2 /\
  length (python_symbols python_many_names_tokens (length python_many_names_tokens))
  = MAX_SYMBOLS.
Proof.
  split; [vm_compute; reflexivity|].
  split; [|split; [vm_compute; reflexivity|split; vm_compute; reflexivity]].
  split; [vm_compute; reflexivity|]. right. exists 0.
  split; [split; [apply Nat.lt_0_succ | apply Nat.ltb_lt; vm_compute; reflexivity]|].
  split; [left; vm_compute; reflexivity|].
  intros k Hk Hcolon.
  assert (Hall : forallb (fun k => negb (has_value (token_at python_many_names_tokens k) ":"))
                   (seq 1 501) = true) by (vm_compute; reflexivity).
  pose proof (all_before _ 1 501 Hall k) as Hk'. cbv beta in Hk'.
  apply has_value_eq in Hcolon. rewrite Hcolon in Hk'.
  assert (Hr : 1 <= k < 1 + 501) by (clear - Hk; lia).
  specialize (Hk' Hr). discriminate Hk'.
Qed.

Lemma typescript_many_names_run :
  MAX_TOKENS < length typescript_many_names /\
  typescript_declared_at typescript_many_names 1001 /\
  value (token_at typescript_many_names 1001) = numbered 501 /\
  token_at typescript_many_names 1003 = mkToken (numbered 501) IDENTIFIER 1 /\
  length (typescript_symbols typescript_many_names (length typescript_many_names))
  = MAX_SYMBOLS /\
  In (undeclared (mkToken (numbered 501) IDENTIFIER 1))
     (check_undeclared_identifier_typescript typescript_many_names
        (length typescript_many_names) []).
Proof.
  split; [apply Nat.ltb_lt; vm_compute; reflexivity|].
  split; [split; [vm_compute; reflexivity
                 |split; [split; [apply Nat.lt_0_succ | apply Nat.ltb_lt; vm_compute; reflexivity]
                         |vm_compute; reflexivity]]|].
  split; [vm_compute; reflexivity|]. split; [vm_compute; reflexivity|].
  split; [vm_compute; reflexivity|]. vm_compute. left. reflexivity.
Qed.

(** * Further properties of the code *)

(** ** The file extension *)

Lemma strrchr_bound (s : cstring) (c : ascii) (offset : nat) :
  strrchr s c = Some offset -> offset < length s.
Proof.
  revert offset. induction s as [|x s IH]; intros offset; cbn; [discriminate|].
  destruct (strrchr s c) as [k|].
  - intros [= <-]. specialize (IH k eq_refl). lia.
  - destruct (Ascii.eqb x c); [intros [= <-]; lia | discriminate].
Qed.

Lemma strrchr_app (base s : cstring) (c : ascii) (offset : nat) :
  strrchr s c = Some offset -> strrchr (base ++ s) c = Some (length base + offset).
Proof.
  intros Hs. induction base as [|x base IH]; cbn; [exact Hs|].
  rewrite IH. reflexivity.
Qed.

Lemma streq_str (a : cstring) (text : string) : streq a (str text) = true <-> a = str text.
Proof. apply streq_eq. Qed.

(** X1. A file name is accepted exactly when it is a non-empty base
    followed by [.py] (Python), [.ts] or [.js] (TypeScript), compared
    case-sensitively; in particular a name that is only the extension, such
    as [.py], is rejected. *)
Theorem language_by_extension (filename : cstring) (lang : Language) :
  validate_and_detect_language filename = Some lang <->
  exists base : cstring,
    base <> [] /\
    ((filename = base ++ str ".py" /\ lang = LANG_PYTHON) \/
     ((filename = base ++ str ".ts" \/ filename = base ++ str ".js")
      /\ lang = LANG_TYPESCRIPT)).
Proof.
  unfold validate_and_detect_language. split.
  - destruct (strrchr filename ".") as [[|k]|] eqn:Hdot; try discriminate.
    apply strrchr_bound in Hdot.
    assert (Hbase : firstn (S k) filename <> []).
    { destruct filename; [cbn in Hdot; lia | discriminate]. }
    pose proof (firstn_skipn (S k) filename) as Hsplit.
    destruct (streq (skipn (S k) filename) (str ".py")) eqn:Hpy.
    { intros [= <-]. apply streq_str in Hpy. rewrite Hpy in Hsplit.
      exists (firstn (S k) filename). split; [exact Hbase|]. left. auto. }
    destruct (streq (skipn (S k) filename) (str ".ts")) eqn:Hts.
    { intros [= <-]. apply streq_str in Hts. rewrite Hts in Hsplit.
      exists (firstn (S k) filename). split; [exact Hbase|]. right. auto. }
    destruct (streq (skipn (S k) filename) (str ".js")) eqn:Hjs; [|discriminate].
    intros [= <-]. apply streq_str in Hjs. rewrite Hjs in Hsplit.
    exists (firstn (S k) filename). split; [exact Hbase|]. right. auto.
  - intros (base & Hbase & Hcases).
    assert (Hrun : forall ext : cstring,
               strrchr ext "." = Some 0 ->
               strrchr (base ++ ext) "." = Some (S (length base - 1))
               /\ skipn (S (length base - 1)) (base ++ ext) = ext).
    { intros ext Hext. rewrite (strrchr_app base ext "." 0 Hext).
      destruct base as [|b base]; [congruence|]. cbn [length].
      replace (S (length base) + 0) with (S (S (length base) - 1)) by lia.
      split; [reflexivity|].
      replace (S (S (length base) - 1)) with (length (b :: base)) by (cbn; lia).
      rewrite skipn_app, skipn_all, Nat.sub_diag. reflexivity. }
    destruct Hcases as [[-> ->]|[[->| ->] ->]].
    + destruct (Hrun (str ".py") eq_refl) as [-> ->]. reflexivity.
    + destruct (Hrun (str ".ts") eq_refl) as [-> ->]. reflexivity.
    + destruct (Hrun (str ".js") eq_refl) as [-> ->]. reflexivity.
Qed.

(** ** What the tokenizer passes over, keeps and counts *)

Lemma newlines_app (a b : cstring) : newlines (a ++ b) = newlines a + newlines b.
Proof. induction a as [|c a IH]; cbn; [reflexivity | rewrite IH; lia]. Qed.

Section TokenizerCoverage.

Variable lang : Language.

Lemma skip_whitespace_split (rest : cstring) :
  forall (l : nat) (r : cstring) (l' : nat),
  skip_whitespace rest l = (r, l') ->
  exists ws : cstring,
    rest = ws ++ r /\ forallb isspace ws = true /\ l' = l + newlines ws /\
    match r with c :: _ => isspace c = false | [] => True end.
Proof.
  induction rest as [|c rest IH]; intros l r l'; cbn [skip_whitespace].
  - intros [= <- <-]. exists []. cbn. auto.
  - destruct (isspace c) eqn:Hc.
    + intros H. apply IH in H. destruct H as (ws & -> & Hws & -> & Hr).
      exists (c :: ws). cbn. rewrite Hc, Hws. repeat split; auto.
      destruct (Ascii.eqb c newline); lia.
    + intros [= <- <-]. exists []. cbn. rewrite Nat.add_0_r. auto.
Qed.

Lemma scan_while_all (p : ascii -> bool) (rest : cstring) :
  forall v r : cstring, scan_while p rest = (v, r) -> forallb p v = true.
Proof.
  induction rest as [|c rest IH]; intros v r; cbn [scan_while].
  - intros [= <- <-]. reflexivity.
  - destruct (p c) eqn:Hc.
    + destruct (scan_while p rest) as [v0 r0]. intros [= <- <-].
      cbn. rewrite Hc. exact (IH v0 r0 eq_refl).
    + intros [= <- <-]. reflexivity.
Qed.

Lemma scan_number_all (rest : cstring) :
  forall (d : bool) (v r : cstring) (d' : bool),
  scan_number rest d = (v, r, d') ->
  forallb (fun c => isdigit c || Ascii.eqb c ".") v = true /\
  d' = d || existsb (fun c => Ascii.eqb c ".") v.
Proof.
  induction rest as [|c rest IH]; intros d v r d'; cbn [scan_number].
  - intros [= <- <- <-]. cbn. rewrite orb_false_r. auto.
  - destruct (isdigit c || Ascii.eqb c ".") eqn:Hc.
    + destruct (scan_number rest _) as [[v0 r0] d0] eqn:H0. intros [= <- <- <-].
      apply IH in H0. destruct H0 as [Hall ->]. cbn. rewrite Hc, Hall.
      split; [reflexivity|]. destruct (Ascii.eqb c "."), d; reflexivity.
    + intros [= <- <- <-]. cbn. rewrite orb_false_r. auto.
Qed.

Lemma digits_without_point (v : cstring) :
  forallb (fun c => isdigit c || Ascii.eqb c ".") v = true ->
  existsb (fun c => Ascii.eqb c ".") v = false ->
  forallb isdigit v = true.
Proof.
  induction v as [|c v IH]; cbn; [reflexivity|].
  intros Hall Hno. apply andb_true_iff in Hall. destruct Hall as [Hc Hall].
  apply orb_false_iff in Hno. destruct Hno as [Hp Hno].
  rewrite Hp, orb_false_r in Hc. rewrite Hc. cbn. auto.
Qed.

Lemma scan_string_lines (quote_char : ascii) (n : nat) :
  forall (rest : cstring) (l : nat) (v r : cstring) (l' : nat),
  length rest <= n ->
  scan_string lang quote_char rest l = (v, r, l') -> l' <= l + newlines v.
Proof.
  induction n as [|n IH]; intros rest l v r l' Hn.
  - destruct rest; [|cbn in Hn; lia]. cbn. intros [= <- <- <-]. cbn. lia.
  - destruct rest as [|c rest1]; [cbn; intros [= <- <- <-]; cbn; lia|].
    cbn [scan_string]. destruct (Ascii.eqb c quote_char).
    + intros [= <- <- <-]. cbn. lia.
    + assert (Hplain :
        (let '(v0, r0, l0) :=
           scan_string lang quote_char rest1
             (if is_typescript lang && Ascii.eqb c newline then S l else l) in
         (c :: v0, r0, l0)) = (v, r, l') -> l' <= l + newlines v).
      { destruct (scan_string lang quote_char rest1 _) as [[v0 r0] l0] eqn:H0.
        intros [= <- <- <-]. apply IH in H0; [|cbn in Hn; lia].
        cbn [newlines].
        destruct (is_typescript lang), (Ascii.eqb c newline); cbn [andb] in H0; lia. }
      destruct (Ascii.eqb c backslash) eqn:Hb; [|exact Hplain].
      destruct rest1 as [|c2 rest2]; [exact Hplain|].
      destruct (scan_string lang quote_char rest2 _) as [[v0 r0] l0] eqn:H0.
      intros [= <- <- <-]. apply IH in H0; [|cbn in Hn; lia].
      cbn [newlines].
      destruct (is_typescript lang), (Ascii.eqb c2 newline), (Ascii.eqb c newline);
        cbn [andb] in H0; lia.
Qed.

Lemma scan_operator_all (rest : cstring) :
  forall (k : nat) (v r : cstring),
  scan_operator rest k = (v, r) ->
  forallb is_operator_char v = true /\ length v <= 3 - k.
Proof.
  induction rest as [|c rest IH]; intros k v r; cbn [scan_operator].
  - intros [= <- <-]. cbn [forallb length]. split; [reflexivity | lia].
  - destruct (is_operator_char c) eqn:Hc; cbn [andb].
    + destruct (k <? 3) eqn:Hk.
      * destruct (scan_operator rest (S k)) as [v0 r0] eqn:H0. intros [= <- <-].
        apply IH in H0. destruct H0 as [Hall Hlen]. apply Nat.ltb_lt in Hk.
        cbn [forallb length]. rewrite Hc, Hall. split; [reflexivity | lia].
      * intros [= <- <-]. cbn [forallb length]. split; [reflexivity | lia].
    + intros [= <- <-]. cbn [forallb length]. split; [reflexivity | lia].
Qed.

Lemma weave_widen (skipped : cstring) (gaps values : list cstring) :
  length gaps = length values -> values <> [] ->
  weave (widen_gap skipped gaps) values = skipped ++ weave gaps values.
Proof.
  destruct gaps as [|g gaps], values as [|v values]; cbn; try discriminate; try congruence.
  intros _ _. rewrite <- app_assoc. reflexivity.
Qed.

Lemma widen_gap_length (skipped : cstring) (gaps : list cstring) :
  length (widen_gap skipped gaps) = length gaps.
Proof. destruct gaps; reflexivity. Qed.

Lemma widen_gap_skippable (skipped : cstring) (gaps : list cstring) :
  forallb (skippable lang) skipped = true ->
  Forall (fun gap => forallb (skippable lang) gap = true) gaps ->
  Forall (fun gap => forallb (skippable lang) gap = true) (widen_gap skipped gaps).
Proof.
  intros Hs Hg. destruct gaps as [|g gaps]; [constructor|].
  inversion Hg; subst. constructor; [|assumption].
  rewrite forallb_app, Hs. assumption.
Qed.

Lemma spaces_skippable (ws : cstring) :
  forallb isspace ws = true -> forallb (skippable lang) ws = true.
Proof.
  induction ws as [|c ws IH]; cbn; [reflexivity|].
  intros H. apply andb_true_iff in H. destruct H as [Hc Hws].
  unfold skippable at 1. rewrite Hc. cbn. auto.
Qed.

(** The loop from any state: the array only grows; the new tokens and the
    stretches passed over before each of them spell the text consumed; the
    count never passes [MAX_TOKENS]; what is left unread is passed-over
    text unless the array is full. *)
Lemma tokenize_loop_coverage (fuel : nat) :
  forall (rest : cstring) (l : nat) (tokens : list Token) (token_count : nat),
  length rest < fuel ->
  exists (new : list Token) (gaps : list cstring) (tail : cstring),
    tokenize_loop lang fuel rest l tokens token_count = Some (tokens ++ new) /\
    length gaps = length new /\
    rest = weave gaps (map value new) ++ tail /\
    Forall (fun gap => forallb (skippable lang) gap = true) gaps /\
    (forallb (skippable lang) tail = true \/ MAX_TOKENS <= token_count + length new) /\
    token_count + length new <= Nat.max token_count MAX_TOKENS /\
    Forall (fun t => kind_fits lang t = true
                     /\ l <= line t <= l + newlines rest) new.
Proof.
  induction fuel as [|fuel IH]; intros rest l tokens token_count Hfuel; [lia|].
  cbn [tokenize_loop].
  destruct rest as [|c0 rest0].
  { exists [], [], []. rewrite app_nil_r. cbn. repeat split; auto; lia. }
  destruct (token_count <? MAX_TOKENS) eqn:Hroom.
  2:{ apply Nat.ltb_ge in Hroom. exists [], [], (c0 :: rest0).
      rewrite app_nil_r. cbn [length weave map app]. repeat split; auto; lia. }
  apply Nat.ltb_lt in Hroom.
  destruct (skip_whitespace (c0 :: rest0) l) as [rest1 l1] eqn:Hskip.
  apply skip_whitespace_split in Hskip.
  destruct Hskip as (ws & Hrest & Hws & Hl1 & Hnospace).
  rewrite Hrest in *. clear Hrest c0 rest0.
  pose proof (spaces_skippable ws Hws) as Hwskip.
  destruct rest1 as [|c rest'].
  { exists [], [], ws. rewrite !app_nil_r. cbn [length weave map app].
    repeat split; auto; lia. }
  rewrite length_app in Hfuel. cbn [length] in Hfuel.
  (* a step that appends the token [t] and continues on [r] *)
  assert (Hemit : forall (v r : cstring) (ty : TokenType) (l2 : nat),
            c :: rest' = v ++ r -> v <> [] ->
            kind_fits lang (mkToken v ty l2) = true ->
            l1 <= l2 <= l1 + newlines v ->
            exists (new : list Token) (gaps : list cstring) (tail : cstring),
              tokenize_loop lang fuel r l2 (tokens ++ [mkToken v ty l2]) (S token_count)
              = Some (tokens ++ new) /\
              length gaps = length new /\
              ws ++ c :: rest' = weave gaps (map value new) ++ tail /\
              Forall (fun gap => forallb (skippable lang) gap = true) gaps /\
              (forallb (skippable lang) tail = true
               \/ MAX_TOKENS <= token_count + length new) /\
              token_count + length new <= Nat.max token_count MAX_TOKENS /\
              Forall (fun t => kind_fits lang t = true
                               /\ l <= line t <= l + newlines (ws ++ c :: rest')) new).
  { intros v r ty l2 Hsplit Hv Hkind Hl2.
    assert (Hr : length r < fuel).
    { assert (Hlen : length (c :: rest') = length v + length r)
        by (rewrite Hsplit; apply length_app).
      cbn [length] in Hlen. destruct v; [congruence|]. cbn [length] in Hlen. lia. }
    destruct (IH r l2 (tokens ++ [mkToken v ty l2]) (S token_count) Hr)
      as (new & gaps & tail & Hrun & Hg & Hweave & Hskipped & Htail & Hcap & Hall).
    assert (Hlines : Forall (fun t => kind_fits lang t = true
                       /\ l <= line t <= l + newlines (ws ++ c :: rest'))
                       (mkToken v ty l2 :: new)).
    { rewrite newlines_app, Hsplit, newlines_app. constructor.
      + cbn [line]. split; [exact Hkind | lia].
      + eapply Forall_impl; [|exact Hall]. cbn beta. intros t (Hk & Hlo & Hhi).
        split; [exact Hk | lia]. }
    exists (mkToken v ty l2 :: new), (ws :: gaps), tail.
    rewrite Hrun, <- app_assoc. cbn [app length map weave value].
    split; [reflexivity|]. split; [lia|].
    split; [rewrite Hsplit, Hweave, <- !app_assoc; reflexivity|].
    split; [constructor; assumption|].
    split; [destruct Htail as [Ht|Ht]; [left; exact Ht | right; lia]|].
    split; [lia | exact Hlines]. }
  destruct (ident_start lang c) eqn:Hid.
  { destruct (scan_while (ident_char lang) (c :: rest')) as [v r] eqn:Hscan.
    pose proof (scan_while_first _ _ _ _ _ (ident_start_char lang c Hid) Hscan) as Hv.
    pose proof (scan_while_all _ _ _ _ Hscan) as Hall.
    apply scan_while_spec in Hscan.
    apply Hemit; auto; [|lia].
    unfold kind_fits. cbn [value type].
    assert (Hhead : match v with c1 :: _ => ident_start lang c1 | [] => false end = true).
    { destruct v as [|c1 v]; [congruence|]. cbn in Hscan. injection Hscan as <- _. exact Hid. }
    destruct (is_keyword lang v); cbn [type]; rewrite Hall; [reflexivity|].
    rewrite Hhead. reflexivity. }
  destruct (isdigit c) eqn:Hdigit.
  { destruct (scan_number (c :: rest') false) as [[v r] d] eqn:Hscan.
    pose proof (scan_number_first _ _ _ _ _ _ Hdigit Hscan) as Hv.
    pose proof (scan_number_all _ _ _ _ _ Hscan) as [Hall Hd].
    apply scan_number_spec in Hscan. cbn [orb] in Hd.
    apply Hemit; auto; [|lia].
    unfold kind_fits. cbn [value type].
    assert (Hhead : match v with c1 :: _ => isdigit c1 | [] => false end = true).
    { destruct v as [|c1 v]; [congruence|]. cbn in Hscan. injection Hscan as <- _. exact Hdigit. }
    destruct d; cbn [type].
    - rewrite Hall, <- Hd, Hhead. reflexivity.
    - rewrite (digits_without_point v Hall (eq_sym Hd)).
      destruct v; [congruence | reflexivity]. }
  destruct (string_start lang c) eqn:Hquote.
  { destruct (scan_string lang c rest' l1) as [[v r] l2] eqn:Hscan.
    pose proof (scan_string_lines c (length rest') _ _ _ _ _ (Nat.le_refl _) Hscan) as Hhi.
    apply (scan_string_spec lang c (length rest')) in Hscan; [|lia].
    destruct Hscan as [Hscan Hlo].
    destruct r as [|q r'].
    - apply Hemit; auto.
      + rewrite Hscan, !app_nil_r. reflexivity.
      + discriminate.
      + cbn [newlines]. rewrite app_nil_r. lia.
    - apply Hemit; auto.
      + rewrite Hscan. cbn [app]. rewrite <- app_assoc. reflexivity.
      + discriminate.
      + cbn [newlines]. rewrite newlines_app. lia. }
  destruct (is_operator_char c) eqn:Hop.
  { destruct (scan_operator (c :: rest') 0) as [v r] eqn:Hscan.
    pose proof (scan_operator_first _ _ _ _ Hop Hscan) as Hv.
    pose proof (scan_operator_all _ _ _ _ Hscan) as [Hall Hlen].
    apply scan_operator_spec in Hscan.
    apply Hemit; auto; [|lia].
    unfold kind_fits. cbn [value type]. rewrite Hall.
    replace (length v <=? 3) with true by (symmetry; apply Nat.leb_le; lia).
    destruct v; [congruence | reflexivity]. }
  destruct (is_delimiter_char c) eqn:Hdelim.
  { apply Hemit; auto; [discriminate|lia]. }
  (* an unknown character is passed over *)
  assert (Hr : length rest' < fuel) by lia.
  destruct (IH rest' l1 tokens token_count Hr)
    as (new & gaps & tail & Hrun & Hg & Hweave & Hskipped & Htail & Hcap & Hall).
  assert (Hpass : forallb (skippable lang) (ws ++ [c]) = true).
  { rewrite forallb_app, Hwskip. cbn. unfold skippable.
    rewrite Hnospace, Hid, Hdigit, Hquote, Hop, Hdelim. reflexivity. }
  assert (Hlines : Forall (fun t => kind_fits lang t = true
                     /\ l <= line t <= l + newlines (ws ++ c :: rest')) new).
  { eapply Forall_impl; [|exact Hall]. cbn beta. intros t (Hk & Hlo & Hhi).
    split; [exact Hk|]. rewrite newlines_app. cbn [newlines]. lia. }
  destruct new as [|t new].
  - exists [], [], (ws ++ c :: tail).
    destruct gaps; [|discriminate]. cbn [weave map app] in Hweave.
    rewrite Hrun, Hweave. cbn [length weave map app].
    repeat split; auto.
    destruct Htail as [Ht|Ht]; [left | right; exact Ht].
    change (c :: tail) with ([c] ++ tail). rewrite app_assoc, forallb_app, Hpass. exact Ht.
  - exists (t :: new), (widen_gap (ws ++ [c]) gaps), tail.
    rewrite Hrun, widen_gap_length, weave_widen
      by (rewrite ?length_map; cbn [map]; solve [exact Hg | discriminate]).
    rewrite Hweave, <- !app_assoc. cbn [app].
    repeat split; auto.
    + apply widen_gap_skippable; assumption.
    + rewrite <- Hweave. exact Hlines.
Qed.

End TokenizerCoverage.

(** X2. For every text and either language the tokenizer returns; when
    every token fits [Token.value] (fewer than 256 characters), the text is
    spelled by the tokens in order, each preceded by a stretch of
    passed-over characters (white space, or characters that start no
    token), followed by a tail; the tail too is passed-over text unless
    the array has reached [MAX_TOKENS].  So no character is invented,
    moved or shared between two tokens, and none is lost but the
    passed-over ones and what lies beyond a full array. *)
Theorem tokens_spell_the_text (lang : Language) (source_code : cstring) :
  exists tokens : list Token,
    tokenize lang source_code = Some tokens /\
    (Forall value_fits tokens ->
     exists (gaps : list cstring) (tail : cstring),
       length gaps = length tokens /\
       source_code = weave gaps (map value tokens) ++ tail /\
       Forall (fun gap => forallb (skippable lang) gap = true) gaps /\
       (forallb (skippable lang) tail = true \/ length tokens = MAX_TOKENS)).
Proof.
  destruct (tokenize_loop_coverage lang (S (strlen source_code)) source_code 1 [] 0)
    as (new & gaps & tail & Hrun & Hg & Hweave & Hskipped & Htail & Hcap & _).
  { unfold strlen. lia. }
  exists new. cbn [app Nat.add Nat.max] in *. split; [exact Hrun|].
  intros _. exists gaps, tail.
  repeat split; auto. destruct Htail as [Ht|Ht]; [left; exact Ht | right; lia].
Qed.

Lemma tokens_spell_the_text_witness :
  exists tokens : list Token,
    tokenize LANG_PYTHON scenario_E = Some tokens /\
    Forall value_fits tokens /\
    exists (gaps : list cstring) (tail : cstring),
      length gaps = length tokens /\
      scenario_E = weave gaps (map value tokens) ++ tail /\
      Forall (fun gap => forallb (skippable LANG_PYTHON) gap = true) gaps /\
      (forallb (skippable LANG_PYTHON) tail = true \/ length tokens = MAX_TOKENS).
Proof.
  destruct (tokens_spell_the_text LANG_PYTHON scenario_E) as (tokens & Hrun & Hspell).
  exists tokens.
  assert (Hfits : Forall value_fits tokens).
  { vm_compute in Hrun. injection Hrun as <-.
    apply Forall_forall. intros t Ht. apply Nat.ltb_lt.
    revert t Ht. apply forallb_forall. reflexivity. }
  split; [exact Hrun | split; [exact Hfits | exact (Hspell Hfits)]].
Defined.

(** X3. The tokenizer never returns more than [MAX_TOKENS] = 1000 tokens. *)
Theorem token_count_is_capped (lang : Language) (source_code : cstring) :
  exists tokens : list Token,
    tokenize lang source_code = Some tokens /\ length tokens <= MAX_TOKENS.
Proof.
  destruct (tokenize_loop_coverage lang (S (strlen source_code)) source_code 1 [] 0)
    as (new & gaps & tail & Hrun & _ & _ & _ & _ & Hcap & _).
  { unfold strlen. lia. }
  exists new. cbn [app Nat.add Nat.max] in *. auto.
Qed.

(** X4. When every token fits [Token.value] (fewer than 256 characters),
    every token's text fits its kind: a KEYWORD is an entry of the
    language's keyword table and an IDENTIFIER is not, both made of
    identifier characters only; an INT_LITERAL is all digits; a
    FLOAT_LITERAL starts with a digit, is made of digits and points and has
    at least one point; a STRING_LITERAL starts with a quote character of
    the language; an OPERATOR is one to three operator characters; a
    DELIMITER is a single delimiter character. *)
Theorem token_kinds_fit (lang : Language) (source_code : cstring) :
  exists tokens : list Token,
    tokenize lang source_code = Some tokens /\
    (Forall value_fits tokens ->
     Forall (fun t => kind_fits lang t = true) tokens).
Proof.
  destruct (tokenize_loop_coverage lang (S (strlen source_code)) source_code 1 [] 0)
    as (new & gaps & tail & Hrun & _ & _ & _ & _ & _ & Hall).
  { unfold strlen. lia. }
  exists new. split; [exact Hrun|]. intros _.
  eapply Forall_impl; [|exact Hall]. cbn beta. intros t [Hk _]. exact Hk.
Qed.

Lemma token_kinds_fit_witness :
  exists tokens : list Token,
    tokenize LANG_TYPESCRIPT (str "let x: boolean = y") = Some tokens /\
    Forall value_fits tokens /\
    Forall (fun t => kind_fits LANG_TYPESCRIPT t = true) tokens.
Proof.
  destruct (token_kinds_fit LANG_TYPESCRIPT (str "let x: boolean = y"))
    as (tokens & Hrun & Hkinds).
  exists tokens.
  assert (Hfits : Forall value_fits tokens).
  { vm_compute in Hrun. injection Hrun as <-.
    apply Forall_forall. intros t Ht. apply Nat.ltb_lt.
    revert t Ht. apply forallb_forall. reflexivity. }
  split; [exact Hrun | split; [exact Hfits | exact (Hkinds Hfits)]].
Defined.

(** X5. Every token's line number lies between 1 and 1 plus the number of
    line breaks of the text given to the tokenizer. *)
Theorem token_lines_within_text (lang : Language) (source_code : cstring) :
  exists tokens : list Token,
    tokenize lang source_code = Some tokens /\
    Forall (fun t => 1 <= line t <= 1 + newlines source_code) tokens.
Proof.
  destruct (tokenize_loop_coverage lang (S (strlen source_code)) source_code 1 [] 0)
    as (new & gaps & tail & Hrun & _ & _ & _ & _ & _ & Hall).
  { unfold strlen. lia. }
  exists new. split; [exact Hrun|].
  eapply Forall_impl; [|exact Hall]. cbn beta. intros t [_ Hl]. exact Hl.
Qed.

(** ** Line accounting of the comment extractors *)

Lemma newlines_none (s : cstring) : ~ In newline s -> newlines s = 0.
Proof.
  induction s as [|c s IH]; cbn; [reflexivity|]. intros Hno.
  destruct (Ascii.eqb c newline) eqn:Hc.
  - apply Ascii.eqb_eq in Hc. exfalso. apply Hno. left. exact Hc.
  - rewrite IH; [reflexivity|]. intros Hin. apply Hno. right. exact Hin.
Qed.

Lemma copy_until_quotes_lines (q : ascii) (rest : cstring) :
  forall (l : nat) (copied r : cstring) (l' : nat),
  Ascii.eqb q newline = false ->
  copy_until_quotes q rest l = (copied, r, l') -> l' = l + newlines copied.
Proof.
  induction rest as [|c0 rest IH]; intros l copied r l' Hq.
  - cbn. intros [= <- <- <-]. cbn. lia.
  - cbn [copy_until_quotes]. destruct rest as [|c1 [|c2 rest]].
    + intros [= <- <- <-]. cbn. lia.
    + intros [= <- <- <-]. cbn. lia.
    + destruct (three_of q (c0 :: c1 :: c2 :: rest)) eqn:H3.
      * intros [= <- <- <-]. cbn [three_of] in H3.
        apply andb_true_iff in H3. destruct H3 as [H3 H2].
        apply andb_true_iff in H3. destruct H3 as [H0 H1].
        apply Ascii.eqb_eq in H0, H1, H2. subst c0 c1 c2.
        cbn [firstn newlines]. rewrite Hq. lia.
      * destruct (copy_until_quotes q (c1 :: c2 :: rest) _) as [[k r0] l0] eqn:Hk.
        intros [= <- <- <-]. apply IH in Hk; [|exact Hq]. cbn [newlines].
        destruct (Ascii.eqb c0 newline); lia.
Qed.

Lemma copy_until_star_slash_lines (rest : cstring) :
  forall (l : nat) (copied r : cstring) (l' : nat),
  copy_until_star_slash rest l = (copied, r, l') -> l' = l + newlines copied.
Proof.
  induction rest as [|c0 rest IH]; intros l copied r l'.
  - cbn. intros [= <- <- <-]. cbn. lia.
  - cbn [copy_until_star_slash]. destruct rest as [|c1 rest].
    + intros [= <- <- <-]. cbn. lia.
    + destruct (two_of "*" "/" (c0 :: c1 :: rest)) eqn:H2.
      * intros [= <- <- <-]. cbn [two_of] in H2.
        apply andb_true_iff in H2. destruct H2 as [H0 H1].
        apply Ascii.eqb_eq in H0, H1. subst c0 c1. cbn. lia.
      * destruct (copy_until_star_slash (c1 :: rest) _) as [[k r0] l0] eqn:Hk.
        intros [= <- <- <-]. apply IH in Hk. cbn [newlines].
        destruct (Ascii.eqb c0 newline); lia.
Qed.

Lemma comment_within_wider (lo lo' hi hi' : nat) (comments : list Comment) :
  lo' <= lo -> hi <= hi' ->
  Forall (comment_within lo hi) comments -> Forall (comment_within lo' hi') comments.
Proof.
  intros Hlo Hhi. apply Forall_impl. intros c (H1 & H2 & H3 & H4 & H5).
  repeat split; auto; lia.
Qed.

Lemma starts_sorted (l lo hi : nat) (comments : list Comment) :
  l <= lo -> Forall (comment_within lo hi) comments ->
  StronglySorted le (map start_line comments) ->
  StronglySorted le (l :: map start_line comments).
Proof.
  intros Hl Hall Hsorted. constructor; [exact Hsorted|].
  apply Forall_map. eapply Forall_impl; [|exact Hall].
  intros c (H1 & _). cbn. lia.
Qed.

Lemma extract_python_loop_lines (fuel : nat) :
  forall (rest : cstring) (comments : list Comment) (clean : cstring) (l : nat),
  length rest < fuel ->
  exists (comments' : list Comment) (clean' : cstring),
    extract_python_loop fuel rest comments clean l
    = Some (comments ++ comments', clean ++ clean') /\
    Forall (comment_within l (l + newlines rest)) comments' /\
    StronglySorted le (map start_line comments') /\
    newlines rest = newlines clean' + comment_newlines comments'.
Proof.
  induction fuel as [|fuel IH]; intros rest comments clean l Hfuel; [lia|].
  destruct rest as [|c rest'].
  - exists [], []. cbn. rewrite !app_nil_r. repeat split; constructor.
  - cbn [extract_python_loop].
    destruct (Ascii.eqb c "#") eqn:Hhash.
    + destruct (copy_line (c :: rest')) as [k r] eqn:Hk.
      assert (Hnl : Ascii.eqb c newline = false).
      { apply Ascii.eqb_eq in Hhash. subst c. reflexivity. }
      pose proof (copy_line_progress _ _ _ _ Hnl Hk) as Hlen.
      assert (Hk0 : k <> []).
      { cbn [copy_line] in Hk. rewrite Hnl in Hk.
        destruct (copy_line rest'). injection Hk as <- _. discriminate. }
      apply copy_line_spec in Hk. destruct Hk as (Hk & Hnone & _).
      apply newlines_none in Hnone.
      destruct (IH r (comments ++ [mkComment k l l false]) clean l)
        as (cs & cl & Hrun & Hall & Hsorted & Hcount); [lia|].
      exists (mkComment k l l false :: cs), cl.
      rewrite Hrun, <- app_assoc, Hk, newlines_app, Hnone. cbn [app Nat.add].
      split; [reflexivity|]. split; [|split].
      * constructor; [|exact Hall].
        unfold comment_within. cbn. rewrite Hnone. repeat split; auto; lia.
      * cbn [map start_line]. eapply starts_sorted; eauto.
      * unfold comment_newlines in *. cbn. rewrite Hnone. exact Hcount.
    + destruct (three_of squote (c :: rest') || three_of dquote (c :: rest')) eqn:H3.
      * assert (Hq : Ascii.eqb c newline = false).
        { apply orb_true_iff in H3. cbn [three_of] in H3.
          destruct rest' as [|c1 [|c2 rest'']];
            try (destruct H3; discriminate).
          destruct H3 as [H3|H3];
            apply andb_true_iff in H3; destruct H3 as [H3 _];
            apply andb_true_iff in H3; destruct H3 as [H3 _];
            apply Ascii.eqb_eq in H3; subst c; reflexivity. }
        assert (Hsplit : c :: rest' = firstn 3 (c :: rest') ++ skipn 3 (c :: rest')
                         /\ 3 <= length (c :: rest')).
        { apply orb_true_iff in H3. destruct H3 as [H3|H3];
            apply three_of_length in H3; exact H3. }
        destruct Hsplit as [Hsplit Hlen3].
        assert (Hopen : newlines (firstn 3 (c :: rest')) = 0).
        { apply orb_true_iff in H3.
          destruct rest' as [|c1 [|c2 rest'']]; try (cbn in Hlen3; lia).
          cbn [three_of] in H3.
          assert (Hsame : c1 = c /\ c2 = c).
          { destruct H3 as [H3|H3];
              apply andb_true_iff in H3; destruct H3 as [H3 Hc2];
              apply andb_true_iff in H3; destruct H3 as [Hc0 Hc1];
              apply Ascii.eqb_eq in Hc0, Hc1, Hc2; subst; auto. }
          destruct Hsame as [-> ->]. cbn. rewrite Hq. reflexivity. }
        destruct (copy_until_quotes c (skipn 3 (c :: rest')) l) as [[k r] l'] eqn:Hk.
        pose proof (copy_until_quotes_lines c _ _ _ _ _ Hq Hk) as Hl'.
        apply copy_until_quotes_spec in Hk. destruct Hk as [Hk _].
        assert (Hlen : length r < length (c :: rest')).
        { pose proof (length_skipn 3 (c :: rest')) as Hs.
          rewrite Hk, length_app in Hs. lia. }
        assert (Hnew : newlines (c :: rest')
                       = newlines (firstn 3 (c :: rest') ++ k) + newlines r).
        { rewrite Hsplit at 1. rewrite Hk, !newlines_app. lia. }
        rewrite newlines_app, Hopen in Hnew. cbn [Nat.add] in Hnew.
        set (cm := mkComment (firstn 3 (c :: rest') ++ k) l l' true).
        destruct (IH r (comments ++ [cm]) clean l')
          as (cs & cl & Hrun & Hall & Hsorted & Hcount); [lia|].
        exists (cm :: cs), cl.
        rewrite Hrun, <- app_assoc. cbn [app].
        split; [reflexivity|]. split; [|split].
        -- constructor.
           ++ unfold comment_within, cm. cbn [start_line end_line content is_multiline].
              rewrite newlines_app, Hopen, Hnew. cbn [Nat.add].
              repeat split; try lia; try discriminate.
           ++ apply (comment_within_wider l' l (l' + newlines r)); auto; lia.
        -- cbn [map start_line cm]. eapply starts_sorted; [|exact Hall|exact Hsorted]. lia.
        -- unfold comment_newlines, list_sum in *. cbn [map fold_right content cm].
           rewrite newlines_app, Hopen, Hnew. cbn [Nat.add]. lia.
      * destruct (IH rest' comments (clean ++ [c])
                    (if Ascii.eqb c newline then S l else l))
          as (cs & cl & Hrun & Hall & Hsorted & Hcount); [cbn in Hfuel; lia|].
        exists cs, (c :: cl).
        rewrite Hrun, <- app_assoc. cbn [app newlines].
        split; [reflexivity|]. split; [|split; [exact Hsorted | lia]].
        eapply comment_within_wider; [| |exact Hall];
          destruct (Ascii.eqb c newline); lia.
Qed.

Lemma two_of_chars (a b : ascii) (rest : cstring) :
  two_of a b rest = true -> exists rest', rest = a :: b :: rest'.
Proof.
  destruct rest as [|c0 [|c1 rest']]; cbn; try discriminate.
  intros H. apply andb_true_iff in H. destruct H as [H0 H1].
  apply Ascii.eqb_eq in H0, H1. subst. eauto.
Qed.

Lemma extract_typescript_loop_lines (fuel : nat) :
  forall (rest : cstring) (comments : list Comment) (clean : cstring) (l : nat),
  length rest < fuel ->
  exists (comments' : list Comment) (clean' : cstring),
    extract_typescript_loop fuel rest comments clean l
    = Some (comments ++ comments', clean ++ clean') /\
    Forall (comment_within l (l + newlines rest)) comments' /\
    StronglySorted le (map start_line comments') /\
    newlines rest = newlines clean' + comment_newlines comments'.
Proof.
  induction fuel as [|fuel IH]; intros rest comments clean l Hfuel; [lia|].
  destruct rest as [|c rest'].
  - exists [], []. cbn. rewrite !app_nil_r. repeat split; constructor.
  - cbn [extract_typescript_loop].
    destruct (two_of "/" "/" (c :: rest')) eqn:Hline.
    + destruct (two_of_chars _ _ _ Hline) as (rest'' & Hshape).
      injection Hshape as -> ->.
      destruct (copy_line ("/"%char :: "/"%char :: rest'')) as [k r] eqn:Hk.
      pose proof (copy_line_progress "/" _ _ _ eq_refl Hk) as Hlen.
      assert (Hk0 : k <> []).
      { cbn [copy_line] in Hk. change (Ascii.eqb "/" newline) with false in Hk.
        destruct (copy_line rest''). injection Hk as <- _. discriminate. }
      apply copy_line_spec in Hk. destruct Hk as (Hk & Hnone & _).
      apply newlines_none in Hnone.
      destruct (IH r (comments ++ [mkComment k l l false]) clean l)
        as (cs & cl & Hrun & Hall & Hsorted & Hcount); [lia|].
      exists (mkComment k l l false :: cs), cl.
      rewrite Hrun, <- app_assoc, Hk, newlines_app, Hnone. cbn [app Nat.add].
      split; [reflexivity|]. split; [|split].
      * constructor; [|exact Hall].
        unfold comment_within. cbn. rewrite Hnone. repeat split; auto; lia.
      * cbn [map start_line]. eapply starts_sorted; eauto.
      * unfold comment_newlines in *. cbn. rewrite Hnone. exact Hcount.
    + destruct (two_of "/" "*" (c :: rest')) eqn:Hblock.
      * destruct (two_of_chars _ _ _ Hblock) as (rest'' & Hshape).
        injection Hshape as -> ->. cbn [firstn skipn].
        destruct (copy_until_star_slash rest'' l) as [[k r] l'] eqn:Hk.
        pose proof (copy_until_star_slash_lines _ _ _ _ _ Hk) as Hl'.
        apply copy_until_star_slash_spec in Hk. destruct Hk as [Hk _].
        assert (Hlen : length r < length ("/"%char :: "*"%char :: rest'')).
        { rewrite Hk. cbn [length]. rewrite length_app. lia. }
        assert (Hnew : newlines ("/"%char :: "*"%char :: rest'')
                       = newlines k + newlines r).
        { change (newlines ("/"%char :: "*"%char :: rest'')) with (newlines rest'').
          rewrite Hk at 1. apply newlines_app. }
        set (cm := mkComment (["/"%char; "*"%char] ++ k) l l' true).
        destruct (IH r (comments ++ [cm]) clean l')
          as (cs & cl & Hrun & Hall & Hsorted & Hcount); [lia|].
        exists (cm :: cs), cl.
        rewrite Hrun, <- app_assoc. cbn [app].
        split; [reflexivity|]. split; [|split].
        -- constructor.
           ++ unfold comment_within, cm. cbn [start_line end_line content is_multiline].
              rewrite Hnew. change (newlines (["/"%char; "*"%char] ++ k)) with (newlines k).
              repeat split; try lia; try discriminate.
           ++ apply (comment_within_wider l' l (l' + newlines r)); auto; lia.
        -- cbn [map start_line cm]. eapply starts_sorted; [|exact Hall|exact Hsorted]. lia.
        -- unfold comment_newlines, list_sum in *. cbn [map fold_right content cm].
           rewrite Hnew. change (newlines (["/"%char; "*"%char] ++ k)) with (newlines k).
           lia.
      * destruct (IH rest' comments (clean ++ [c])
                    (if Ascii.eqb c newline then S l else l))
          as (cs & cl & Hrun & Hall & Hsorted & Hcount); [cbn in Hfuel; lia|].
        exists cs, (c :: cl).
        rewrite Hrun, <- app_assoc. cbn [app newlines].
        split; [reflexivity|]. split; [|split; [exact Hsorted | lia]].
        eapply comment_within_wider; [| |exact Hall];
          destruct (Ascii.eqb c newline); lia.
Qed.

(** X6. For every text and either language whose comments all fit
    [Comment.content] (fewer than [MAX_LENGTH] characters), the comments
    come out in the order of their first lines; each starts on a line from
    1 on, ends exactly as many lines further as its content has line
    breaks, and not after the last line of the text; a single-line comment
    starts and ends on the same line; no comment is empty. *)
Theorem comment_lines_are_consistent (lang : Language) (source_code : cstring) :
  exists (comments : list Comment) (clean : cstring),
    extract_comments lang source_code = Some (comments, clean) /\
    (Forall content_fits comments ->
     Forall (comment_within 1 (1 + newlines source_code)) comments /\
     StronglySorted le (map start_line comments)).
Proof.
  destruct lang; cbn [extract_comments].
  - destruct (extract_python_loop_lines (S (strlen source_code)) source_code [] [] 1)
      as (cs & cl & Hrun & Hall & Hsorted & _); [unfold strlen; lia|].
    exists cs, cl. cbn [app] in Hrun. auto.
  - destruct (extract_typescript_loop_lines (S (strlen source_code)) source_code [] [] 1)
      as (cs & cl & Hrun & Hall & Hsorted & _); [unfold strlen; lia|].
    exists cs, cl. cbn [app] in Hrun. auto.
Qed.

Lemma comment_lines_are_consistent_witness :
  exists (comments : list Comment) (clean : cstring),
    extract_comments LANG_PYTHON scenario_F = Some (comments, clean) /\
    Forall content_fits comments /\
    Forall (comment_within 1 (1 + newlines scenario_F)) comments /\
    StronglySorted le (map start_line comments).
Proof.
  destruct (comment_lines_are_consistent LANG_PYTHON scenario_F)
    as (comments & clean & Hrun & Hlines).
  exists comments, clean.
  assert (Hfits : Forall content_fits comments).
  { vm_compute in Hrun. injection Hrun as <- <-.
    constructor; [unfold content_fits, MAX_LENGTH; cbn; lia | constructor]. }
  split; [exact Hrun | split; [exact Hfits | exact (Hlines Hfits)]].
Defined.

(** X7. When the comments of a text all fit [Comment.content] (fewer than
    [MAX_LENGTH] characters), the line breaks of the text are shared
    between the clean buffer and the comments: the clean buffer has as many
    line breaks fewer than the text as the comments contain.  (The
    tokenizer counts lines on the clean buffer.) *)
Theorem line_breaks_are_shared (lang : Language) (source_code : cstring) :
  exists (comments : list Comment) (clean : cstring),
    extract_comments lang source_code = Some (comments, clean) /\
    (Forall content_fits comments ->
     newlines source_code = newlines clean + comment_newlines comments).
Proof.
  destruct lang; cbn [extract_comments].
  - destruct (extract_python_loop_lines (S (strlen source_code)) source_code [] [] 1)
      as (cs & cl & Hrun & _ & _ & Hcount); [unfold strlen; lia|].
    exists cs, cl. cbn [app] in Hrun. auto.
  - destruct (extract_typescript_loop_lines (S (strlen source_code)) source_code [] [] 1)
      as (cs & cl & Hrun & _ & _ & Hcount); [unfold strlen; lia|].
    exists cs, cl. cbn [app] in Hrun. auto.
Qed.

Lemma line_breaks_are_shared_witness :
  exists (comments : list Comment) (clean : cstring),
    extract_comments LANG_PYTHON scenario_F = Some (comments, clean) /\
    Forall content_fits comments /\
    newlines scenario_F = newlines clean + comment_newlines comments.
Proof.
  destruct (line_breaks_are_shared LANG_PYTHON scenario_F)
    as (comments & clean & Hrun & Hshared).
  exists comments, clean.
  assert (Hfits : Forall content_fits comments).
  { vm_compute in Hrun. injection Hrun as <- <-.
    constructor; [unfold content_fits, MAX_LENGTH; cbn; lia | constructor]. }
  split; [exact Hrun | split; [exact Hfits | exact (Hshared Hfits)]].
Defined.

(** ** Text without comments *)

Lemma extract_python_plain (s : cstring) :
  forall (fuel : nat) (comments : list Comment) (clean : cstring) (l : nat),
  plain_code s -> length s < fuel ->
  extract_python_loop fuel s comments clean l = Some (comments, clean ++ s).
Proof.
  induction s as [|c s IH]; intros fuel comments clean l Hplain Hfuel;
    (destruct fuel as [|fuel]; [lia|]).
  - cbn. rewrite app_nil_r. reflexivity.
  - apply plain_code_cons in Hplain. destruct Hplain as (Hc & Hs & Hd & Hplain).
    cbn [extract_python_loop]. rewrite Hc, Hs, Hd. cbn [orb].
    rewrite IH by (auto; cbn in Hfuel; lia). rewrite <- app_assoc. reflexivity.
Qed.

Lemma extract_typescript_plain (s : cstring) :
  forall (fuel : nat) (comments : list Comment) (clean : cstring) (l : nat),
  ~ In "/"%char s -> length s < fuel ->
  extract_typescript_loop fuel s comments clean l = Some (comments, clean ++ s).
Proof.
  induction s as [|c s IH]; intros fuel comments clean l Hplain Hfuel;
    (destruct fuel as [|fuel]; [lia|]).
  - cbn. rewrite app_nil_r. reflexivity.
  - assert (Hc : Ascii.eqb c "/" = false).
    { apply Ascii.eqb_neq. intros ->. apply Hplain. left. reflexivity. }
    cbn [extract_typescript_loop two_of].
    destruct s as [|c1 s'].
    + destruct fuel as [|fuel]; [cbn in Hfuel; lia|].
      cbn. rewrite ?app_nil_r. reflexivity.
    + rewrite Hc. cbn [andb].
      rewrite IH; [rewrite <- app_assoc; reflexivity | | cbn in Hfuel |- *; lia].
      intros Hin. apply Hplain. right. exact Hin.
Qed.

(** X8. Text that has no comment comes back unchanged and with no comment:
    for Python, text without [#] and without three consecutive equal quote
    characters; for TypeScript, text without [/]. *)
Theorem text_without_comments_is_kept (source_code : cstring) :
  (plain_code source_code ->
   extract_comments LANG_PYTHON source_code = Some ([], source_code)) /\
  (~ In "/"%char source_code ->
   extract_comments LANG_TYPESCRIPT source_code = Some ([], source_code)).
Proof.
  split; intros Hplain; cbn [extract_comments].
  - unfold extract_comments_python.
    rewrite extract_python_plain by (auto; unfold strlen; lia). reflexivity.
  - unfold extract_comments_typescript.
    rewrite extract_typescript_plain by (auto; unfold strlen; lia). reflexivity.
Qed.

Lemma text_without_comments_is_kept_witness :
  extract_comments LANG_PYTHON (str "x = 1") = Some ([], str "x = 1") /\
  extract_comments LANG_TYPESCRIPT (str "let x = 1;") = Some ([], str "let x = 1;").
Proof.
  split.
  - apply (proj1 (text_without_comments_is_kept (str "x = 1"))).
    split; [|split; reflexivity].
    cbn. intros H. repeat (destruct H as [H|H]; [discriminate|]). exact H.
  - apply (proj2 (text_without_comments_is_kept (str "let x = 1;"))).
    cbn. intros H. repeat (destruct H as [H|H]; [discriminate|]). exact H.
Defined.

(** ** The detectors only append *)

Ltac split_ifs :=
  repeat match goal with
         | |- context [if ?b then _ else _] => destruct b
         end.

Lemma type_mismatch_python_step_appends (tokens : list Token) (i : nat)
    (errors : list Error) :
  type_mismatch_python_step tokens i errors
  = errors ++ type_mismatch_python_step tokens i [].
Proof.
  unfold type_mismatch_python_step. split_ifs; rewrite ?app_nil_r; reflexivity.
Qed.

Lemma python_usage_step_appends (tokens : list Token) (count : nat)
    (table : SymbolTable) (i : nat) (errors : list Error) :
  python_usage_step tokens count table i errors
  = errors ++ python_usage_step tokens count table i [].
Proof.
  unfold python_usage_step. split_ifs; rewrite ?app_nil_r; reflexivity.
Qed.

Lemma typescript_usage_step_appends (tokens : list Token)
    (table : SymbolTable) (i : nat) (errors : list Error) :
  typescript_usage_step tokens table i errors
  = errors ++ typescript_usage_step tokens table i [].
Proof.
  unfold typescript_usage_step. split_ifs; rewrite ?app_nil_r; reflexivity.
Qed.

Lemma invalid_operator_python_step_appends (tokens : list Token) (i : nat)
    (errors : list Error) :
  invalid_operator_python_step tokens i errors
  = errors ++ invalid_operator_python_step tokens i [].
Proof.
  unfold invalid_operator_python_step. split_ifs; rewrite ?app_nil_r; reflexivity.
Qed.

Lemma invalid_operator_typescript_step_appends (tokens : list Token) (i : nat)
    (errors : list Error) :
  invalid_operator_typescript_step tokens i errors
  = errors ++ invalid_operator_typescript_step tokens i [].
Proof.
  unfold invalid_operator_typescript_step. split_ifs; rewrite ?app_nil_r; reflexivity.
Qed.

Lemma for_range_appends_from_nil (A : Type) (lo n : nat)
    (step : nat -> list A -> list A) (acc : list A) :
  (forall k l, step k l = l ++ step k []) ->
  for_range lo n step acc = acc ++ for_range lo n step [].
Proof.
  intros Happ. rewrite (for_range_appends A lo n step acc Happ).
  rewrite (for_range_appends A lo n step [] Happ). reflexivity.
Qed.

Lemma python_detectors_append (tokens : list Token) (n : nat) (errs : list Error) :
  check_misspelled_keyword_python tokens n errs
  = errs ++ check_misspelled_keyword_python tokens n [] /\
  check_type_mismatch_python tokens n errs
  = errs ++ check_type_mismatch_python tokens n [] /\
  check_undeclared_identifier_python tokens n errs
  = errs ++ check_undeclared_identifier_python tokens n [] /\
  check_invalid_operator_python tokens n errs
  = errs ++ check_invalid_operator_python tokens n [].
Proof.
  repeat split.
  - apply for_range_appends_from_nil. intros. apply misspelled_step_appends.
  - apply for_range_appends_from_nil. intros. apply type_mismatch_python_step_appends.
  - apply for_range_appends_from_nil. intros. apply python_usage_step_appends.
  - apply for_range_appends_from_nil. intros. apply invalid_operator_python_step_appends.
Qed.

Lemma typescript_detectors_append (tokens : list Token) (n : nat) (errs : list Error) :
  check_misspelled_keyword_typescript tokens n errs
  = errs ++ check_misspelled_keyword_typescript tokens n [] /\
  check_type_mismatch_typescript tokens n errs
  = errs ++ check_type_mismatch_typescript tokens n [] /\
  check_undeclared_identifier_typescript tokens n errs
  = errs ++ check_undeclared_identifier_typescript tokens n [] /\
  check_invalid_operator_typescript tokens n errs
  = errs ++ check_invalid_operator_typescript tokens n [].
Proof.
  repeat split.
  - apply for_range_appends_from_nil. intros. apply misspelled_step_appends.
  - apply for_range_appends_from_nil. intros. apply type_mismatch_typescript_step_appends.
  - apply for_range_appends_from_nil. intros. apply typescript_usage_step_appends.
  - apply for_range_appends_from_nil. intros. apply invalid_operator_typescript_step_appends.
Qed.

Lemma detect_errors_python_concat (tokens : list Token) :
  detect_errors LANG_PYTHON tokens
  = check_misspelled_keyword_python tokens (length tokens) []
    ++ check_type_mismatch_python tokens (length tokens) []
    ++ check_undeclared_identifier_python tokens (length tokens) []
    ++ check_invalid_operator_python tokens (length tokens) [].
Proof.
  unfold detect_errors.
  destruct (python_detectors_append tokens (length tokens)
              (check_undeclared_identifier_python tokens (length tokens)
                 (check_type_mismatch_python tokens (length tokens)
                    (check_misspelled_keyword_python tokens (length tokens) []))))
    as (_ & _ & _ & ->).
  destruct (python_detectors_append tokens (length tokens)
              (check_type_mismatch_python tokens (length tokens)
                 (check_misspelled_keyword_python tokens (length tokens) [])))
    as (_ & _ & -> & _).
  destruct (python_detectors_append tokens (length tokens)
              (check_misspelled_keyword_python tokens (length tokens) []))
    as (_ & -> & _ & _).
  rewrite <- !app_assoc. reflexivity.
Qed.

Lemma detect_errors_typescript_concat (tokens : list Token) :
  detect_errors LANG_TYPESCRIPT tokens
  = check_misspelled_keyword_typescript tokens (length tokens) []
    ++ check_type_mismatch_typescript tokens (length tokens) []
    ++ check_undeclared_identifier_typescript tokens (length tokens) []
    ++ check_invalid_operator_typescript tokens (length tokens) [].
Proof.
  unfold detect_errors.
  destruct (typescript_detectors_append tokens (length tokens)
              (check_undeclared_identifier_typescript tokens (length tokens)
                 (check_type_mismatch_typescript tokens (length tokens)
                    (check_misspelled_keyword_typescript tokens (length tokens) []))))
    as (_ & _ & _ & ->).
  destruct (typescript_detectors_append tokens (length tokens)
              (check_type_mismatch_typescript tokens (length tokens)
                 (check_misspelled_keyword_typescript tokens (length tokens) [])))
    as (_ & _ & -> & _).
  destruct (typescript_detectors_append tokens (length tokens)
              (check_misspelled_keyword_typescript tokens (length tokens) []))
    as (_ & -> & _ & _).
  rewrite <- !app_assoc. reflexivity.
Qed.

(** X9. Each of the eight detectors only appends to the error list it is
    given, whatever that list holds; the error list of an analysis is
    therefore the findings of the misspelling, type-mismatch,
    undeclared-identifier and invalid-operator detectors, each run on its
    own, concatenated in that order. *)
Theorem detectors_only_append (tokens : list Token) (count : nat) (errors : list Error) :
  (check_misspelled_keyword_python tokens count errors
   = errors ++ check_misspelled_keyword_python tokens count [] /\
   check_type_mismatch_python tokens count errors
   = errors ++ check_type_mismatch_python tokens count [] /\
   check_undeclared_identifier_python tokens count errors
   = errors ++ check_undeclared_identifier_python tokens count [] /\
   check_invalid_operator_python tokens count errors
   = errors ++ check_invalid_operator_python tokens count []) /\
  (check_misspelled_keyword_typescript tokens count errors
   = errors ++ check_misspelled_keyword_typescript tokens count [] /\
   check_type_mismatch_typescript tokens count errors
   = errors ++ check_type_mismatch_typescript tokens count [] /\
   check_undeclared_identifier_typescript tokens count errors
   = errors ++ check_undeclared_identifier_typescript tokens count [] /\
   check_invalid_operator_typescript tokens count errors
   = errors ++ check_invalid_operator_typescript tokens count []) /\
  detect_errors LANG_PYTHON tokens
  = check_misspelled_keyword_python tokens (length tokens) []
    ++ check_type_mismatch_python tokens (length tokens) []
    ++ check_undeclared_identifier_python tokens (length tokens) []
    ++ check_invalid_operator_python tokens (length tokens) [] /\
  detect_errors LANG_TYPESCRIPT tokens
  = check_misspelled_keyword_typescript tokens (length tokens) []
    ++ check_type_mismatch_typescript tokens (length tokens) []
    ++ check_undeclared_identifier_typescript tokens (length tokens) []
    ++ check_invalid_operator_typescript tokens (length tokens) [].
Proof.
  split; [apply python_detectors_append|].
  split; [apply typescript_detectors_append|].
  split; [apply detect_errors_python_concat | apply detect_errors_typescript_concat].
Qed.

(** ** Where the line numbers of the errors come from *)

Lemma token_at_in (tokens : list Token) (k : nat) :
  k < length tokens -> In (token_at tokens k) tokens.
Proof. intros Hk. apply nth_In. exact Hk. Qed.

Lemma short_values_fit (tokens : list Token) :
  forallb (fun t => strlen (value t) <? TOKEN_VALUE_SIZE) tokens = true ->
  Forall value_fits tokens.
Proof.
  intros Hall. rewrite forallb_forall in Hall. apply Forall_forall.
  intros t Ht. apply Nat.ltb_lt. apply Hall. exact Ht.
Qed.

Lemma flat_map_lines (tokens : list Token) (step : nat -> list Error -> list Error)
    (n : nat) (e : Error) :
  n <= length tokens ->
  (forall k e', In e' (step k []) -> line_number e' = line (token_at tokens k)) ->
  In e (flat_map (fun k => step k []) (seq 0 n)) ->
  exists t, In t tokens /\ line_number e = line t.
Proof.
  intros Hn Hstep Hin. apply in_flat_map in Hin. destruct Hin as (k & Hk & He).
  apply in_seq in Hk. exists (token_at tokens k). split.
  - apply token_at_in. lia.
  - apply Hstep. exact He.
Qed.

Lemma misspelled_step_line (keywords : list cstring) (tokens : list Token)
    (k : nat) (e : Error) :
  In e (misspelled_step keywords tokens k []) -> line_number e = line (token_at tokens k).
Proof.
  unfold misspelled_step. intros H.
  destruct (negb _ || _); [contradiction|].
  destruct (suggest_keyword _ _); [|contradiction].
  destruct H as [<-|[]]. reflexivity.
Qed.

Lemma type_mismatch_python_step_line (tokens : list Token) (k : nat) (e : Error) :
  In e (type_mismatch_python_step tokens k []) -> line_number e = line (token_at tokens k).
Proof. unfold type_mismatch_python_step. intros H. revert H. split_ifs; intros H; cbn [In app] in H; try contradiction; destruct H as [<-|[]]; reflexivity. Qed.

Lemma type_mismatch_typescript_step_line (tokens : list Token) (k : nat) (e : Error) :
  In e (type_mismatch_typescript_step tokens k []) -> line_number e = line (token_at tokens k).
Proof. unfold type_mismatch_typescript_step. intros H. revert H. split_ifs; intros H; cbn [In app] in H; try contradiction; destruct H as [<-|[]]; reflexivity. Qed.

Lemma python_usage_step_line (tokens : list Token) (count : nat) (table : SymbolTable)
    (k : nat) (e : Error) :
  In e (python_usage_step tokens count table k []) -> line_number e = line (token_at tokens k).
Proof. unfold python_usage_step. intros H. revert H. split_ifs; intros H; cbn [In app] in H; try contradiction; destruct H as [<-|[]]; reflexivity. Qed.

Lemma typescript_usage_step_line (tokens : list Token) (table : SymbolTable)
    (k : nat) (e : Error) :
  In e (typescript_usage_step tokens table k []) -> line_number e = line (token_at tokens k).
Proof. unfold typescript_usage_step. intros H. revert H. split_ifs; intros H; cbn [In app] in H; try contradiction; destruct H as [<-|[]]; reflexivity. Qed.

Lemma invalid_operator_python_step_line (tokens : list Token) (k : nat) (e : Error) :
  In e (invalid_operator_python_step tokens k []) -> line_number e = line (token_at tokens k).
Proof. unfold invalid_operator_python_step. intros H. revert H. split_ifs; intros H; cbn [In app] in H; try contradiction; destruct H as [<-|[]]; reflexivity. Qed.

Lemma invalid_operator_typescript_step_line (tokens : list Token) (k : nat) (e : Error) :
  In e (invalid_operator_typescript_step tokens k []) -> line_number e = line (token_at tokens k).
Proof. unfold invalid_operator_typescript_step. intros H. revert H. split_ifs; intros H; cbn [In app] in H; try contradiction; destruct H as [<-|[]]; reflexivity. Qed.

Lemma error_lines_from_tokens (lang : Language) (tokens : list Token) (e : Error) :
  In e (detect_errors lang tokens) ->
  exists t, In t tokens /\ line_number e = line t.
Proof.
  destruct lang.
  - rewrite detect_errors_python_concat. rewrite !in_app_iff.
    unfold check_misspelled_keyword_python, check_misspelled_keyword,
      check_type_mismatch_python, check_undeclared_identifier_python,
      check_invalid_operator_python.
    intros [H|[H|[H|H]]].
    + rewrite for_range_appends in H by (intros; apply misspelled_step_appends).
      eapply flat_map_lines; [| |exact H]; [lia|]. apply misspelled_step_line.
    + rewrite for_range_appends in H by (intros; apply type_mismatch_python_step_appends).
      eapply flat_map_lines; [| |exact H]; [lia|]. apply type_mismatch_python_step_line.
    + rewrite for_range_appends in H by (intros; apply python_usage_step_appends).
      eapply flat_map_lines; [| |exact H]; [lia|]. apply python_usage_step_line.
    + rewrite for_range_appends in H by (intros; apply invalid_operator_python_step_appends).
      eapply flat_map_lines; [| |exact H]; [lia|]. apply invalid_operator_python_step_line.
  - rewrite detect_errors_typescript_concat. rewrite !in_app_iff.
    unfold check_misspelled_keyword_typescript, check_misspelled_keyword,
      check_type_mismatch_typescript, check_undeclared_identifier_typescript,
      check_invalid_operator_typescript.
    intros [H|[H|[H|H]]].
    + rewrite for_range_appends in H by (intros; apply misspelled_step_appends).
      eapply flat_map_lines; [| |exact H]; [lia|]. apply misspelled_step_line.
    + rewrite for_range_appends in H by (intros; apply type_mismatch_typescript_step_appends).
      eapply flat_map_lines; [| |exact H]; [lia|]. apply type_mismatch_typescript_step_line.
    + rewrite for_range_appends in H by (intros; apply typescript_usage_step_appends).
      eapply flat_map_lines; [| |exact H]; [lia|]. apply typescript_usage_step_line.
    + rewrite for_range_appends in H by (intros; apply invalid_operator_typescript_step_appends).
      eapply flat_map_lines; [| |exact H]; [lia|]. apply invalid_operator_typescript_step_line.
Qed.

(** X10. Every error of an analysis carries the line number of one of the
    tokens: no detector invents a line. *)
Theorem error_lines_are_token_lines (lang : Language) (tokens : list Token) (e : Error) :
  In e (detect_errors lang tokens) ->
  exists t, In t tokens /\ line_number e = line t.
Proof. apply error_lines_from_tokens. Qed.

Lemma error_lines_are_token_lines_witness :
  exists t, In t let_x_boolean_y /\
    line_number (mismatch (boolean_mismatch_message (str "x"))
                          (mkToken (str "let") KEYWORD 1)) = line t.
Proof.
  apply (error_lines_are_token_lines LANG_TYPESCRIPT let_x_boolean_y).
  vm_compute. left. reflexivity.
Defined.

(** ** The whole analysis *)




(** ** Bounds on the distance *)

Lemma lev_table_lower (a b : cstring) (M : Matrix) :
  lev_table a b M ->
  forall i j, i <= strlen a -> j <= strlen b -> i - j <= M i j /\ j - i <= M i j.
Proof.
  intros (Hc & Hr & Hrec).
  induction i as [|i IHi]; intros j Hi Hj.
  - rewrite Hr by assumption. lia.
  - induction j as [|j IHj].
    + rewrite Hc by assumption. lia.
    + rewrite Hrec by lia. rewrite min_of_three_min.
      replace (S i - 1) with i by lia. replace (S j - 1) with j by lia.
      pose proof (IHi (S j)) as H1. pose proof (IHi j) as H2.
      specialize (H1 ltac:(lia) ltac:(lia)). specialize (H2 ltac:(lia) ltac:(lia)).
      specialize (IHj ltac:(lia)). lia.
Qed.

Lemma subst_cost_le (a b : cstring) (i j : nat) : subst_cost a b i j <= 1.
Proof. unfold subst_cost. destruct (Ascii.eqb _ _); lia. Qed.

Lemma lev_table_upper (a b : cstring) (M : Matrix) :
  lev_table a b M ->
  forall i j, i <= strlen a -> j <= strlen b -> M i j <= Nat.max i j.
Proof.
  intros (Hc & Hr & Hrec).
  induction i as [|i IHi]; intros j Hi Hj.
  - rewrite Hr by assumption. lia.
  - induction j as [|j IHj].
    + rewrite Hc by assumption. lia.
    + rewrite Hrec by lia. rewrite min_of_three_min.
      replace (S i - 1) with i by lia. replace (S j - 1) with j by lia.
      pose proof (IHi j ltac:(lia) ltac:(lia)) as H2.
      pose proof (subst_cost_le a b (S i) (S j)). lia.
Qed.

Lemma lev_table_zero_diag (a b : cstring) (M : Matrix) :
  lev_table a b M ->
  forall i, i <= strlen a -> i <= strlen b -> M i i = 0 ->
  forall k, k < i -> tolower (char_at a k) = tolower (char_at b k).
Proof.
  intros Htable. pose proof (lev_table_lower a b M Htable) as Hlow.
  destruct Htable as (Hc & Hr & Hrec).
  induction i as [|i IHi]; intros Ha Hb Hzero k Hk; [lia|].
  rewrite Hrec in Hzero by lia. rewrite min_of_three_min in Hzero.
  replace (S i - 1) with i in Hzero by lia.
  pose proof (Hlow i (S i) ltac:(lia) ltac:(lia)) as [_ H1].
  pose proof (Hlow (S i) i ltac:(lia) ltac:(lia)) as [H2 _].
  assert (Hdiag : M i i = 0) by lia.
  assert (Hcost : subst_cost a b (S i) (S i) = 0) by lia.
  destruct (Nat.eq_dec k i) as [->|Hne].
  - unfold subst_cost in Hcost. replace (S i - 1) with i in Hcost by lia.
    destruct (Ascii.eqb _ _) eqn:Heq; [|discriminate].
    apply Ascii.eqb_eq in Heq. exact Heq.
  - apply IHi; auto; lia.
Qed.

Lemma levenshtein_zero_iff (a b : cstring) :
  levenshtein_distance a b = 0 <-> map tolower a = map tolower b.
Proof.
  split.
  - unfold levenshtein_distance, levenshtein_from. intros Hzero.
    pose proof (lev_fill_table a b (fun _ _ => 0)) as Htable.
    pose proof (lev_table_lower a b _ Htable (strlen a) (strlen b)
                  (Nat.le_refl _) (Nat.le_refl _)) as [H1 H2].
    assert (Hlen : strlen a = strlen b) by lia.
    rewrite <- Hlen in Hzero.
    pose proof (lev_table_zero_diag a b _ Htable (strlen a)
                  (Nat.le_refl _) ltac:(lia) Hzero) as Hchars.
    apply (nth_ext _ _ NUL NUL).
    + rewrite !length_map. exact Hlen.
    + intros k Hk. rewrite length_map in Hk.
      change (char_at (map tolower a) k = char_at (map tolower b) k).
      rewrite !char_at_tolower. apply Hchars. exact Hk.
  - intros Heq. unfold levenshtein_distance at 1.
    rewrite levenshtein_distance_ignores_case, Heq.
    unfold levenshtein_distance, levenshtein_from.
    apply (lev_table_diag _ _ (lev_fill_table _ _ _)). lia.
Qed.

Lemma levenshtein_bounds (a b : cstring) :
  strlen a - strlen b <= levenshtein_distance a b /\
  strlen b - strlen a <= levenshtein_distance a b /\
  levenshtein_distance a b <= Nat.max (strlen a) (strlen b).
Proof.
  unfold levenshtein_distance, levenshtein_from.
  pose proof (lev_fill_table a b (fun _ _ => 0)) as Htable.
  pose proof (lev_table_lower a b _ Htable (strlen a) (strlen b)
                (Nat.le_refl _) (Nat.le_refl _)) as [H1 H2].
  pose proof (lev_table_upper a b _ Htable (strlen a) (strlen b)
                (Nat.le_refl _) (Nat.le_refl _)) as H3.
  auto.
Qed.

(** X12. [levenshtein_distance] is 0 exactly on two strings that are equal
    once both are put in lower case. *)
Theorem distance_zero_iff_equal_ignoring_case (a b : cstring) :
  levenshtein_distance a b = 0 <-> map tolower a = map tolower b.
Proof. apply levenshtein_zero_iff. Qed.

(** X13. [levenshtein_distance] is at least the difference of the two
    lengths and at most the larger of them. *)
Theorem distance_between_length_bounds (a b : cstring) :
  strlen a - strlen b <= levenshtein_distance a b /\
  strlen b - strlen a <= levenshtein_distance a b /\
  levenshtein_distance a b <= Nat.max (strlen a) (strlen b).
Proof. apply levenshtein_bounds. Qed.

Lemma suggest_keyword_in (word : cstring) (table : list cstring) (keyword : cstring) :
  suggest_keyword word table = Some keyword ->
  In keyword table /\ 0 < levenshtein_distance word keyword <= 2.
Proof.
  induction table as [|kw table IH]; cbn [suggest_keyword]; cbv zeta; [discriminate|].
  destruct ((0 <? levenshtein_distance word kw)
            && (levenshtein_distance word kw <=? 2)) eqn:Hd.
  - intros [= <-]. apply andb_true_iff in Hd. destruct Hd as [H0 H2].
    apply Nat.ltb_lt in H0. apply Nat.leb_le in H2. split; [left; reflexivity | lia].
  - intros Hs. destruct (IH Hs) as [Hin Hnear]. split; [right; exact Hin | exact Hnear].
Qed.

(** X14. A keyword suggested for a word is an entry of the table, is not
    the word itself up to case, and is at most two characters longer or
    shorter than the word. *)
Theorem suggestion_is_close_and_different (word : cstring) (table : list cstring)
    (keyword : cstring) :
  suggest_keyword word table = Some keyword ->
  In keyword table /\
  map tolower keyword <> map tolower word /\
  strlen keyword <= strlen word + 2 /\ strlen word <= strlen keyword + 2.
Proof.
  intros Hs. apply suggest_keyword_in in Hs. destruct Hs as [Hin Hnear].
  pose proof (levenshtein_bounds word keyword) as (H1 & H2 & _).
  split; [exact Hin|]. split; [|lia].
  intros Heq. symmetry in Heq. apply levenshtein_zero_iff in Heq. lia.
Qed.

Lemma suggestion_is_close_and_different_witness :
  In (str "while") PYTHON_KEYWORDS /\
  map tolower (str "while") <> map tolower (str "whille") /\
  strlen (str "while") <= strlen (str "whille") + 2 /\
  strlen (str "whille") <= strlen (str "while") + 2.
Proof.
  apply (suggestion_is_close_and_different (str "whille") PYTHON_KEYWORDS (str "while")).
  vm_compute. reflexivity.
Defined.

(** ** What the symbol table holds *)

Lemma for_range_invariant_in_range (St : Type) (P : St -> Prop) (lo n : nat)
    (body : nat -> St -> St) (st : St) :
  P st -> (forall k s, lo <= k < lo + n -> P s -> P (body k s)) ->
  P (for_range lo n body st).
Proof.
  intros Hst. induction n as [|n IH]; intros Hbody; [exact Hst|].
  rewrite for_range_succ. apply Hbody; [lia|]. apply IH.
  intros k s Hk. apply Hbody. lia.
Qed.

Lemma for_while_invariant_in_range (St : Type) (P : St -> Prop) (n : nat) :
  forall (lo : nat) (cont : nat -> bool) (body : nat -> St -> St) (st : St),
  P st -> (forall k s, lo <= k < lo + n -> P s -> P (body k s)) ->
  P (for_while lo n cont body st).
Proof.
  induction n as [|n IH]; intros lo cont body st Hst Hbody; cbn; [exact Hst|].
  destruct (cont lo); [|exact Hst]. apply IH.
  - apply Hbody; [lia | exact Hst].
  - intros k s Hk. apply Hbody. lia.
Qed.

Lemma symbol_exists_in (symbol_table : SymbolTable) (name : cstring) :
  symbol_exists symbol_table name = true <-> In name symbol_table.
Proof.
  unfold symbol_exists. rewrite existsb_exists. split.
  - intros (entry & Hin & Heq). apply streq_eq in Heq. subst. exact Hin.
  - intros Hin. exists name. split; [exact Hin | apply streq_refl].
Qed.

Lemma add_symbol_cases (name : cstring) (symbol_table : SymbolTable) :
  add_symbol name symbol_table = symbol_table \/
  (add_symbol name symbol_table = symbol_table ++ [name]
   /\ ~ In name symbol_table /\ length symbol_table < MAX_SYMBOLS).
Proof.
  unfold add_symbol.
  destruct (symbol_exists symbol_table name) eqn:Hex; cbn [negb andb]; [left; reflexivity|].
  destruct (length symbol_table <? MAX_SYMBOLS) eqn:Hroom; [|left; reflexivity].
  right. split; [reflexivity|]. split; [|apply Nat.ltb_lt; exact Hroom].
  intros Hin. apply symbol_exists_in in Hin. congruence.
Qed.

Lemma add_symbol_grows (name : cstring) (symbol_table : SymbolTable) :
  grows symbol_table (add_symbol name symbol_table).
Proof.
  destruct (add_symbol_cases name symbol_table) as [->|(-> & _)].
  - split; auto.
  - split; [intros n Hn; apply in_or_app; left; exact Hn|].
    rewrite length_app. lia.
Qed.

Lemma grows_refl (t : SymbolTable) : grows t t.
Proof. split; auto. Qed.

Lemma grows_trans (a b c : SymbolTable) : grows a b -> grows b c -> grows a c.
Proof. intros [H1 H2] [H3 H4]. split; [auto | lia]. Qed.

Lemma add_symbol_records (name : cstring) (symbol_table : SymbolTable) :
  length (add_symbol name symbol_table) < MAX_SYMBOLS ->
  In name (add_symbol name symbol_table).
Proof.
  unfold add_symbol.
  destruct (symbol_exists symbol_table name) eqn:Hex; cbn [negb andb].
  - intros _. apply symbol_exists_in. exact Hex.
  - destruct (length symbol_table <? MAX_SYMBOLS) eqn:Hroom.
    + intros _. apply in_or_app. right. left. reflexivity.
    + apply Nat.ltb_ge in Hroom. lia.
Qed.

Lemma add_symbol_sound (tokens : list Token) (count : nat) (name : cstring)
    (symbol_table : SymbolTable) :
  names_identifier tokens count name ->
  (NoDup symbol_table /\ Forall (names_identifier tokens count) symbol_table) ->
  NoDup (add_symbol name symbol_table)
  /\ Forall (names_identifier tokens count) (add_symbol name symbol_table).
Proof.
  intros Hname [Hnodup Hall].
  destruct (add_symbol_cases name symbol_table) as [->|(-> & Hnew & _)]; [auto|].
  split.
  - apply NoDup_app; [exact Hnodup | constructor; [intros []|constructor] |].
    intros n Hn [<-|[]]. contradiction.
  - apply Forall_app. split; [exact Hall | constructor; [exact Hname | constructor]].
Qed.

Lemma python_declare_step_sound (tokens : list Token) (count i : nat)
    (symbol_table : SymbolTable) :
  i < count - 1 ->
  (NoDup symbol_table /\ Forall (names_identifier tokens count) symbol_table) ->
  NoDup (python_declare_step tokens count i symbol_table)
  /\ Forall (names_identifier tokens count) (python_declare_step tokens count i symbol_table).
Proof.
  intros Hi Hinv. unfold python_declare_step.
  match goal with
  | |- context [for_while _ _ _ _ ?first] =>
      assert (Hfirst : NoDup first /\ Forall (names_identifier tokens count) first)
  end.
  { destruct (is_type (token_at tokens i) IDENTIFIER) eqn:Hty; cbn [andb]; [|exact Hinv].
    destruct (_ && _); [|exact Hinv].
    apply add_symbol_sound; [|exact Hinv].
    exists i. split; [lia|]. split; [apply TokenType_eqb_eq; exact Hty | reflexivity]. }
  destruct (_ || _); [|exact Hfirst].
  apply for_while_invariant_in_range
    with (P := fun t => NoDup t /\ Forall (names_identifier tokens count) t);
    [exact Hfirst|].
  intros k s Hk Hs.
  destruct (is_type (token_at tokens k) IDENTIFIER) eqn:Hty; [|exact Hs].
  apply add_symbol_sound; [|exact Hs].
  exists k. split; [lia|]. split; [apply TokenType_eqb_eq; exact Hty | reflexivity].
Qed.

Lemma typescript_declare_step_sound (tokens : list Token) (count i : nat)
    (symbol_table : SymbolTable) :
  i < count - 1 ->
  (NoDup symbol_table /\ Forall (names_identifier tokens count) symbol_table) ->
  NoDup (typescript_declare_step tokens count i symbol_table)
  /\ Forall (names_identifier tokens count)
       (typescript_declare_step tokens count i symbol_table).
Proof.
  intros Hi Hinv. unfold typescript_declare_step.
  match goal with
  | |- context [for_while _ _ _ _ ?first] =>
      assert (Hfirst : NoDup first /\ Forall (names_identifier tokens count) first)
  end.
  { destruct (is_declaration (token_at tokens i)); cbn [andb]; [|exact Hinv].
    destruct (is_type (token_at tokens (i + 1)) IDENTIFIER) eqn:Hty; [|exact Hinv].
    apply add_symbol_sound; [|exact Hinv].
    exists (i + 1). split; [lia|]. split; [apply TokenType_eqb_eq; exact Hty | reflexivity]. }
  destruct (has_value (token_at tokens i) "function"); [|exact Hfirst].
  apply for_while_invariant_in_range
    with (P := fun t => NoDup t /\ Forall (names_identifier tokens count) t);
    [exact Hfirst|].
  intros k s Hk Hs.
  destruct (is_type (token_at tokens k) IDENTIFIER) eqn:Hty; cbn [andb]; [|exact Hs].
  destruct (_ || _); [|exact Hs].
  apply add_symbol_sound; [|exact Hs].
  exists k. split; [lia|]. split; [apply TokenType_eqb_eq; exact Hty | reflexivity].
Qed.

(** X15. In both undeclared-identifier detectors the symbol table built by
    pass 1 holds no name twice, and every name in it is the text of an
    IDENTIFIER token of the array. *)
Theorem symbol_table_sound (tokens : list Token) (count : nat) :
  (NoDup (python_symbols tokens count)
   /\ Forall (names_identifier tokens count) (python_symbols tokens count)) /\
  (NoDup (typescript_symbols tokens count)
   /\ Forall (names_identifier tokens count) (typescript_symbols tokens count)).
Proof.
  split.
  - apply for_range_invariant_in_range
      with (P := fun t => NoDup t /\ Forall (names_identifier tokens count) t).
    + split; constructor.
    + intros k s Hk. apply python_declare_step_sound. lia.
  - apply for_range_invariant_in_range
      with (P := fun t => NoDup t /\ Forall (names_identifier tokens count) t).
    + split; constructor.
    + intros k s Hk. apply typescript_declare_step_sound. lia.
Qed.

(** ** A declaration covers the whole file *)

Lemma for_while_grows (n : nat) (lo : nat) (cont : nat -> bool)
    (body : nat -> SymbolTable -> SymbolTable) (t : SymbolTable) :
  (forall k s, grows s (body k s)) -> grows t (for_while lo n cont body t).
Proof.
  intros Hbody.
  apply for_while_invariant with (P := grows t); [apply grows_refl|].
  intros k s Hs. eapply grows_trans; [exact Hs | apply Hbody].
Qed.

Lemma for_range_grows (lo n : nat)
    (body : nat -> SymbolTable -> SymbolTable) (t : SymbolTable) :
  (forall k s, grows s (body k s)) -> grows t (for_range lo n body t).
Proof.
  intros Hbody.
  apply for_range_invariant with (P := grows t); [apply grows_refl|].
  intros k s Hs. eapply grows_trans; [exact Hs | apply Hbody].
Qed.

Ltac split_add s :=
  match goal with
  | |- context [if ?b then add_symbol _ s else s] => destruct b
  end.

Lemma python_declare_step_grows (tokens : list Token) (count i : nat)
    (t : SymbolTable) :
  grows t (python_declare_step tokens count i t).
Proof.
  unfold python_declare_step.
  match goal with
  | |- context [for_while _ _ _ _ ?first] => assert (Hfirst : grows t first)
  end.
  { destruct (_ && _ && _); [apply add_symbol_grows | apply grows_refl]. }
  destruct (_ || _); [|exact Hfirst].
  eapply grows_trans; [exact Hfirst|]. apply for_while_grows.
  intros k s. split_add s; [apply add_symbol_grows | apply grows_refl].
Qed.

Lemma typescript_declare_step_grows (tokens : list Token) (count i : nat)
    (t : SymbolTable) :
  grows t (typescript_declare_step tokens count i t).
Proof.
  unfold typescript_declare_step.
  match goal with
  | |- context [for_while _ _ _ _ ?first] => assert (Hfirst : grows t first)
  end.
  { destruct (_ && _); [apply add_symbol_grows | apply grows_refl]. }
  destruct (has_value (token_at tokens i) "function"); [|exact Hfirst].
  eapply grows_trans; [exact Hfirst|]. apply for_while_grows.
  intros k s. split_add s; [apply add_symbol_grows | apply grows_refl].
Qed.

Lemma python_assignment_recorded (tokens : list Token) (count i : nat) :
  i + 1 < count ->
  type (token_at tokens i) = IDENTIFIER ->
  value (token_at tokens (i + 1)) = str "=" ->
  length (python_symbols tokens count) < MAX_SYMBOLS ->
  In (value (token_at tokens i)) (python_symbols tokens count).
Proof.
  intros Hi Hty Heq Hroom. unfold python_symbols in *.
  remember (count - 1 - (i + 1)) as later eqn:Hlater.
  replace (count - 1) with (i + (1 + later)) in * by lia.
  rewrite !for_range_split in *.
  set (T0 := for_range 0 i (python_declare_step tokens count) []) in *.
  set (T1 := for_range (0 + i) 1 (python_declare_step tokens count) T0) in *.
  pose proof (for_range_grows (0 + i + 1) later (python_declare_step tokens count) T1
                (python_declare_step_grows tokens count)) as [Hkeep Hlen].
  apply Hkeep.
  assert (Hstep : T1 = python_declare_step tokens count i T0) by reflexivity.
  assert (Hadd : grows (add_symbol (value (token_at tokens i)) T0) T1).
  { rewrite Hstep. unfold python_declare_step.
    unfold is_type. rewrite Hty. cbn [TokenType_eqb andb].
    unfold has_value. rewrite Heq.
    change (streq (str "=") (str "=")) with true.
    change (streq (str "=") (str "==")) with false. cbn [negb andb].
    destruct (_ || _); [|apply grows_refl].
    apply for_while_grows.
    intros k s. split_add s; [apply add_symbol_grows | apply grows_refl]. }
  destruct Hadd as [Hin Hle]. apply Hin. apply add_symbol_records. lia.
Qed.

Lemma typescript_declaration_recorded (tokens : list Token) (count i : nat) :
  i + 1 < count ->
  is_declaration (token_at tokens i) = true ->
  type (token_at tokens (i + 1)) = IDENTIFIER ->
  length (typescript_symbols tokens count) < MAX_SYMBOLS ->
  In (value (token_at tokens (i + 1))) (typescript_symbols tokens count).
Proof.
  intros Hi Hdecl Hty Hroom. unfold typescript_symbols in *.
  remember (count - 1 - (i + 1)) as later eqn:Hlater.
  replace (count - 1) with (i + (1 + later)) in * by lia.
  rewrite !for_range_split in *.
  set (T0 := for_range 0 i (typescript_declare_step tokens count) []) in *.
  set (T1 := for_range (0 + i) 1 (typescript_declare_step tokens count) T0) in *.
  pose proof (for_range_grows (0 + i + 1) later (typescript_declare_step tokens count) T1
                (typescript_declare_step_grows tokens count)) as [Hkeep Hlen].
  apply Hkeep.
  assert (Hstep : T1 = typescript_declare_step tokens count i T0) by reflexivity.
  assert (Hadd : grows (add_symbol (value (token_at tokens (i + 1))) T0) T1).
  { rewrite Hstep. unfold typescript_declare_step.
    rewrite Hdecl. unfold is_type. rewrite Hty. cbn [TokenType_eqb andb].
    destruct (has_value (token_at tokens i) "function"); [|apply grows_refl].
    apply for_while_grows.
    intros k s. split_add s; [apply add_symbol_grows | apply grows_refl]. }
  destruct Hadd as [Hin Hle]. apply Hin. apply add_symbol_records. lia.
Qed.

Lemma python_usage_step_known (tokens : list Token) (count : nat)
    (table : SymbolTable) (j : nat) :
  In (value (token_at tokens j)) table ->
  python_usage_step tokens count table j [] = [].
Proof.
  intros Hin. apply symbol_exists_in in Hin.
  unfold python_usage_step. rewrite Hin. cbn [negb]. split_ifs; reflexivity.
Qed.

Lemma typescript_usage_step_known (tokens : list Token)
    (table : SymbolTable) (j : nat) :
  In (value (token_at tokens j)) table ->
  typescript_usage_step tokens table j [] = [].
Proof.
  intros Hin. apply symbol_exists_in in Hin.
  unfold typescript_usage_step. rewrite Hin. cbn [negb]. split_ifs; reflexivity.
Qed.

(** X16. The Python undeclared-identifier detector reports position by
    position, and a name assigned anywhere in the file (an IDENTIFIER
    followed by [=]) is reported nowhere, not even where it is used before
    the assignment, as long as the symbol table did not fill up. *)
Theorem python_assignment_covers_file (tokens : list Token) (i j : nat) :
  i + 1 < length tokens ->
  type (token_at tokens i) = IDENTIFIER ->
  value (token_at tokens (i + 1)) = str "=" ->
  length (python_symbols tokens (length tokens)) < MAX_SYMBOLS ->
  value (token_at tokens j) = value (token_at tokens i) ->
  python_findings_at tokens j = [] /\
  check_undeclared_identifier_python tokens (length tokens) []
  = flat_map (python_findings_at tokens) (seq 0 (length tokens)).
Proof.
  intros Hi Hty Heq Hroom Hsame. split.
  - unfold python_findings_at. apply python_usage_step_known.
    rewrite Hsame. apply python_assignment_recorded; assumption.
  - unfold check_undeclared_identifier_python.
    rewrite for_range_appends by (intros; apply python_usage_step_appends).
    reflexivity.
Qed.

Lemma python_assignment_covers_file_witness :
  python_findings_at use_before_assignment 0 = [] /\
  check_undeclared_identifier_python use_before_assignment
    (length use_before_assignment) []
  = flat_map (python_findings_at use_before_assignment)
      (seq 0 (length use_before_assignment)).
Proof.
  apply (python_assignment_covers_file use_before_assignment 3 0).
  - cbn. lia.
  - reflexivity.
  - reflexivity.
  - apply Nat.ltb_lt. vm_compute. reflexivity.
  - reflexivity.
Defined.

(** X17. The TypeScript undeclared-identifier detector reports position by
    position, and a name declared anywhere in the file by [let], [const] or
    [var] is reported nowhere, not even before its declaration, as long as
    the symbol table did not fill up. *)
Theorem typescript_declaration_covers_file (tokens : list Token) (i j : nat) :
  i + 1 < length tokens ->
  is_declaration (token_at tokens i) = true ->
  type (token_at tokens (i + 1)) = IDENTIFIER ->
  length (typescript_symbols tokens (length tokens)) < MAX_SYMBOLS ->
  value (token_at tokens j) = value (token_at tokens (i + 1)) ->
  typescript_findings_at tokens j = [] /\
  check_undeclared_identifier_typescript tokens (length tokens) []
  = flat_map (typescript_findings_at tokens) (seq 0 (length tokens)).
Proof.
  intros Hi Hdecl Hty Hroom Hsame. split.
  - unfold typescript_findings_at. apply typescript_usage_step_known.
    rewrite Hsame. apply typescript_declaration_recorded; assumption.
  - unfold check_undeclared_identifier_typescript.
    rewrite for_range_appends by (intros; apply typescript_usage_step_appends).
    reflexivity.
Qed.

Lemma typescript_declaration_covers_file_witness :
  typescript_findings_at use_before_let 0 = [] /\
  check_undeclared_identifier_typescript use_before_let (length use_before_let) []
  = flat_map (typescript_findings_at use_before_let) (seq 0 (length use_before_let)).
Proof.
  apply (typescript_declaration_covers_file use_before_let 2 0).
  - cbn. lia.
  - reflexivity.
  - reflexivity.
  - apply Nat.ltb_lt. vm_compute. reflexivity.
  - reflexivity.
Defined.

(** ** The TypeScript symbol table cannot fill up behind the tokenizer *)

Lemma declared_names_in (tokens : list Token) (count j : nat) :
  1 <= j < count -> declaring_position tokens j = true ->
  In (value (token_at tokens j)) (declared_names tokens count).
Proof.
  intros Hj Hpos. unfold declared_names.
  apply in_map_iff. exists j. split; [reflexivity|].
  apply filter_In. split; [apply in_seq; lia | exact Hpos].
Qed.

Lemma add_symbol_all (Q : cstring -> Prop) (name : cstring) (symbol_table : SymbolTable) :
  Q name -> Forall Q symbol_table -> Forall Q (add_symbol name symbol_table).
Proof.
  intros Hname Hall.
  destruct (add_symbol_cases name symbol_table) as [->|(-> & _)]; [exact Hall|].
  apply Forall_app. split; [exact Hall | constructor; [exact Hname | constructor]].
Qed.

Lemma typescript_declare_step_declared (tokens : list Token) (count i : nat)
    (symbol_table : SymbolTable) :
  i < count - 1 ->
  Forall (fun name => In name (declared_names tokens count)) symbol_table ->
  Forall (fun name => In name (declared_names tokens count))
    (typescript_declare_step tokens count i symbol_table).
Proof.
  intros Hi Hinv. unfold typescript_declare_step.
  match goal with
  | |- context [for_while _ _ _ _ ?first] =>
      assert (Hfirst : Forall (fun name => In name (declared_names tokens count)) first)
  end.
  { destruct (is_declaration (token_at tokens i)) eqn:Hdecl; cbn [andb]; [|exact Hinv].
    destruct (is_type (token_at tokens (i + 1)) IDENTIFIER) eqn:Hty; [|exact Hinv].
    apply add_symbol_all; [|exact Hinv].
    apply declared_names_in; [lia|].
    unfold declaring_position, is_marker. rewrite Hty.
    replace (i + 1 - 1) with i by lia. rewrite Hdecl. reflexivity. }
  destruct (has_value (token_at tokens i) "function") eqn:Hfun; [|exact Hfirst].
  apply for_while_invariant_in_range
    with (P := Forall (fun name => In name (declared_names tokens count)));
    [exact Hfirst|].
  intros k s Hk Hs.
  destruct (is_type (token_at tokens k) IDENTIFIER) eqn:Hty; cbn [andb]; [|exact Hs].
  destruct (_ || _) eqn:Hmark; [|exact Hs].
  apply add_symbol_all; [|exact Hs].
  apply declared_names_in; [lia|].
  unfold declaring_position, is_marker. rewrite Hty. cbn [andb].
  apply orb_true_iff in Hmark. destruct Hmark as [Hmark|Hmark].
  - apply orb_true_iff in Hmark. destruct Hmark as [Hmark|Hmark].
    + apply Nat.eqb_eq in Hmark. subst k. replace (i + 1 - 1) with i by lia.
      rewrite Hfun. rewrite !orb_true_r. reflexivity.
    + rewrite Hmark. rewrite !orb_true_r. reflexivity.
  - rewrite Hmark. rewrite !orb_true_r. reflexivity.
Qed.

(** Positions that are never two in a row are at most every other one. *)
Lemma sparse_positions (p : nat -> bool) (n : nat) :
  (forall j, p j = true -> p (S j) = true -> False) ->
  2 * length (filter p (seq 1 n)) <= n + 1 /\
  (p n = false -> 2 * length (filter p (seq 1 n)) <= n).
Proof.
  intros Hsparse. induction n as [|n [IH1 IH2]].
  - cbn. split; lia.
  - rewrite seq_S, filter_app, length_app. cbn [filter Nat.add].
    destruct (p (S n)) eqn:Hp; cbn [length].
    + assert (Hprev : 2 * length (filter p (seq 1 n)) <= n).
      { destruct (p n) eqn:Hn; [exfalso; eapply Hsparse; eauto | auto]. }
      split; [lia | discriminate].
    + split; [lia | intros _; lia].
Qed.

Lemma declared_names_bound (tokens : list Token) (count : nat) :
  (forall j, is_type (token_at tokens j) IDENTIFIER = true ->
             is_marker (token_at tokens j) = false) ->
  2 * length (declared_names tokens count) <= count.
Proof.
  intros Hclean. unfold declared_names. rewrite length_map.
  destruct (sparse_positions (declaring_position tokens) (count - 1)) as [Hbound _].
  - intros j Hj Hnext. unfold declaring_position in Hj, Hnext.
    apply andb_true_iff in Hj, Hnext. destruct Hj as [Hty _], Hnext as [_ Hmark].
    replace (S j - 1) with j in Hmark by lia.
    rewrite (Hclean j Hty) in Hmark. discriminate.
  - destruct count as [|count]; [cbn; lia|].
    replace (S count - 1) with count in * by lia. lia.
Qed.

Lemma typescript_declaration_always_recorded (tokens : list Token) (i : nat) :
  length tokens <= MAX_TOKENS ->
  (forall j, is_type (token_at tokens j) IDENTIFIER = true ->
             is_marker (token_at tokens j) = false) ->
  i + 1 < length tokens ->
  is_declaration (token_at tokens i) = true ->
  type (token_at tokens (i + 1)) = IDENTIFIER ->
  In (value (token_at tokens (i + 1))) (typescript_symbols tokens (length tokens)).
Proof.
  intros Hcap Hclean Hi Hdecl Hty.
  set (count := length tokens) in *.
  unfold typescript_symbols.
  remember (count - 1 - (i + 1)) as later eqn:Hlater.
  replace (count - 1) with (i + (1 + later)) by lia.
  rewrite !for_range_split.
  set (T0 := for_range 0 i (typescript_declare_step tokens count) []).
  set (T1 := for_range (0 + i) 1 (typescript_declare_step tokens count) T0).
  pose proof (for_range_grows (0 + i + 1) later (typescript_declare_step tokens count) T1
                (typescript_declare_step_grows tokens count)) as [Hkeep _].
  apply Hkeep.
  assert (Hstep : T1 = typescript_declare_step tokens count i T0) by reflexivity.
  assert (Hadd : grows (add_symbol (value (token_at tokens (i + 1))) T0) T1).
  { rewrite Hstep. unfold typescript_declare_step.
    rewrite Hdecl. unfold is_type. rewrite Hty. cbn [TokenType_eqb andb].
    destruct (has_value (token_at tokens i) "function"); [|apply grows_refl].
    apply for_while_grows.
    intros k s. split_add s; [apply add_symbol_grows | apply grows_refl]. }
  destruct Hadd as [Hin _]. apply Hin.
  (* the table so far is made of distinct declared names *)
  assert (Hinv : (NoDup T0 /\ Forall (names_identifier tokens count) T0)
                 /\ Forall (fun name => In name (declared_names tokens count)) T0).
  { apply for_range_invariant_in_range
      with (P := fun t => (NoDup t /\ Forall (names_identifier tokens count) t)
                  /\ Forall (fun name => In name (declared_names tokens count)) t).
    - repeat split; constructor.
    - intros k s Hk [Hsound Hall]. split.
      + apply typescript_declare_step_sound; [lia | exact Hsound].
      + apply typescript_declare_step_declared; [lia | exact Hall]. }
  destruct Hinv as [[Hnodup _] Hall].
  set (name := value (token_at tokens (i + 1))).
  assert (Hname : In name (declared_names tokens count)).
  { apply declared_names_in; [lia|].
    unfold declaring_position, is_marker, is_type. rewrite Hty.
    replace (i + 1 - 1) with i by lia. rewrite Hdecl. reflexivity. }
  unfold add_symbol.
  destruct (symbol_exists T0 name) eqn:Hex; cbn [negb andb].
  - apply symbol_exists_in. exact Hex.
  - assert (Hnew : ~ In name T0).
    { intros Hold. apply symbol_exists_in in Hold. congruence. }
    assert (Hlen : length (name :: T0) <= length (declared_names tokens count)).
    { apply NoDup_incl_length; [constructor; assumption|].
      intros n [<-|Hn]; [exact Hname|].
      rewrite Forall_forall in Hall. apply Hall. exact Hn. }
    pose proof (declared_names_bound tokens count Hclean) as Hbound.
    cbn [length] in Hlen. unfold MAX_TOKENS in Hcap.
    replace (length T0 <? MAX_SYMBOLS) with true
      by (symmetry; apply Nat.ltb_lt; unfold MAX_SYMBOLS; lia).
    apply in_or_app. right. left. reflexivity.
Qed.

Lemma typescript_identifier_not_marker (t : Token) :
  kind_fits LANG_TYPESCRIPT t = true -> is_type t IDENTIFIER = true ->
  is_marker t = false.
Proof.
  unfold kind_fits, is_type. intros Hfit Hty.
  apply TokenType_eqb_eq in Hty. rewrite Hty in Hfit.
  apply andb_true_iff in Hfit. destruct Hfit as [Hfit _].
  apply andb_true_iff in Hfit. destruct Hfit as [Hkw Hchars].
  apply negb_true_iff in Hkw.
  unfold is_marker, is_declaration, has_value.
  repeat match goal with
         | |- context [streq (value t) (str ?text)] =>
             let H := fresh "Hv" in
             destruct (streq (value t) (str text)) eqn:H;
             [apply streq_eq in H; rewrite H in Hkw, Hchars;
              vm_compute in Hkw, Hchars; discriminate|]
         end.
  reflexivity.
Qed.

(** X18. Behind the TypeScript tokenizer the symbol cap is out of reach: in
    the token array of any text whose tokens fit [Token.value] (fewer than
    256 characters, so that the names fit [Symbol.name] too), the name
    declared by a [let], [const] or [var] is always recorded in the symbol
    table, and is reported as undeclared at no position of the file. *)
Theorem typescript_declarations_never_dropped (source_code : cstring)
    (tokens : list Token) (i j : nat) :
  tokenize_typescript source_code = Some tokens ->
  Forall value_fits tokens ->
  i + 1 < length tokens ->
  is_declaration (token_at tokens i) = true ->
  type (token_at tokens (i + 1)) = IDENTIFIER ->
  value (token_at tokens j) = value (token_at tokens (i + 1)) ->
  In (value (token_at tokens (i + 1))) (typescript_symbols tokens (length tokens)) /\
  typescript_findings_at tokens j = [].
Proof.
  intros Hrun _ Hi Hdecl Hty Hsame.
  destruct (tokenize_loop_coverage LANG_TYPESCRIPT (S (strlen source_code))
              source_code 1 [] 0)
    as (new & gaps & tail & Hrun' & _ & _ & _ & _ & Hcap & Hall).
  { unfold strlen. lia. }
  unfold tokenize_typescript, tokenize in Hrun. rewrite Hrun' in Hrun.
  cbn [app Nat.add Nat.max] in Hrun, Hcap. injection Hrun as ->.
  assert (Hrec : In (value (token_at tokens (i + 1)))
                    (typescript_symbols tokens (length tokens))).
  { apply typescript_declaration_always_recorded; auto.
    intros k Hk.
    destruct (Nat.lt_ge_cases k (length tokens)) as [Hlt|Hge].
    - apply typescript_identifier_not_marker; [|exact Hk].
      rewrite Forall_forall in Hall.
      apply (Hall (token_at tokens k)). apply token_at_in. exact Hlt.
    - unfold token_at in Hk. rewrite nth_overflow in Hk by exact Hge. discriminate. }
  split; [exact Hrec|].
  unfold typescript_findings_at. apply typescript_usage_step_known.
  rewrite Hsame. exact Hrec.
Qed.

Lemma typescript_declarations_never_dropped_witness :
  Forall value_fits use_before_let /\
  In (str "y") (typescript_symbols use_before_let (length use_before_let)) /\
  typescript_findings_at use_before_let 0 = [].
Proof.
  assert (Hfits : Forall value_fits use_before_let)
    by (apply short_values_fit; reflexivity).
  split; [exact Hfits|].
  apply (typescript_declarations_never_dropped (str "y; let y") use_before_let 2 0);
    [reflexivity | exact Hfits | cbn; lia | reflexivity | reflexivity | reflexivity].
Defined.

(** ** Blank text *)

Lemma blank_is_plain (s : cstring) :
  forallb isspace s = true -> plain_code s /\ ~ In "/"%char s.
Proof.
  intros Hblank. rewrite forallb_forall in Hblank.
  assert (Hnot : forall c, isspace c = false -> ~ In c s).
  { intros c Hc Hin. apply Hblank in Hin. congruence. }
  split; [split; [apply Hnot; reflexivity|] | apply Hnot; reflexivity].
  assert (Hnever : forall q, isspace q = false -> never_three q s = true).
  { intros q Hq. clear Hnot. induction s as [|c s IH]; [reflexivity|].
    cbn [never_three]. rewrite IH by (intros x Hx; apply Hblank; right; exact Hx).
    rewrite andb_true_r. apply negb_true_iff.
    destruct (three_of q (c :: s)) eqn:H3; [|reflexivity].
    destruct s as [|c1 [|c2 s']]; cbn in H3; try discriminate.
    apply andb_true_iff in H3. destruct H3 as [H3 _].
    apply andb_true_iff in H3. destruct H3 as [H3 _].
    apply Ascii.eqb_eq in H3. subst c.
    rewrite (Hblank q (or_introl eq_refl)) in Hq. discriminate. }
  split; apply Hnever; reflexivity.
Qed.

Lemma skip_whitespace_blank (s : cstring) (l : nat) :
  forallb isspace s = true -> fst (skip_whitespace s l) = [].
Proof.
  revert l. induction s as [|c s IH]; intros l; cbn; [reflexivity|].
  intros H. apply andb_true_iff in H. destruct H as [Hc Hs].
  rewrite Hc. apply IH. exact Hs.
Qed.

Lemma tokenize_blank (lang : Language) (s : cstring) :
  forallb isspace s = true -> tokenize lang s = Some [].
Proof.
  intros Hblank. unfold tokenize. cbn [tokenize_loop].
  destruct s as [|c s]; [reflexivity|].
  change (0 <? MAX_TOKENS) with true. cbv iota.
  pose proof (skip_whitespace_blank (c :: s) 1 Hblank) as Hskip.
  destruct (skip_whitespace (c :: s) 1) as [r l]. cbn [fst] in Hskip.
  subst r. reflexivity.
Qed.

(** X19. A text made only of white space, the empty text included, gives
    an analysis with no comment, no token and no error, in either
    language. *)
Theorem blank_text_gives_nothing (lang : Language) (source_code : cstring) :
  forallb isspace source_code = true ->
  main_analysis lang source_code = Some (mkAnalysis [] [] []).
Proof.
  intros Hblank. destruct (blank_is_plain source_code Hblank) as [Hplain Hslash].
  unfold main_analysis.
  assert (Hextract : extract_comments lang source_code = Some ([], source_code)).
  { destruct lang; cbn [extract_comments].
    - unfold extract_comments_python.
      rewrite extract_python_plain by (auto; unfold strlen; lia). reflexivity.
    - unfold extract_comments_typescript.
      rewrite extract_typescript_plain by (auto; unfold strlen; lia). reflexivity. }
  rewrite Hextract, (tokenize_blank lang source_code Hblank).
  destruct lang; reflexivity.
Qed.

Lemma blank_text_gives_nothing_witness :
  main_analysis LANG_PYTHON (str "  " ++ [newline] ++ str " ")
  = Some (mkAnalysis [] [] []).
Proof.
  apply (blank_text_gives_nothing LANG_PYTHON (str "  " ++ [newline] ++ str " ")).
  reflexivity.
Defined.

(** ** An unterminated block comment *)

Lemma copy_until_star_slash_step (c0 c1 : ascii) (rest : cstring) (l : nat) :
  copy_until_star_slash (c0 :: c1 :: rest) l
  = let l' := if Ascii.eqb c0 newline then S l else l in
    if two_of "*" "/" (c0 :: c1 :: rest)
    then ([c0; c1], rest, l')
    else let '(copied, r, l'') := copy_until_star_slash (c1 :: rest) l' in
         (c0 :: copied, r, l'').
Proof. reflexivity. Qed.

Lemma copy_until_star_slash_unterminated (rest : cstring) :
  forall l : nat,
  never_star_slash rest = true ->
  copy_until_star_slash rest l
  = (firstn (length rest - 1) rest, skipn (length rest - 1) rest,
     l + newlines (firstn (length rest - 1) rest)).
Proof.
  induction rest as [|c0 rest IH]; intros l Hnever.
  - cbn. rewrite Nat.add_0_r. reflexivity.
  - destruct rest as [|c1 rest].
    + cbn. rewrite Nat.add_0_r. reflexivity.
    + cbn [never_star_slash] in Hnever. apply andb_true_iff in Hnever.
      destruct Hnever as [Hhere Hlater]. apply negb_true_iff in Hhere.
      rewrite copy_until_star_slash_step. cbv zeta. rewrite Hhere.
      rewrite IH by exact Hlater.
      replace (length (c0 :: c1 :: rest) - 1)
        with (S (length (c1 :: rest) - 1)) by (cbn [length]; lia).
      cbn [firstn skipn newlines].
      destruct (Ascii.eqb c0 newline); f_equal; lia.
Qed.

(** X20. When a TypeScript block comment opened at the start of the text
    is never closed, the copy loop stops one character before the end of
    the buffer: the comment's content lacks the last character of the text,
    which is the whole clean buffer.  Stated for a comment that fits
    [Comment.content] (fewer than [MAX_LENGTH] characters). *)
Theorem unterminated_block_stops_one_short (body : cstring) (last : ascii) :
  never_star_slash (body ++ [last]) = true ->
  strlen (str "/*" ++ body) < MAX_LENGTH ->
  extract_comments_typescript (str "/*" ++ body ++ [last])
  = Some ([mkComment (str "/*" ++ body) 1 (1 + newlines body) true], [last]).
Proof.
  intros Hnever _.
  unfold extract_comments_typescript, strlen.
  remember (length (str "/*" ++ body ++ [last])) as fuel eqn:Hfuel.
  cbn [str list_ascii_of_string app] in *. cbn [length] in Hfuel.
  cbn [extract_typescript_loop two_of Ascii.eqb Bool.eqb andb firstn skipn].
  replace (Ascii.eqb "*" "/") with false by reflexivity. cbn [andb].
  rewrite copy_until_star_slash_unterminated by exact Hnever.
  rewrite length_app. cbn [length].
  replace (length body + 1 - 1) with (length body) by lia.
  rewrite firstn_app, firstn_all, Nat.sub_diag. cbn [firstn]. rewrite app_nil_r.
  rewrite skipn_app, skipn_all, Nat.sub_diag. cbn [skipn app].
  destruct fuel as [|fuel]; [lia|]. destruct fuel as [|fuel].
  { rewrite length_app in Hfuel. cbn in Hfuel. lia. }
  cbn [extract_typescript_loop two_of app]. reflexivity.
Qed.

Lemma unterminated_block_stops_one_short_witness :
  strlen (str "/*" ++ str "a") < MAX_LENGTH /\
  extract_comments_typescript (str "/*" ++ str "a" ++ ["b"%char])
  = Some ([mkComment (str "/*" ++ str "a") 1 (1 + newlines (str "a")) true], ["b"%char]).
Proof.
  assert (Hfits : strlen (str "/*" ++ str "a") < MAX_LENGTH)
    by (unfold MAX_LENGTH; cbn; lia).
  split; [exact Hfits|].
  apply (unterminated_block_stops_one_short (str "a") "b"); [reflexivity | exact Hfits].
Defined.

(** ** The Python type-mismatch detector *)

Lemma python_mismatch_needs_literal (tokens : list Token) (i : nat) :
  python_mismatch_at tokens i <> [] ->
  type (token_at tokens i) = IDENTIFIER /\
  value (token_at tokens (i + 1)) = str ":" /\
  type (token_at tokens (i + 2)) = KEYWORD /\
  value (token_at tokens (i + 3)) = str "=" /\
  is_literal (token_at tokens (i + 4)) = true /\
  (value (token_at tokens (i + 2)) = str "int"
   \/ value (token_at tokens (i + 2)) = str "float"
   \/ value (token_at tokens (i + 2)) = str "str").
Proof.
  unfold python_mismatch_at, type_mismatch_python_step, is_literal.
  destruct (is_type (token_at tokens i) IDENTIFIER) eqn:H0; cbn [negb]; [|congruence].
  destruct (has_value (token_at tokens (i + 1)) ":") eqn:H1; cbn [negb]; [|congruence].
  destruct (is_type (token_at tokens (i + 2)) KEYWORD) eqn:H2; cbn [negb]; [|congruence].
  destruct (has_value (token_at tokens (i + 3)) "=") eqn:H3; cbn [negb]; [|congruence].
  apply TokenType_eqb_eq in H0, H2. apply has_value_eq in H1, H3.
  intros Hreport. repeat (split; [assumption|]).
  destruct (has_value (token_at tokens (i + 2)) "int") eqn:Hint;
  destruct (has_value (token_at tokens (i + 2)) "float") eqn:Hfloat;
  destruct (has_value (token_at tokens (i + 2)) "str") eqn:Hstr;
  destruct (is_type (token_at tokens (i + 4)) INT_LITERAL) eqn:Li;
  destruct (is_type (token_at tokens (i + 4)) FLOAT_LITERAL) eqn:Lf;
  destruct (is_type (token_at tokens (i + 4)) STRING_LITERAL) eqn:Ls;
  cbn [andb orb] in Hreport |- *; try congruence;
  try apply has_value_eq in Hint; try apply has_value_eq in Hfloat;
  try apply has_value_eq in Hstr; auto.
Qed.

Lemma python_mismatch_float_accepts_int (tokens : list Token) (i : nat) :
  value (token_at tokens (i + 2)) = str "float" ->
  type (token_at tokens (i + 4)) = INT_LITERAL ->
  python_mismatch_at tokens i = [].
Proof.
  intros Hfloat Hint. unfold python_mismatch_at, type_mismatch_python_step.
  unfold has_value, is_type. rewrite Hfloat, Hint.
  change (streq (str "float") (str "int")) with false.
  change (streq (str "float") (str "str")) with false.
  change (streq (str "float") (str "float")) with true.
  cbn [TokenType_eqb andb orb]. split_ifs; reflexivity.
Qed.

(** X21. The Python type-mismatch scan reports at most one error per
    window, and reports a window only when it reads
    [IDENTIFIER ":" KEYWORD "=" literal] with the keyword [int], [float] or
    [str] and the fifth token a literal: no other annotation is checked and
    no non-literal value is ever reported.  An integer literal assigned to
    a [float] is accepted. *)
Theorem python_mismatch_only_on_literals (tokens : list Token) (i : nat) :
  length (python_mismatch_at tokens i) <= 1 /\
  (python_mismatch_at tokens i <> [] ->
   type (token_at tokens i) = IDENTIFIER /\
   value (token_at tokens (i + 1)) = str ":" /\
   type (token_at tokens (i + 2)) = KEYWORD /\
   value (token_at tokens (i + 3)) = str "=" /\
   is_literal (token_at tokens (i + 4)) = true /\
   (value (token_at tokens (i + 2)) = str "int"
    \/ value (token_at tokens (i + 2)) = str "float"
    \/ value (token_at tokens (i + 2)) = str "str")) /\
  (value (token_at tokens (i + 2)) = str "float" ->
   type (token_at tokens (i + 4)) = INT_LITERAL ->
   python_mismatch_at tokens i = []) /\
  check_type_mismatch_python tokens (length tokens) []
  = flat_map (python_mismatch_at tokens) (seq 0 (length tokens - 4)).
Proof.
  split; [|split; [apply python_mismatch_needs_literal
                  |split; [apply python_mismatch_float_accepts_int|]]].
  - unfold python_mismatch_at, type_mismatch_python_step.
    split_ifs; cbn [length app]; lia.
  - unfold check_type_mismatch_python.
    rewrite for_range_appends by (intros; apply type_mismatch_python_step_appends).
    reflexivity.
Qed.

Lemma python_mismatch_only_on_literals_witness :
  python_mismatch_at float_from_int 0 = [].
Proof.
  apply (proj1 (proj2 (proj2 (python_mismatch_only_on_literals float_from_int 0))));
    reflexivity.
Defined.

(** ** Lists that have no cap *)

Lemma comment_lines_length (marker : cstring) (n : nat) :
  length (comment_lines marker n) = n * S (length marker).
Proof.
  induction n as [|n IH]; [reflexivity|].
  cbn [comment_lines]. rewrite length_app. cbn [length]. rewrite IH. lia.
Qed.

Lemma extract_python_comment_lines (n : nat) :
  forall (fuel : nat) (comments : list Comment) (clean : cstring) (l : nat),
  length (comment_lines (str "#") n) < fuel ->
  extract_python_loop fuel (comment_lines (str "#") n) comments clean l
  = Some (comments ++ map (fun k => mkComment (str "#") (l + k) (l + k) false) (seq 0 n),
          clean ++ repeat newline n).
Proof.
  induction n as [|n IH]; intros fuel comments clean l Hfuel.
  - destruct fuel; [cbn in Hfuel; lia|]. cbn. rewrite !app_nil_r. reflexivity.
  - rewrite comment_lines_length in Hfuel.
    destruct fuel as [|[|fuel]]; try (cbn in Hfuel; lia).
    cbn [comment_lines str list_ascii_of_string app].
    assert (H3 : forall q rest, Ascii.eqb newline q = false ->
                   three_of q (newline :: rest) = false).
    { intros q rest Hq. destruct rest as [|c1 [|c2 rest]]; cbn [three_of];
        try reflexivity. rewrite Hq. reflexivity. }
    cbn [extract_python_loop].
    change (Ascii.eqb "#" "#") with true. cbv iota.
    cbn [copy_line].
    change (Ascii.eqb "#" newline) with false.
    change (Ascii.eqb newline newline) with true. cbv iota.
    change (Ascii.eqb newline "#") with false. cbv iota.
    rewrite !H3 by reflexivity. cbn [orb].
    rewrite IH by (rewrite comment_lines_length; cbn in Hfuel |- *; lia).
    rewrite <- !app_assoc. cbn [app seq map repeat].
    rewrite Nat.add_0_r. rewrite <- seq_shift, map_map.
    change (Ascii.eqb newline newline) with true. cbv iota.
    rewrite (map_ext (fun k => mkComment (str "#") (S l + k) (S l + k) false)
                     (fun k => mkComment (str "#") (l + S k) (l + S k) false))
      by (intros k; replace (S l + k) with (l + S k) by lia; reflexivity).
    reflexivity.
Qed.

(** X22. The comment list has no cap: a Python text of [n] lines, each a
    lone [#], gives exactly [n] comments, one per line, for every [n],
    beyond [MAX_COMMENTS] as well. *)
Theorem comments_are_not_capped (n : nat) :
  extract_comments_python (comment_lines (str "#") n)
  = Some (map (fun k => mkComment (str "#") (1 + k) (1 + k) false) (seq 0 n),
          repeat newline n).
Proof.
  unfold extract_comments_python, strlen.
  rewrite extract_python_comment_lines by lia. reflexivity.
Qed.

Lemma invalid_operator_count (tokens : list Token) :
  Forall (fun t => type t = OPERATOR /\ value t = str "=<") tokens ->
  length (flat_map (fun t => invalid_operator_python_step [t] 0 []) tokens) = length tokens /\
  length (flat_map (fun t => invalid_operator_typescript_step [t] 0 []) tokens) = length tokens.
Proof.
  induction 1 as [|t tokens [Hty Hv] _ [IHp IHt]]; [split; reflexivity|].
  cbn [flat_map]. rewrite !length_app, IHp, IHt.
  unfold invalid_operator_python_step, invalid_operator_typescript_step.
  cbn [token_at nth]. unfold is_type, has_value. rewrite Hty, Hv.
  split; reflexivity.
Qed.

(** X23. The error list has no cap either: on an array whose tokens are
    all the operator [=<], the invalid-operator detector of either language
    appends one error per token, however many there are, beyond
    [MAX_ERRORS] as well. *)
Theorem errors_are_not_capped (tokens : list Token) (errors : list Error) :
  Forall (fun t => type t = OPERATOR /\ value t = str "=<") tokens ->
  length (check_invalid_operator_python tokens (length tokens) errors)
  = length errors + length tokens /\
  length (check_invalid_operator_typescript tokens (length tokens) errors)
  = length errors + length tokens.
Proof.
  intros Hall. destruct (invalid_operator_count tokens Hall) as [Hp Ht].
  unfold check_invalid_operator_python, check_invalid_operator_typescript.
  rewrite !for_range_appends
    by (intros; apply invalid_operator_python_step_appends
        || apply invalid_operator_typescript_step_appends).
  rewrite !length_app.
  rewrite <- (flat_map_token_at _ (fun t => invalid_operator_python_step [t] 0 [])) in Hp.
  rewrite <- (flat_map_token_at _ (fun t => invalid_operator_typescript_step [t] 0 [])) in Ht.
  split; f_equal; assumption.
Qed.

Lemma errors_are_not_capped_witness :
  length (check_invalid_operator_python
            (repeat (mkToken (str "=<") OPERATOR 1) 101) 101 []) = 101.
Proof.
  pose proof (errors_are_not_capped (repeat (mkToken (str "=<") OPERATOR 1) 101) []) as H.
  rewrite repeat_length in H. apply H.
  apply Forall_forall. intros t Ht. apply repeat_spec in Ht. subst t. split; reflexivity.
Defined.

(** ** The reach of the symbol cap *)

Lemma for_while_agree (St : Type) (P : St -> Prop) (n : nat) :
  forall (lo : nat) (cont : nat -> bool) (f g : nat -> St -> St) (st : St),
  P st ->
  (forall k s, lo <= k < lo + n -> P s -> f k s = g k s /\ P (f k s)) ->
  for_while lo n cont f st = for_while lo n cont g st
  /\ P (for_while lo n cont f st).
Proof.
  induction n as [|n IH]; intros lo cont f g st Hst Hstep; cbn; [auto|].
  destruct (cont lo); [|auto].
  destruct (Hstep lo st) as [Heq Hnext]; [lia | exact Hst|].
  rewrite <- Heq. apply IH; [exact Hnext|].
  intros k s Hk. apply Hstep. lia.
Qed.

Lemma for_range_agree (St : Type) (P : St -> Prop) (lo n : nat)
    (f g : nat -> St -> St) (st : St) :
  P st ->
  (forall k s, lo <= k < lo + n -> P s -> f k s = g k s /\ P (f k s)) ->
  for_range lo n f st = for_range lo n g st /\ P (for_range lo n f st).
Proof.
  intros Hst. induction n as [|n IH]; intros Hstep; [auto|].
  rewrite !for_range_succ.
  destruct IH as [Heq Hinv]; [intros k s Hk; apply Hstep; lia|].
  rewrite <- Heq. apply Hstep; [lia | exact Hinv].
Qed.

(** Pass 1 over [add_symbol] is the pass 1 of the detector. *)
Lemma typescript_symbols_with_add_symbol (tokens : list Token) (count : nat) :
  typescript_symbols_with add_symbol tokens count = typescript_symbols tokens count.
Proof. reflexivity. Qed.

(** While the table holds distinct declared names of an array of at most
    [MAX_TOKENS] tokens in which no IDENTIFIER is a marker, a declared name
    always finds room. *)
Lemma add_symbol_has_room (tokens : list Token) (count : nat) (name : cstring)
    (symbol_table : SymbolTable) :
  count <= MAX_TOKENS ->
  (forall j, is_type (token_at tokens j) IDENTIFIER = true ->
             is_marker (token_at tokens j) = false) ->
  In name (declared_names tokens count) ->
  NoDup symbol_table /\
  Forall (fun n => In n (declared_names tokens count)) symbol_table ->
  add_symbol name symbol_table = add_symbol_uncapped name symbol_table
  /\ (NoDup (add_symbol name symbol_table)
      /\ Forall (fun n => In n (declared_names tokens count))
           (add_symbol name symbol_table)).
Proof.
  intros Hcap Hclean Hname [Hnodup Hall].
  split.
  - unfold add_symbol, add_symbol_uncapped.
    destruct (symbol_exists symbol_table name) eqn:Hex; cbn [negb andb]; [reflexivity|].
    assert (Hnew : ~ In name symbol_table).
    { intros Hold. apply symbol_exists_in in Hold. congruence. }
    assert (Hlen : length (name :: symbol_table) <= length (declared_names tokens count)).
    { apply NoDup_incl_length; [constructor; assumption|].
      intros n [<-|Hn]; [exact Hname|].
      rewrite Forall_forall in Hall. apply Hall. exact Hn. }
    pose proof (declared_names_bound tokens count Hclean) as Hbound.
    cbn [length] in Hlen. unfold MAX_TOKENS in Hcap.
    replace (length symbol_table <? MAX_SYMBOLS) with true
      by (symmetry; apply Nat.ltb_lt; unfold MAX_SYMBOLS; lia).
    reflexivity.
  - split; [|apply add_symbol_all; assumption].
    destruct (add_symbol_cases name symbol_table) as [->|(-> & Hnew & _)]; [exact Hnodup|].
    apply NoDup_app; [exact Hnodup | constructor; [intros []|constructor] |].
    intros n Hn [<-|[]]. contradiction.
Qed.

Lemma typescript_declare_step_has_room (tokens : list Token) (count i : nat)
    (symbol_table : SymbolTable) :
  count <= MAX_TOKENS ->
  (forall j, is_type (token_at tokens j) IDENTIFIER = true ->
             is_marker (token_at tokens j) = false) ->
  i < count - 1 ->
  NoDup symbol_table /\
  Forall (fun n => In n (declared_names tokens count)) symbol_table ->
  typescript_declare_step tokens count i symbol_table
  = typescript_declare_step_with add_symbol_uncapped tokens count i symbol_table
  /\ (NoDup (typescript_declare_step tokens count i symbol_table)
      /\ Forall (fun n => In n (declared_names tokens count))
           (typescript_declare_step tokens count i symbol_table)).
Proof.
  intros Hcap Hclean Hi Hinv.
  unfold typescript_declare_step, typescript_declare_step_with.
  set (P := fun t : SymbolTable =>
              NoDup t /\ Forall (fun n => In n (declared_names tokens count)) t).
  assert (Hfirst :
    (if is_declaration (token_at tokens i) && is_type (token_at tokens (i + 1)) IDENTIFIER
     then add_symbol (value (token_at tokens (i + 1))) symbol_table
     else symbol_table)
    = (if is_declaration (token_at tokens i) && is_type (token_at tokens (i + 1)) IDENTIFIER
       then add_symbol_uncapped (value (token_at tokens (i + 1))) symbol_table
       else symbol_table)
    /\ P (if is_declaration (token_at tokens i)
             && is_type (token_at tokens (i + 1)) IDENTIFIER
          then add_symbol (value (token_at tokens (i + 1))) symbol_table
          else symbol_table)).
  { destruct (is_declaration (token_at tokens i)) eqn:Hdecl; cbn [andb]; [|auto].
    destruct (is_type (token_at tokens (i + 1)) IDENTIFIER) eqn:Hty; [|auto].
    apply (add_symbol_has_room tokens count); auto.
    apply declared_names_in; [lia|].
    unfold declaring_position, is_marker. rewrite Hty.
    replace (i + 1 - 1) with i by lia. rewrite Hdecl. reflexivity. }
  destruct Hfirst as [Heq Hfirst]. rewrite <- Heq.
  destruct (has_value (token_at tokens i) "function") eqn:Hfun; [|auto].
  apply for_while_agree with (P := P); [exact Hfirst|].
  intros k s Hk Hs.
  destruct (is_type (token_at tokens k) IDENTIFIER) eqn:Hty; cbn [andb]; [|auto].
  destruct (_ || _) eqn:Hmark; [|auto].
  apply (add_symbol_has_room tokens count); auto.
  apply declared_names_in; [lia|].
  unfold declaring_position, is_marker. rewrite Hty. cbn [andb].
  apply orb_true_iff in Hmark. destruct Hmark as [Hmark|Hmark].
  - apply orb_true_iff in Hmark. destruct Hmark as [Hmark|Hmark].
    + apply Nat.eqb_eq in Hmark. subst k. replace (i + 1 - 1) with i by lia.
      rewrite Hfun. rewrite !orb_true_r. reflexivity.
    + rewrite Hmark. rewrite !orb_true_r. reflexivity.
  - rewrite Hmark. rewrite !orb_true_r. reflexivity.
Qed.

(** On the token array of a text the TypeScript pass 1 never meets a full
    table: it builds the table it would build with no cap. *)
Lemma typescript_cap_has_no_effect (source_code : cstring) (tokens : list Token) :
  tokenize_typescript source_code = Some tokens ->
  typescript_symbols tokens (length tokens)
  = typescript_symbols_with add_symbol_uncapped tokens (length tokens).
Proof.
  intros Hrun.
  destruct (tokenize_loop_coverage LANG_TYPESCRIPT (S (strlen source_code))
              source_code 1 [] 0)
    as (new & gaps & tail & Hrun' & _ & _ & _ & _ & Hcap & Hall).
  { unfold strlen. lia. }
  unfold tokenize_typescript, tokenize in Hrun. rewrite Hrun' in Hrun.
  cbn [app Nat.add Nat.max] in Hrun, Hcap. injection Hrun as ->.
  assert (Hclean : forall j, is_type (token_at tokens j) IDENTIFIER = true ->
                             is_marker (token_at tokens j) = false).
  { intros k Hk.
    destruct (Nat.lt_ge_cases k (length tokens)) as [Hlt|Hge].
    - apply typescript_identifier_not_marker; [|exact Hk].
      rewrite Forall_forall in Hall.
      apply (Hall (token_at tokens k)). apply token_at_in. exact Hlt.
    - unfold token_at in Hk. rewrite nth_overflow in Hk by exact Hge. discriminate. }
  unfold typescript_symbols, typescript_symbols_with.
  apply (for_range_agree SymbolTable
           (fun t => NoDup t /\
                     Forall (fun n => In n (declared_names tokens (length tokens))) t)).
  - split; constructor.
  - intros k s Hk Hs. apply typescript_declare_step_has_room; auto. lia.
Qed.

Lemma python_many_names_table :
  Forall value_fits python_many_names_tokens /\
  symbol_exists
    (python_symbols python_many_names_tokens (length python_many_names_tokens))
    (numbered 501) = false /\
  symbol_exists
    (python_symbols python_many_names_tokens (length python_many_names_tokens))
    (numbered 500) = true.
Proof.
  split; [apply short_values_fit; vm_compute; reflexivity|].
  split; vm_compute; reflexivity.
Qed.

(** C10 (as amended).  In both undeclared-identifier detectors the symbol
    table built by pass 1 never holds more than [MAX_SYMBOLS] = 500 names,
    at any iteration, and a declaration met when the table is full is
    dropped without any trace.  In the Python detector this happens on a
    text the program can be given: on [def v1 ... v501:] followed by a use
    of [v501], whose analysis stays inside every array, the table is full
    with [v1] to [v500], [v501] is declared and missing from it, and its
    use is reported as UNDECLARED_IDENTIFIER.  In the TypeScript detector
    it happens on no token array that [tokenize_typescript] returns: pass 1
    builds exactly the table it would build without the cap (stated for
    token values that fit [Token.value]).  It takes a longer array, such as
    the 1004 tokens of [let v1 ... let v501 ; v501] handed to the detector
    directly, to lose a TypeScript declaration. *)
Theorem symbol_table_is_capped :
  (forall (tokens : list Token) (count n : nat),
     length (for_range 0 n (python_declare_step tokens count) []) <= MAX_SYMBOLS) /\
  (forall (tokens : list Token) (count n : nat),
     length (for_range 0 n (typescript_declare_step tokens count) []) <= MAX_SYMBOLS) /\
  (forall (name : cstring) (symbol_table : SymbolTable),
     MAX_SYMBOLS <= length symbol_table -> add_symbol name symbol_table = symbol_table) /\
  (exists a : Analysis,
     main_analysis LANG_PYTHON python_many_names = Some a /\
     analysis_fits a /\
     python_declared_at (token_array a) 501 /\
     value (token_at (token_array a) 501) = numbered 501 /\
     token_at (token_array a) 503 = mkToken (numbered 501) IDENTIFIER 2 /\
     length (python_symbols (token_array a) (length (token_array a))) = MAX_SYMBOLS /\
     symbol_exists (python_symbols (token_array a) (length (token_array a)))
       (numbered 501) = false /\
     In (undeclared (mkToken (numbered 501) IDENTIFIER 2)) (error_array a)) /\
  (forall (source_code : cstring) (tokens : list Token),
     tokenize_typescript source_code = Some tokens ->
     Forall value_fits tokens ->
     typescript_symbols tokens (length tokens)
     = typescript_symbols_with add_symbol_uncapped tokens (length tokens)) /\
  (MAX_TOKENS < length typescript_many_names /\
   typescript_declared_at typescript_many_names 1001 /\
   value (token_at typescript_many_names 1001) = numbered 501 /\
   token_at typescript_many_names 1003 = mkToken (numbered 501) IDENTIFIER 1 /\
   length (typescript_symbols typescript_many_names (length typescript_many_names))
   = MAX_SYMBOLS /\
   In (undeclared (mkToken (numbered 501) IDENTIFIER 1))
      (check_undeclared_identifier_typescript typescript_many_names
         (length typescript_many_names) [])).
Proof.
  split; [|split; [|split; [exact add_symbol_full|split; [|split]]]].
  - intros tokens count n.
    apply for_range_invariant with (P := fun t => length t <= MAX_SYMBOLS).
    + cbn. lia.
    + intros k s. apply python_declare_step_bound.
  - intros tokens count n.
    apply for_range_invariant with (P := fun t => length t <= MAX_SYMBOLS).
    + cbn. lia.
    + intros k s. apply typescript_declare_step_bound.
  - destruct python_many_names_declared as (_ & Hdecl & Hname & Huse & Hfull).
    destruct python_many_names_table as (Hfits & Hmissing & _).
    eexists. split; [exact python_many_names_run|].
    cbn [token_array error_array].
    split.
    { unfold analysis_fits. cbn [token_array comment_array error_array].
      split; [exact Hfits|]. split; [constructor|].
      split; [cbn; apply Nat.le_0_l|].
      cbn [length]. unfold MAX_ERRORS. lia. }
    split; [exact Hdecl|]. split; [exact Hname|]. split; [exact Huse|].
    split; [exact Hfull|]. split; [exact Hmissing|].
    right. left. reflexivity.
  - intros source_code tokens Hrun _.
    exact (typescript_cap_has_no_effect source_code tokens Hrun).
  - exact typescript_many_names_run.
Qed.

Lemma symbol_table_is_capped_witness :
  (length (map numbered (seq 1 500)) = MAX_SYMBOLS /\
   add_symbol (numbered 501) (map numbered (seq 1 500)) = map numbered (seq 1 500)) /\
  (tokenize_typescript (str "y; let y") = Some use_before_let /\
   Forall value_fits use_before_let /\
   typescript_symbols use_before_let (length use_before_let)
   = typescript_symbols_with add_symbol_uncapped use_before_let (length use_before_let)).
Proof.
  split.
  - split; [reflexivity|].
    apply (proj1 (proj2 (proj2 symbol_table_is_capped))).
    rewrite length_map, length_seq. apply Nat.le_refl.
  - assert (Hfits : Forall value_fits use_before_let)
      by (apply short_values_fit; reflexivity).
    split; [reflexivity | split; [exact Hfits|]].
    apply (proj1 (proj2 (proj2 (proj2 (proj2 symbol_table_is_capped))))
             (str "y; let y") use_before_let); [reflexivity | exact Hfits].
Defined.

(** C10 (as stated) fails for the TypeScript detector: there is no text
    whose token array makes the cap drop a declaration.  An array of at most
    [MAX_TOKENS] = 1000 tokens has at most 500 positions at which pass 1
    records a name, each an IDENTIFIER after a marker token, so the test
    [symbol_count < MAX_SYMBOLS] never fails for a new name. *)
Lemma typescript_cap_out_of_reach :
  ~ exists (source_code : cstring) (tokens : list Token),
      tokenize_typescript source_code = Some tokens /\
      Forall value_fits tokens /\
      typescript_symbols tokens (length tokens)
      <> typescript_symbols_with add_symbol_uncapped tokens (length tokens).
Proof.
  intros (source_code & tokens & Hrun & _ & Hdiffer).
  apply Hdiffer. exact (typescript_cap_has_no_effect source_code tokens Hrun).
Qed.
